(** * sgfinfo: the SGF tokenizer and tree builder, embedded and verified

    The development follows the two Go files of the repository:
    the scanner (lexer, [stateFn]s, [emit], [errorf], [quoteContext]) and
    [parse.go] ([Node], [SGFGame], [Parse], [NodeCount], [NthNode]).

    Go strings are byte sequences and are modelled by [string] (a list of
    8-bit [ascii] values); Go [int]/[Pos]/[rune] values are modelled by [Z];
    pointers to [Node] are addresses into an explicit heap. *)

From Stdlib Require Import ZArith String Ascii List Lia Bool FunctionalExtensionality.
From stdpp Require Import base option list gmap strings pretty.

Open Scope string_scope.
Open Scope list_scope.
Open Scope Z_scope.

#[local] Set Warnings "-register-all".

(** ** Go strings *)

Module GoString.

Definition byte (c : ascii) : Z := Z.of_N (N_of_ascii c).

Definition len (s : string) : Z := Z.of_nat (String.length s).

Fixpoint drop (n : nat) (s : string) : string :=
  match n, s with
  | O, _ => s
  | S n', String _ t => drop n' t
  | S _, EmptyString => EmptyString
  end.

Fixpoint take (n : nat) (s : string) : string :=
  match n, s with
  | O, _ => EmptyString
  | S n', String c t => String c (take n' t)
  | S _, EmptyString => EmptyString
  end.

(** [s[lo:hi]]: Go panics (here [None]) unless [0 <= lo <= hi <= len(s)]. *)
Definition slice (s : string) (lo hi : Z) : option string :=
  if (0 <=? lo) && (lo <=? hi) && (hi <=? len s)
  then Some (take (Z.to_nat (hi - lo)) (drop (Z.to_nat lo) s))
  else None.

(** [s[lo:]] *)
Definition slice_from (s : string) (lo : Z) : option string :=
  slice s lo (len s).

(** [strings.HasPrefix(s, "(")] and friends, for a one-byte prefix. *)
Definition HasPrefix1 (s : string) (c : ascii) : bool :=
  match s with
  | String d _ => bool_decide (d = c)
  | EmptyString => false
  end.

(** [strings.Replace(s, old, "", -1)] for a one-byte [old]. *)
Fixpoint remove_byte (c : ascii) (s : string) : string :=
  match s with
  | EmptyString => EmptyString
  | String d t => if bool_decide (d = c) then remove_byte c t
                  else String d (remove_byte c t)
  end.


Definition is_ascii (s : string) : bool :=
  forallb (fun c => byte c <? 128) (list_ascii_of_string s).

End GoString.
Import GoString.

(** ** [unicode/utf8]: decoding one rune *)

Module utf8.

Definition RuneError : Z := 65533.

(** The table [first] of the Go library: for a leading byte, the size of the
    sequence and the accepted range of the second byte; [None] for a byte
    that cannot start a multi-byte sequence. *)
Definition first (b : Z) : option (Z * Z * Z) :=
  if (194 <=? b) && (b <=? 223) then Some (2, 128, 191)
  else if b =? 224 then Some (3, 160, 191)
  else if (225 <=? b) && (b <=? 236) then Some (3, 128, 191)
  else if b =? 237 then Some (3, 128, 159)
  else if (238 <=? b) && (b <=? 239) then Some (3, 128, 191)
  else if b =? 240 then Some (4, 144, 191)
  else if (241 <=? b) && (b <=? 243) then Some (4, 128, 191)
  else if b =? 244 then Some (4, 128, 143)
  else None.

Definition cont (b : Z) : bool := (128 <=? b) && (b <=? 191).

(** [utf8.DecodeRuneInString]: the rune and its width in bytes;
    [(RuneError, 0)] on the empty string, [(RuneError, 1)] on an invalid
    encoding. *)
Definition DecodeRuneInString (s : string) : Z * Z :=
  match s with
  | EmptyString => (RuneError, 0)
  | String c0 t0 =>
    let s0 := byte c0 in
    if s0 <? 128 then (s0, 1) else
    match first s0 with
    | None => (RuneError, 1)
    | Some (sz, lo, hi) =>
      if len s <? sz then (RuneError, 1) else
      match t0 with
      | EmptyString => (RuneError, 1)
      | String c1 t1 =>
        let s1 := byte c1 in
        if (s1 <? lo) || (hi <? s1) then (RuneError, 1) else
        if sz <=? 2 then
          (Z.lor (Z.shiftl (Z.land s0 31) 6) (Z.land s1 63), 2)
        else
        match t1 with
        | EmptyString => (RuneError, 1)
        | String c2 t2 =>
          let s2 := byte c2 in
          if negb (cont s2) then (RuneError, 1) else
          if sz <=? 3 then
            (Z.lor (Z.lor (Z.shiftl (Z.land s0 15) 12)
                          (Z.shiftl (Z.land s1 63) 6))
                   (Z.land s2 63), 3)
          else
          match t2 with
          | EmptyString => (RuneError, 1)
          | String c3 _ =>
            let s3 := byte c3 in
            if negb (cont s3) then (RuneError, 1) else
            (Z.lor (Z.lor (Z.lor (Z.shiftl (Z.land s0 7) 18)
                                 (Z.shiftl (Z.land s1 63) 12))
                          (Z.shiftl (Z.land s2 63) 6))
                   (Z.land s3 63), 4)
          end
        end
      end
    end
  end.

End utf8.

(** ** The Go library tables the scanner consults

    [unicode.IsLetter], [unicode.IsPrint], [strings.ToUpper] and the [fmt]
    verbs are Go library code driven by the Unicode tables.  The scanner is
    parameterised by them; [GoLibLaws] records the facts about them that the
    proofs use, each of which holds of the Go library. *)

Class GoLib : Type := {
  (** [unicode.IsLetter] *)
  IsLetter : Z -> bool;
  (** [unicode.IsPrint] *)
  IsPrint : Z -> bool;
  (** [strings.ToUpper] *)
  ToUpper : string -> string;
  (** the verb [%q] applied to a string operand *)
  fmt_q : string -> string;
  (** the verb [%q] applied to a rune operand *)
  fmt_q_rune : Z -> string;
  (** [fmt.Sprintf(format)] with no operand *)
  Sprintf0 : string -> string
}.

Definition ascii_letter (r : Z) : bool :=
  ((65 <=? r) && (r <=? 90)) || ((97 <=? r) && (r <=? 122)).

Definition ascii_print (r : Z) : bool := (32 <=? r) && (r <=? 126).

Definition upper_byte (c : ascii) : ascii :=
  if (97 <=? byte c) && (byte c <=? 122)
  then ascii_of_N (Z.to_N (byte c - 32)) else c.

Fixpoint ascii_upper (s : string) : string :=
  match s with
  | EmptyString => EmptyString
  | String c t => String (upper_byte c) (ascii_upper t)
  end.

Definition percent : ascii := "%"%char.

Fixpoint no_percent (s : string) : bool :=
  match s with
  | EmptyString => true
  | String c t => negb (bool_decide (c = percent)) && no_percent t
  end.

Class GoLibLaws (G : GoLib) : Prop := {
  (** the end-of-input marker [-1] is in no Unicode range *)
  IsLetter_eof : IsLetter (-1) = false;
  IsPrint_eof : IsPrint (-1) = false;
  (** on the ASCII range the tables are the familiar ones *)
  IsLetter_ascii : forall r, 0 <= r < 128 -> IsLetter r = ascii_letter r;
  IsPrint_ascii : forall r, 0 <= r < 128 -> IsPrint r = ascii_print r;
  ToUpper_ascii : forall s, is_ascii s = true -> ToUpper s = ascii_upper s;
  (** a format without a verb is printed as it is *)
  Sprintf0_plain : forall s, no_percent s = true -> Sprintf0 s = s
}.

(** An instance: the Go library restricted to ASCII operands.  On a rune
    below 128 and on strings of such bytes the functions below compute what
    the Go library computes ([strconv.Quote] for [%q]).  Outside that range
    they answer as for an invalid encoding. *)

Module AsciiLib.

Definition hex_digit (n : Z) : ascii :=
  ascii_of_N (Z.to_N (if n <? 10 then 48 + n else 87 + n)).

Definition backslash : ascii := ascii_of_N 92.
Definition dquote : ascii := ascii_of_N 34.
Definition squote : ascii := ascii_of_N 39.

Definition escape (q c : ascii) : string :=
  let b := byte c in
  let esc (x : string) := String backslash x in
  if bool_decide (c = q) || bool_decide (c = backslash) then esc (String c "")
  else if ascii_print b then String c ""
  else if b =? 7 then esc "a" else if b =? 8 then esc "b"
  else if b =? 12 then esc "f" else if b =? 10 then esc "n"
  else if b =? 13 then esc "r" else if b =? 9 then esc "t"
  else if b =? 11 then esc "v"
  else esc (String "x" (String (hex_digit (b / 16)) (String (hex_digit (b mod 16)) ""))).

Fixpoint escape_all (q : ascii) (s : string) : string :=
  match s with
  | EmptyString => EmptyString
  | String c t => escape q c +:+ escape_all q t
  end.

Definition quote (s : string) : string :=
  String dquote (escape_all dquote s +:+ String dquote "").

Definition replacement : string :=
  String (ascii_of_N 239) (String (ascii_of_N 191) (String (ascii_of_N 189) "")).

Definition quote_rune (r : Z) : string :=
  String squote
    ((if (0 <=? r) && (r <? 128) then escape squote (ascii_of_N (Z.to_N r))
      else replacement) +:+ String squote "").

(** Plain verbs only: [%%] prints a percent sign, a verb with no operand
    prints [%!v(MISSING)], a lone trailing percent prints [%!(NOVERB)]. *)
Fixpoint sprintf0 (s : string) : string :=
  match s with
  | EmptyString => EmptyString
  | String c t =>
    if bool_decide (c = percent) then
      match t with
      | EmptyString => "%!(NOVERB)"
      | String v t' =>
        if bool_decide (v = percent) then String percent (sprintf0 t')
        else "%!" +:+ String v ("(MISSING)" +:+ sprintf0 t')
      end
    else String c (sprintf0 t)
  end.

#[export] Instance lib : GoLib := {|
  IsLetter := ascii_letter;
  IsPrint := ascii_print;
  ToUpper := ascii_upper;
  fmt_q := quote;
  fmt_q_rune := quote_rune;
  Sprintf0 := sprintf0
|}.

End AsciiLib.

(** ** The scanner *)

Module Lexer.

(** [itemType] identifies the type of lex items. *)
Inductive itemType : Set :=
| itemEOF
| itemError
| itemLeftParen
| itemRightParen
| itemSemiColon
| itemLeftBracket
| itemRightBracket
| itemPropertyName
| itemPropertyValue.

#[global] Instance itemType_eq_dec : EqDecision itemType.
Proof. solve_decision. Defined.

(** [item]: a token; [ipos] is the field [pos] of the source. *)
Record item : Set := mkItem { typ : itemType; ipos : Z; val : string }.

(** [lexer]: the state of the scanner.  The channel [items] is modelled by
    the list of the items sent on it so far.  The fields [name] (never
    set), [lastPos] (written by [nextItem], never read) and [state] (the
    argument of [run]) are left out. *)
Record lexer : Set := mkLexer {
  input : string;
  pos : Z;
  start : Z;
  width : Z;
  items : list item
}.

Definition set_pos (l : lexer) (p : Z) : lexer :=
  mkLexer (input l) p (start l) (width l) (items l).
Definition set_start (l : lexer) (p : Z) : lexer :=
  mkLexer (input l) (pos l) p (width l) (items l).
Definition set_width (l : lexer) (w : Z) : lexer :=
  mkLexer (input l) (pos l) (start l) w (items l).
Definition send (l : lexer) (i : item) : lexer :=
  mkLexer (input l) (pos l) (start l) (width l) (items l ++ [i]).

(** The names of the state functions. *)
Inductive stateFn : Set :=
| fnBegin
| fnLeftParen
| fnRightParen
| fnSemiColon
| fnPropertyName
| fnLeftBracket.

#[global] Instance stateFn_eq_dec : EqDecision stateFn.
Proof. solve_decision. Defined.

(** Results of a scanner action: a value and the new state, a run-time
    panic, or a loop bound that ran out. *)
Inductive res (A : Type) : Type :=
| Ok (a : A) (l : lexer)
| Panic (l : lexer)
| Fuel (l : lexer).
Arguments Ok {A} a l.
Arguments Panic {A} l.
Arguments Fuel {A} l.

Definition M (A : Type) : Type := lexer -> res A.

Definition ret {A} (a : A) : M A := fun l => Ok a l.
Definition bind {A B} (m : M A) (f : A -> M B) : M B :=
  fun l => match m l with
           | Ok a l' => f a l'
           | Panic l' => Panic l'
           | Fuel l' => Fuel l'
           end.
Definition get : M lexer := fun l => Ok l l.
Definition modify (f : lexer -> lexer) : M unit := fun l => Ok tt (f l).
Definition panic {A} : M A := fun l => Panic l.
Definition out_of_fuel {A} : M A := fun l => Fuel l.
Definition lift_slice (o : option string) : M string :=
  match o with Some s => ret s | None => panic end.

Notation "'do' x <- m ; k" := (bind m (fun x => k))
  (at level 10, x name, m at level 100, k at level 200).
Notation "m ;; k" := (bind m (fun _ => k))
  (at level 100, k at level 200, right associativity).

Definition eof : Z := -1.

Definition isSpace (r : Z) : bool := (r =? 32) || (r =? 9).
Definition isEndOfLine (r : Z) : bool := (r =? 13) || (r =? 10).
Definition isWhiteSpace (r : Z) : bool := isSpace r || isEndOfLine r.

Definition strip_newlines (s : string) : string :=
  remove_byte (ascii_of_N 13) (remove_byte (ascii_of_N 10) s).

Section Scanner.
Context {G : GoLib}.

Definition isAlpha (r : Z) : bool := IsLetter r.
Definition isPropertyValueChar (r : Z) : bool := IsPrint r && negb (r =? 93).

(** [next] returns the next rune in the input. *)
Definition next : M Z :=
  do l <- get;
  if len (input l) <=? pos l then
    modify (fun l => set_width l 0);; ret eof
  else
    do s <- lift_slice (slice_from (input l) (pos l));
    let '(r, w) := utf8.DecodeRuneInString s in
    modify (fun l => set_width l w);;
    modify (fun l => set_pos l (pos l + width l));;
    ret r.

(** [backup] steps back one rune. *)
Definition backup : M unit := modify (fun l => set_pos l (pos l - width l)).

(** [peek] returns but does not consume the next rune in the input. *)
Definition peek : M Z := do r <- next; backup;; ret r.

(** [emit] passes an item back to the client. *)
Definition emit (t : itemType) : M unit :=
  do l <- get;
  do v <- lift_slice (slice (input l) (start l) (pos l));
  let i := mkItem t (start l) v in
  let i := if bool_decide (typ i = itemPropertyName)
           then mkItem (typ i) (ipos i) (ToUpper (val i)) else i in
  modify (fun l => send l i);;
  modify (fun l => set_start l (pos l)).

(** [ignore] skips over the pending input before this point. *)
Definition ignore : M unit := modify (fun l => set_start l (pos l)).

(** [advance] drops the next rune. *)
Definition advance : M unit := next;; ignore.

Definition quoteContext : M string :=
  do l <- get;
  let start := pos l - 6 in
  let start := if start <? 0 then 0 else start in
  let end_ := pos l + 6 in
  let end_ := if len (input l) <=? end_ then len (input l) - 1 else end_ in
  do before <- lift_slice (slice (input l) start (pos l));
  do after <- lift_slice (slice (input l) (pos l) end_);
  ret (before +:+ "|" +:+ after).

Definition QuoteErrorContext (message : string) : M string :=
  do l <- get;
  do ctx <- quoteContext;
  ret (message +:+ ", position " +:+ pretty (pos l) +:+ ", " +:+ fmt_q ctx).

(** The loops of the scanner take a bound on their number of iterations;
    [bound l] is never reached (see [run_terminates]). *)
Definition bound (l : lexer) : nat := S (String.length (input l)).

Fixpoint accept_loop (P : Z -> bool) (n : nat) : M unit :=
  match n with
  | O => out_of_fuel
  | S n' => do r <- next; if P r then accept_loop P n' else ret tt
  end.

(** [acceptAlphaRun] consumes a run of alphabeticals. *)
Definition acceptAlphaRun : M unit :=
  do l <- get; accept_loop isAlpha (bound l);; backup.

(** [acceptPropertyValueRun] consumes a run of property value characters. *)
Definition acceptPropertyValueRun : M unit :=
  do l <- get; accept_loop isPropertyValueChar (bound l);; backup.

(** [errorf] sends an error token and terminates the scan: the next state
    is [nil].  The message is the caller's format already applied to its
    operands. *)
Definition errorf (msg : string) : M (option stateFn) :=
  do l <- get;
  modify (fun l => send l (mkItem itemError (start l) msg));;
  ret None.

Fixpoint lexBegin_loop (n : nat) : M (option stateFn) :=
  match n with
  | O => out_of_fuel
  | S n' =>
    do l <- get;
    do s <- lift_slice (slice_from (input l) (pos l));
    if HasPrefix1 s "("%char then ret (Some fnLeftParen)
    else
      do r <- next;
      if r =? eof then emit itemEOF;; ret None
      else lexBegin_loop n'
  end.

(** [lexBegin] scans until an opening left parenthesis. *)
Definition lexBegin : M (option stateFn) :=
  do l <- get; lexBegin_loop (bound l).

Definition lexLeftParen : M (option stateFn) :=
  modify (fun l => set_pos l (pos l + 1));;
  emit itemLeftParen;;
  do r <- peek;
  if negb (r =? 59) then
    do m <- QuoteErrorContext "semi-colon expected here";
    errorf (Sprintf0 m)
  else ret (Some fnSemiColon).

Definition lexRightParen : M (option stateFn) :=
  modify (fun l => set_pos l (pos l + 1));;
  emit itemRightParen;;
  do r1 <- peek;
  if r1 =? 40 then ret (Some fnLeftParen) else
  do r2 <- peek;
  if isAlpha r2 then ret (Some fnPropertyName) else
  do r3 <- peek;
  if r3 =? 41 then ret (Some fnRightParen) else
  do r4 <- peek;
  if r4 =? 59 then ret (Some fnSemiColon) else
  emit itemEOF;; ret None.

Definition lexSemiColon : M (option stateFn) :=
  modify (fun l => set_pos l (pos l + 1));;
  emit itemSemiColon;;
  do r <- peek;
  (if r =? 59 then advance else ret tt);;
  do r' <- peek;
  if negb (isAlpha r') then
    do m <- QuoteErrorContext "property expected here";
    errorf (Sprintf0 m)
  else ret (Some fnPropertyName).

Definition lexPropertyName : M (option stateFn) :=
  acceptAlphaRun;;
  emit itemPropertyName;;
  do r <- peek;
  if negb (r =? 91) then
    do m <- QuoteErrorContext "left bracket '[' expected here";
    errorf (Sprintf0 m)
  else ret (Some fnLeftBracket).

Fixpoint skip_whitespace (n : nat) : M unit :=
  match n with
  | O => out_of_fuel
  | S n' =>
    do r <- peek;
    if isWhiteSpace r then next;; skip_whitespace n' else ret tt
  end.

Definition lexLeftBracket : M (option stateFn) :=
  advance;;
  acceptPropertyValueRun;;
  emit itemPropertyValue;;
  do r <- peek;
  if negb (r =? 93) then
    do l <- get;
    errorf ("right bracket ']' expected here (position: " +:+ pretty (pos l) +:+ ")")
  else
  advance;;
  (do l <- get; skip_whitespace (bound l));;
  do r <- peek;
  if r =? 91 then ret (Some fnLeftBracket) else
  if r =? 59 then ret (Some fnSemiColon) else
  if r =? 40 then ret (Some fnLeftParen) else
  if r =? 41 then ret (Some fnRightParen) else
  do r' <- peek;
  if isAlpha r' then ret (Some fnPropertyName) else
  do l <- get;
  do r'' <- peek;
  errorf ("property or node or parenthesis expected here (position: "
          +:+ pretty (pos l) +:+ "). Found: " +:+ fmt_q_rune r'').

(** The state function named by [f]. *)
Definition call (f : stateFn) : M (option stateFn) :=
  match f with
  | fnBegin => lexBegin
  | fnLeftParen => lexLeftParen
  | fnRightParen => lexRightParen
  | fnSemiColon => lexSemiColon
  | fnPropertyName => lexPropertyName
  | fnLeftBracket => lexLeftBracket
  end.

(** [run] runs the state machine for the lexer, for at most [fuel] state
    functions. *)
Fixpoint run_from (fuel : nat) (state : option stateFn) : M unit :=
  match state with
  | None => ret tt
  | Some f =>
    match fuel with
    | O => out_of_fuel
    | S fuel' => do state' <- call f; run_from fuel' state'
    end
  end.

Definition run (fuel : nat) : M unit := run_from fuel (Some fnBegin).

Definition new_lexer (input : string) : lexer :=
  mkLexer (strip_newlines input) 0 0 0 [].

(** [lex] creates a new scanner for the input string and runs it. *)
Definition lex (input : string) : res unit :=
  let l := new_lexer input in run (S (bound l)) l.

End Scanner.
End Lexer.

(** ** [parse.go]: the game record and the tree builder *)

Module Parser.

Import Lexer(item, itemType, typ, val, ipos, items).
Import Lexer(itemEOF, itemError, itemLeftParen, itemRightParen, itemSemiColon,
             itemLeftBracket, itemRightBracket, itemPropertyName, itemPropertyValue).

(** A [*Node] is [None] (nil) or the address of a cell of the heap. *)
Abbreviation addr := nat (only parsing).

Record Property : Set := mkProperty { name : string; value : string }.

Record Node : Set := mkNode {
  point : Property;
  properties : list Property;
  variations : list addr;
  next : option addr
}.

(** The heap of [Node]s: a cell per [new(Node)], in the order of allocation. *)
Abbreviation Heap := (list Node) (only parsing).

Definition zeroProperty : Property := mkProperty "" "".
Definition zeroNode : Node := mkNode zeroProperty [] [] None.

(** [new(Node)] *)
Definition new (h : Heap) : Heap * addr := (h ++ [zeroNode], length h).

(** [(node *Node).AddProperty]; [None] is the nil pointer dereference. *)
Definition Node_AddProperty (h : Heap) (node : option addr) (prop : Property)
  : option Heap :=
  a ← node;
  n ← h !! a;
  if bool_decide (name prop = "B") || bool_decide (name prop = "W")
  then Some (<[a := mkNode prop (properties n) (variations n) (next n)]> h)
  else Some (<[a := mkNode (point n) (properties n ++ [prop]) (variations n) (next n)]> h).

(** [(node *Node).NewNode] *)
Definition NewNode (h : Heap) (node : option addr) : option (Heap * addr) :=
  a ← node;
  n ← h !! a;
  let '(h1, b) := new h in
  Some (<[a := mkNode (point n) (properties n) (variations n) (Some b)]> h1, b).

(** [(n *Node).NewVariation].  The receiver was allocated before the call:
    its cell is read in the heap as it was before [new(Node)]. *)
Definition NewVariation (h : Heap) (n : option addr) : option (Heap * addr) :=
  let '(h1, node) := new h in
  a ← n;
  c ← h !! a;
  Some (<[a := mkNode (point c) (properties c) (variations c ++ [node]) (next c)]> h1,
        node).

(** [SGFGame]; an [error] is modelled by its message.  The receiver's
    [gameInfo] is an allocated map. *)
Record SGFGame : Type := mkSGFGame {
  gameInfo : gmap string string;
  gameTree : option addr;
  errors : list string
}.

Definition emptyGame : SGFGame := mkSGFGame ∅ None [].

(** [(sgf *SGFGame).AddError] *)
Definition AddError (sgf : SGFGame) (msg : string) : SGFGame :=
  mkSGFGame (gameInfo sgf) (gameTree sgf) (errors sgf ++ [msg]).

(** Modelled from the spec: the type [Stack] is not among the sources.  It
    is "a generic LIFO stack with push/pop/peek-or-default-on-empty
    semantics": [Pop] on the empty stack answers nil ([None]). *)
Abbreviation Stack := (list (option addr)) (only parsing).
Definition Push (s : Stack) (x : option addr) : Stack := x :: s.
Definition Pop (s : Stack) : option (option addr) * Stack :=
  match s with
  | [] => (None, [])
  | x :: s' => (Some x, s')
  end.

(** The variables of [Parse], with the heap and the receiver. *)
Record state : Type := mkState {
  heap : Heap;
  sgf : SGFGame;
  currentNode : option addr;
  prop : Property;
  parsingSetup : bool;
  parsingGame : bool;
  nodeStack : Stack
}.

(** What one turn of the loop of [Parse] does. *)
Inductive turn : Type :=
| Continue (s : state)
| Break (s : state)
| NilDereference.

Section Builder.
Context {G : GoLib}.

(** [(gi *GameInfo).AddProperty] *)
Definition GameInfo_AddProperty (gi : gmap string string) (prop : Property)
  : gmap string string :=
  <[ToUpper (name prop) := value prop]> gi.

(** [(gi *GameInfo).GetProperty] *)
Definition GetProperty (gi : gmap string string) (name : string) : option string :=
  gi !! ToUpper name.

Definition continue (o : option state) : turn :=
  match o with Some s => Continue s | None => NilDereference end.

(** The body of the [switch] of [Parse], for the item [i]. *)
Definition on_item (s : state) (i : item) : turn :=
  match typ i with
  | itemLeftParen =>
    if parsingGame s then
      let stack := Push (nodeStack s) (currentNode s) in
      continue ('(h, node) ← NewVariation (heap s) (currentNode s);
                Some (mkState h (sgf s) (Some node) (prop s)
                              (parsingSetup s) (parsingGame s) stack))
    else Continue s
  | itemRightParen =>
    if parsingGame s then
      let '(node, stack) := Pop (nodeStack s) in
      match node with
      | Some p => Continue (mkState (heap s) (sgf s) p (prop s)
                                    (parsingSetup s) (parsingGame s) stack)
      | None => Continue (mkState (heap s) (sgf s) (currentNode s) (prop s)
                                  (parsingSetup s) (parsingGame s) stack)
      end
    else Continue s
  | itemSemiColon =>
    if negb (parsingSetup s) && negb (parsingGame s) then
      Continue (mkState (heap s) (sgf s) (currentNode s) (prop s)
                        true (parsingGame s) (nodeStack s))
    else if negb (parsingGame s) then
      let '(h, root) := new (heap s) in
      Continue (mkState h (mkSGFGame (gameInfo (sgf s)) (Some root) (errors (sgf s)))
                        (Some root) (prop s) false true (nodeStack s))
    else
      continue ('(h, node) ← NewNode (heap s) (currentNode s);
                Some (mkState h (sgf s) (Some node) (prop s)
                              (parsingSetup s) (parsingGame s) (nodeStack s)))
  | itemPropertyName =>
    Continue (mkState (heap s) (sgf s) (currentNode s) (mkProperty (val i) "")
                      (parsingSetup s) (parsingGame s) (nodeStack s))
  | itemPropertyValue =>
    let prop := mkProperty (name (prop s)) (val i) in
    if parsingSetup s then
      Continue (mkState (heap s)
                        (mkSGFGame (GameInfo_AddProperty (gameInfo (sgf s)) prop)
                                   (gameTree (sgf s)) (errors (sgf s)))
                        (currentNode s) prop
                        (parsingSetup s) (parsingGame s) (nodeStack s))
    else
      continue (h ← Node_AddProperty (heap s) (currentNode s) prop;
                Some (mkState h (sgf s) (currentNode s) prop
                              (parsingSetup s) (parsingGame s) (nodeStack s)))
  | itemError =>
    Break (mkState (heap s) (AddError (sgf s) (val i)) (currentNode s) (prop s)
                   (parsingSetup s) (parsingGame s) (nodeStack s))
  | itemEOF => Break s
  | itemLeftBracket | itemRightBracket => Continue s
  end.

(** How the loop of [Parse] ends on the items it is handed, in order. *)
Inductive ending : Type :=
| Broke (s : state)          (* [break Loop] *)
| Dereferenced               (* a nil pointer was dereferenced *)
| Waiting (s : state).       (* every item was consumed; [nextItem] waits *)

Fixpoint Loop (s : state) (toks : list item) : ending :=
  match toks with
  | [] => Waiting s
  | i :: rest =>
    match on_item s i with
    | Continue s' => Loop s' rest
    | Break s' => Broke s'
    | NilDereference => Dereferenced
    end
  end.

Definition start (h : Heap) (sgf : SGFGame) : state :=
  mkState h sgf None zeroProperty false false [].

(** The outcome of a call of [Parse]. *)
Inductive outcome : Type :=
| Returns (h : Heap) (sgf : SGFGame)
| Panics
| NoAnswer.

(** [(sgf *SGFGame).Parse].  The scanner runs beside the loop and hands it
    one item at a time.  It stops after a terminal item, so a panic of the
    scanner comes while the loop waits for the next item, and ends the
    program. *)
Definition Parse (h : Heap) (sgf0 : SGFGame) (input : string) : outcome :=
  match Lexer.lex input with
  | Lexer.Ok _ l =>
    match Loop (start h sgf0) (items l) with
    | Broke s => Returns (heap s) (sgf s)
    | Dereferenced => Panics
    | Waiting _ => NoAnswer
    end
  | Lexer.Panic _ => Panics
  | Lexer.Fuel _ => NoAnswer
  end.

End Builder.

(** [(sgf *SGFGame).NodeCount].  The loop follows [next] for at most [fuel]
    nodes; [None] when the bound runs out or a pointer leaves the heap. *)
Fixpoint NodeCount_loop (fuel : nat) (h : Heap) (node : option addr) (count : Z)
  : option Z :=
  match node with
  | None => Some count
  | Some a =>
    match fuel with
    | O => None
    | S fuel' => n ← h !! a; NodeCount_loop fuel' h (next n) (count + 1)
    end
  end.

Definition NodeCount (h : Heap) (sgf : SGFGame) : option Z :=
  NodeCount_loop (length h) h (gameTree sgf) 0.

(** The loop of [NthNode]: [k] times [node = node.next]. *)
Fixpoint advance (k : nat) (h : Heap) (node : option addr) : option (option addr) :=
  match k with
  | O => Some node
  | S k' => a ← node; n ← h !! a; advance k' h (next n)
  end.

(** [(sgf *SGFGame).NthNode]: the pair [(node, err)] the method returns,
    or [None] when it does not return. *)
Definition NthNode (h : Heap) (sgf : SGFGame) (n : Z)
  : option (option addr * option string) :=
  if n <? 1 then Some (None, Some "n less than 1") else
  nodeCount ← NodeCount h sgf;
  if nodeCount <? n then
    Some (None, Some ("n greater than node count (" +:+ pretty nodeCount +:+ ")"))
  else
    node ← advance (Z.to_nat (n - 1)) h (gameTree sgf);
    Some (node, None).

End Parser.

(** ** Facts about the scanner *)

Module LexerFacts.
Import Lexer.

Lemma len_nonneg s : 0 <= len s.
Proof. unfold len; lia. Qed.

Lemma len_String c s : len (String c s) = 1 + len s.
Proof. unfold len; simpl; lia. Qed.

Lemma length_drop n s : String.length (drop n s) = (String.length s - n)%nat.
Proof. revert s; induction n; intros [|c s]; simpl; auto; lia. Qed.

Lemma length_take n s : String.length (take n s) = Nat.min n (String.length s).
Proof. revert s; induction n; intros [|c s]; simpl; auto. Qed.

Lemma len_drop n s : (n <= String.length s)%nat -> len (drop n s) = len s - Z.of_nat n.
Proof. intros; unfold len; rewrite length_drop; lia. Qed.

Lemma byte_range c : 0 <= byte c < 256.
Proof.
  unfold byte. pose proof (N_ascii_bounded c). lia.
Qed.

Lemma decode_width s r w :
  utf8.DecodeRuneInString s = (r, w) -> s <> "" -> 1 <= w <= len s.
Proof.
  destruct s as [|c0 t0]; [congruence|]. intros H _. revert H.
  unfold utf8.DecodeRuneInString.
  repeat match goal with
  | |- context [if ?b then _ else _] => destruct b eqn:?
  | |- context [match ?x with _ => _ end] => destruct x eqn:?
  | |- (_, _) = (_, _) -> _ => intros [= <- <-]
  end; subst; unfold len in *; simpl String.length in *; lia.
Qed.

(** monad equations *)
Section Facts.
Context {G : GoLib}.

Definition wp {A} (m : M A) (Q : A -> lexer -> Prop) (E : lexer -> Prop) (l : lexer) : Prop :=
  match m l with Ok a l' => Q a l' | Panic l' => E l' | Fuel _ => False end.

Lemma wp_ret {A} (a : A) Q E l : Q a l -> wp (ret a) Q E l.
Proof. done. Qed.

Lemma wp_bind {A B} (m : M A) (f : A -> M B) Q E l :
  wp m (fun a l' => wp (f a) Q E l') E l -> wp (bind m f) Q E l.
Proof. unfold wp, bind. destruct (m l); auto. Qed.

Lemma wp_get Q E l : Q l l -> wp get Q E l.
Proof. done. Qed.

Lemma wp_modify f Q E l : Q tt (f l) -> wp (modify f) Q E l.
Proof. done. Qed.

Lemma wp_mono {A} (m : M A) (Q Q' : A -> lexer -> Prop) (E E' : lexer -> Prop) l :
  wp m Q E l -> (forall a l', Q a l' -> Q' a l') -> (forall l', E l' -> E' l') ->
  wp m Q' E' l.
Proof. unfold wp. destruct (m l); auto. Qed.

Lemma wp_eq {A} (m : M A) Q E l a l' : m l = Ok a l' -> Q a l' -> wp m Q E l.
Proof. unfold wp. by intros ->. Qed.

Definition wf (l : lexer) : Prop := 0 <= start l <= pos l /\ pos l <= len (input l).

(** the rune at byte offset [p] of [s] and its width: what [next] reads *)
Definition rune_at (s : string) (p : Z) : Z * Z :=
  if len s <=? p then (eof, 0) else utf8.DecodeRuneInString (drop (Z.to_nat p) s).

Lemma slice_ok s lo hi :
  0 <= lo <= hi -> hi <= len s ->
  slice s lo hi = Some (take (Z.to_nat (hi - lo)) (drop (Z.to_nat lo) s)).
Proof.
  intros. unfold slice.
  destruct (0 <=? lo) eqn:?, (lo <=? hi) eqn:?, (hi <=? len s) eqn:?; simpl; auto; lia.
Qed.

Lemma slice_bad s lo hi : hi < lo -> slice s lo hi = None.
Proof.
  intros. unfold slice.
  destruct (0 <=? lo) eqn:?, (lo <=? hi) eqn:?, (hi <=? len s) eqn:?; simpl; auto; lia.
Qed.

Lemma take_all n s : (String.length s <= n)%nat -> take n s = s.
Proof. revert s; induction n; intros [|c s]; simpl; intros; auto; try lia. f_equal. apply IHn. lia. Qed.

Lemma slice_from_ok s lo : 0 <= lo <= len s -> slice_from s lo = Some (drop (Z.to_nat lo) s).
Proof.
  intros. unfold slice_from. rewrite slice_ok by lia. f_equal.
  apply take_all. rewrite length_drop. unfold len in *. lia.
Qed.

Lemma rune_at_width s p r w :
  0 <= p <= len s -> rune_at s p = (r, w) ->
  0 <= w /\ p + w <= len s /\ (w = 0 -> r = eof /\ p = len s) /\ (p < len s -> 1 <= w).
Proof.
  unfold rune_at. intros Hp. destruct (len s <=? p) eqn:E.
  - intros [= <- <-]. lia.
  - intros H. apply decode_width in H.
    + rewrite len_drop in H by (unfold len in *; lia). lia.
    + intros Hd. apply (f_equal String.length) in Hd. rewrite length_drop in Hd.
      simpl in Hd. unfold len in *. lia.
Qed.

Lemma next_eq l :
  0 <= pos l <= len (input l) ->
  next l = Ok (rune_at (input l) (pos l)).1
              (mkLexer (input l) (pos l + (rune_at (input l) (pos l)).2) (start l)
                       (rune_at (input l) (pos l)).2 (items l)).
Proof.
  intros H. unfold next, rune_at, bind, get.
  destruct (len (input l) <=? pos l) eqn:E.
  - simpl. unfold set_width. f_equal. f_equal. lia.
  - rewrite slice_from_ok by lia. simpl.
    destruct (utf8.DecodeRuneInString _) as [r w]. reflexivity.
Qed.

Lemma peek_eq l :
  0 <= pos l <= len (input l) ->
  peek l = Ok (rune_at (input l) (pos l)).1 (set_width l (rune_at (input l) (pos l)).2).
Proof.
  intros H. unfold peek, bind. rewrite next_eq by done. simpl.
  unfold set_width, set_pos, ret; simpl. do 2 f_equal. lia.
Qed.

Definition emitted_item (t : itemType) (l : lexer) : item :=
  let v := take (Z.to_nat (pos l - start l)) (drop (Z.to_nat (start l)) (input l)) in
  mkItem t (start l) (if bool_decide (t = itemPropertyName) then ToUpper v else v).

Lemma emit_eq t l :
  wf l ->
  emit t l = Ok tt (mkLexer (input l) (pos l) (pos l) (width l) (items l ++ [emitted_item t l])).
Proof.
  intros [H1 H2]. unfold emit, bind, get. rewrite slice_ok by lia. simpl.
  unfold modify, send, set_start, emitted_item. simpl.
  destruct (bool_decide (t = itemPropertyName)); reflexivity.
Qed.

Lemma emit_panic t l :
  0 <= start l <= pos l -> len (input l) < pos l -> emit t l = Panic l.
Proof.
  intros H1 H2. unfold emit, bind, get, slice.
  destruct (0 <=? start l) eqn:?, (start l <=? pos l) eqn:?, (pos l <=? len (input l)) eqn:?; simpl; auto; lia.
Qed.

Definition context_of (s : string) (p : Z) : string :=
  take (Z.to_nat (p - Z.max 0 (p - 6))) (drop (Z.to_nat (Z.max 0 (p - 6))) s)
  +:+ "|" +:+
  take (Z.to_nat (Z.min (p + 6) (len s - 1) - p)) (drop (Z.to_nat p) s).

Lemma quoteContext_eq l :
  0 <= pos l < len (input l) ->
  quoteContext l = Ok (context_of (input l) (pos l)) l.
Proof.
  intros H. unfold quoteContext, bind, get, context_of.
  destruct (Z.ltb_spec (pos l - 6) 0), (Z.leb_spec (len (input l)) (pos l + 6));
    rewrite !slice_ok by lia;
    rewrite ?Z.max_l, ?Z.max_r, ?Z.min_l, ?Z.min_r by lia; reflexivity.
Qed.

Lemma quoteContext_panic l :
  0 <= pos l -> pos l = len (input l) -> quoteContext l = Panic l.
Proof.
  intros H0 H. unfold quoteContext, bind, get.
  destruct (Z.ltb_spec (pos l - 6) 0), (Z.leb_spec (len (input l)) (pos l + 6)); try lia;
    rewrite slice_ok by lia; simpl; rewrite slice_bad by lia; reflexivity.
Qed.


(** [run_of P s p q]: the runes of [s] from offset [p] up to [q] all satisfy [P]. *)
Inductive run_of (P : Z -> bool) (s : string) : Z -> Z -> Prop :=
| run_nil p : run_of P s p p
| run_cons p q : P (rune_at s p).1 = true -> run_of P s (p + (rune_at s p).2) q ->
                 run_of P s p q.

Lemma run_of_le P s p q : P eof = false -> 0 <= p <= len s -> run_of P s p q -> p <= q <= len s.
Proof.
  intros HP Hp H. induction H; [lia|].
  destruct (rune_at s p) as [r w] eqn:E. simpl in *.
  pose proof (rune_at_width _ _ _ _ Hp E) as (? & ? & Hw & ?).
  assert (w <> 0) by (intros ->; destruct Hw as [-> _]; [done|congruence]).
  lia.
Qed.

Lemma accept_loop_spec P n l :
  P eof = false -> 0 <= pos l <= len (input l) ->
  len (input l) - pos l < Z.of_nat n ->
  exists q,
    accept_loop P n l
    = Ok tt (mkLexer (input l) (q + (rune_at (input l) q).2) (start l)
                     (rune_at (input l) q).2 (items l)) /\
    run_of P (input l) (pos l) q /\ P (rune_at (input l) q).1 = false /\
    pos l <= q <= len (input l).
Proof.
  intros HP. revert l. induction n as [|n IH]; intros l Hp Hn; [lia|].
  simpl. unfold bind. rewrite next_eq by done.
  destruct (rune_at (input l) (pos l)) as [r w] eqn:E. simpl.
  pose proof (rune_at_width _ _ _ _ Hp E) as (? & ? & Hw & ?).
  destruct (P r) eqn:EP.
  - assert (w <> 0) by (intros ->; destruct Hw as [-> _]; [done|congruence]).
    destruct (IH (mkLexer (input l) (pos l + w) (start l) w (items l))) as (q & Hq & Hrun & Hstop & Hle);
      simpl; try lia.
    exists q. simpl in *. split; [exact Hq|]. split; [|split; [done|lia]].
    eapply run_cons; rewrite E; simpl; done.
  - exists (pos l). rewrite E. simpl. split; [done|]. split; [constructor|]. split; [done|lia].
Qed.

Lemma accept_run_eq P l :
  P eof = false -> 0 <= pos l <= len (input l) ->
  exists q,
    (do l0 <- get; accept_loop P (bound l0);; backup) l
    = Ok tt (mkLexer (input l) q (start l) (rune_at (input l) q).2 (items l)) /\
    run_of P (input l) (pos l) q /\ P (rune_at (input l) q).1 = false /\
    pos l <= q <= len (input l).
Proof.
  intros HP Hp. unfold bind at 1. unfold get.
  destruct (accept_loop_spec P (bound l) l HP Hp) as (q & Hq & Hrest).
  { unfold bound, len. lia. }
  exists q. split; [|done]. unfold bind. rewrite Hq. unfold backup, modify, set_pos. simpl.
  do 2 f_equal. lia.
Qed.

Lemma skip_whitespace_spec n l :
  0 <= pos l <= len (input l) ->
  len (input l) - pos l < Z.of_nat n ->
  exists q,
    skip_whitespace n l
    = Ok tt (mkLexer (input l) q (start l) (rune_at (input l) q).2 (items l)) /\
    run_of isWhiteSpace (input l) (pos l) q /\ isWhiteSpace (rune_at (input l) q).1 = false /\
    pos l <= q <= len (input l).
Proof.
  revert l. induction n as [|n IH]; intros l Hp Hn; [lia|].
  simpl. unfold bind. rewrite peek_eq by done.
  destruct (rune_at (input l) (pos l)) as [r w] eqn:E. simpl.
  pose proof (rune_at_width _ _ _ _ Hp E) as (? & ? & Hw & ?).
  destruct (isWhiteSpace r) eqn:EP.
  - rewrite next_eq by done. simpl. rewrite E. simpl.
    assert (w <> 0) by (intros ->; destruct Hw as [-> _]; [done|]; discriminate).
    destruct (IH (mkLexer (input l) (pos l + w) (start l) w (items l))) as (q & Hq & Hrun & Hstop & Hle);
      simpl; try lia.
    exists q. simpl in *. split; [exact Hq|]. split; [|split; [done|lia]].
    eapply run_cons; rewrite E; simpl; done.
  - exists (pos l). unfold ret, set_width. simpl. rewrite E. simpl.
    split; [done|]. split; [constructor|]. split; [done|lia].
Qed.


Definition head (f : stateFn) : list itemType :=
  match f with
  | fnBegin => []
  | fnLeftParen => [itemLeftParen]
  | fnRightParen => [itemRightParen]
  | fnSemiColon => [itemSemiColon]
  | fnPropertyName => [itemPropertyName]
  | fnLeftBracket => [itemPropertyValue]
  end.

Definition succ (f f' : stateFn) : bool :=
  match f, f' with
  | fnBegin, fnLeftParen
  | fnLeftParen, fnSemiColon
  | fnSemiColon, fnPropertyName
  | fnPropertyName, fnLeftBracket
  | fnLeftBracket, (fnLeftBracket | fnSemiColon | fnLeftParen | fnRightParen | fnPropertyName)
  | fnRightParen, (fnLeftParen | fnPropertyName | fnRightParen | fnSemiColon) => true
  | _, _ => false
  end.

Definition entry (f : stateFn) (l : lexer) : Prop :=
  wf l /\ (f <> fnBegin -> pos l < len (input l)) /\
  (f = fnPropertyName -> isAlpha (rune_at (input l) (pos l)).1 = true).

Definition context_messages : list string :=
  ["semi-colon expected here"; "property expected here"; "left bracket '[' expected here"].

Definition context_error (s v : string) : Prop :=
  exists m p, In m context_messages /\ 0 <= p < len s /\
    v = Sprintf0 (m +:+ ", position " +:+ pretty p +:+ ", " +:+ fmt_q (context_of s p)).

Definition bracket_error (s v : string) : Prop :=
  exists p, 0 <= p <= len s /\
    (v = "right bracket ']' expected here (position: " +:+ pretty p +:+ ")" \/
     exists r, v = "property or node or parenthesis expected here (position: "
                   +:+ pretty p +:+ "). Found: " +:+ fmt_q_rune r).

Definition final (f : stateFn) (s : string) (e : item) : Prop :=
  match f with
  | fnBegin | fnRightParen => typ e = itemEOF
  | fnLeftBracket => typ e = itemError /\ bracket_error s (val e)
  | _ => typ e = itemError /\ context_error s (val e)
  end.

Definition post (f : stateFn) (l : lexer) (st : option stateFn) (l' : lexer) : Prop :=
  input l' = input l /\
  match st with
  | Some f' =>
    entry f' l' /\ succ f f' = true /\ pos l <= pos l' /\ (f <> fnBegin -> pos l < pos l') /\
    exists new, items l' = items l ++ new /\ map typ new = head f
  | None =>
    exists new e, items l' = items l ++ new ++ [e] /\ map typ new = head f /\ final f (input l) e
  end.

Definition post_panic (f : stateFn) (l l' : lexer) : Prop :=
  exists new, items l' = items l ++ new /\ map typ new = head f.

Context {L : GoLibLaws G}.

Lemma rune_not_eof s p : (rune_at s p).1 <> eof -> p < len s.
Proof. unfold rune_at. destruct (Z.leb_spec (len s) p); simpl; [done|lia]. Qed.

Lemma isAlpha_not_eof s p : isAlpha (rune_at s p).1 = true -> p < len s.
Proof.
  intros H. apply rune_not_eof. intros E. rewrite E in H. unfold isAlpha in H.
  rewrite IsLetter_eof in H. done.
Qed.

(** An error reported through [QuoteErrorContext]. *)
Lemma context_errorf_spec f m l :
  In m context_messages -> head f <> [] -> f <> fnLeftBracket -> f <> fnRightParen ->
  0 <= pos l <= len (input l) ->
  wp (do m <- QuoteErrorContext m; errorf (Sprintf0 m))
     (fun st l' => st = None /\ input l' = input l /\ exists e, items l' = items l ++ [e] /\ final f (input l) e)
     (fun l' => items l' = items l) l.
Proof.
  intros Hm Hh Hf1 Hf2 Hp. unfold wp, bind, QuoteErrorContext, get. unfold bind.
  destruct (Z.eq_dec (pos l) (len (input l))) as [E|E].
  - rewrite quoteContext_panic by lia. done.
  - rewrite quoteContext_eq by lia. unfold ret, errorf, bind, get, modify, send. simpl.
    split; [done|]. split; [done|]. eexists. split; [done|].
    destruct f; simpl in *; try congruence; (split; [done|]); exists m, (pos l); (split; [done|split; [lia|done]]).
Qed.

Lemma lexLeftParen_spec l :
  entry fnLeftParen l -> wp lexLeftParen (post fnLeftParen l) (post_panic fnLeftParen l) l.
Proof.
  intros ([Hs Hp] & Hlt & _). specialize (Hlt ltac:(done)).
  unfold lexLeftParen. apply wp_bind, wp_modify. apply wp_bind.
  eapply wp_eq; [apply emit_eq; unfold wf, set_pos; simpl; lia|].
  apply wp_bind. eapply wp_eq; [apply peek_eq; simpl; lia|]. simpl.
  set (i := emitted_item _ _).
  destruct (_ =? 59) eqn:E; simpl.
  - apply wp_ret. unfold post. simpl. split; [done|]. split.
    + unfold entry, wf; simpl. split; [lia|]. split; [|done]. intros _.
      apply rune_not_eof. apply Z.eqb_eq in E. rewrite E. done.
    + split; [done|]. split; [lia|]. split; [lia|]. exists [i]. done.
  - eapply wp_mono; [apply (context_errorf_spec fnLeftParen); simpl; [by left|done..|lia] |..].
    + simpl. intros st l' (-> & Hi & e & He & Hf). unfold post. split; [done|].
      exists [i], e. simpl in *. rewrite He. rewrite <- app_assoc. done.
    + simpl. intros l' Hl'. exists [i]. done.
Qed.


Ltac wp_emit :=
  apply wp_bind; eapply wp_eq; [apply emit_eq; unfold wf, set_pos; simpl; lia|].
Ltac wp_peek :=
  apply wp_bind; eapply wp_eq; [apply peek_eq; simpl; lia|]; simpl.
Ltac wp_next :=
  apply wp_bind; eapply wp_eq; [apply next_eq; simpl; lia|]; simpl.

Lemma isPropertyValueChar_eof : isPropertyValueChar eof = false.
Proof. unfold isPropertyValueChar, eof. by rewrite IsPrint_eof. Qed.

Lemma lexSemiColon_spec l :
  entry fnSemiColon l -> wp lexSemiColon (post fnSemiColon l) (post_panic fnSemiColon l) l.
Proof.
  intros ([Hs Hp] & Hlt & _). specialize (Hlt ltac:(done)).
  unfold lexSemiColon. apply wp_bind, wp_modify. wp_emit. wp_peek.
  set (i := emitted_item _ _).
  set (l1 := set_width _ _).
  assert (Hl1 : exists l2, wp (if (rune_at (input l) (pos l + 1)).1 =? 59 then advance else ret tt)
            (fun _ l' => l' = l2) (fun _ => False) l1 /\
            input l2 = input l /\ items l2 = items l ++ [i] /\ pos l < pos l2 <= len (input l)
            /\ 0 <= start l2 <= pos l2).
  { destruct (_ =? 59) eqn:E.
    - eexists. split.
      + unfold advance. wp_next. unfold ignore. apply wp_modify. reflexivity.
      + simpl. destruct (rune_at (input l) (pos l + 1)) as [r w] eqn:Er. simpl.
        apply rune_at_width in Er; [|lia]. repeat split; try done; lia.
    - exists l1. split; [by apply wp_ret|]. simpl. repeat split; try done; lia. }
  destruct Hl1 as (l2 & Hwp & Hin & Hit & Hpos & Hst).
  assert (pos l2 <= len (input l2)) by (rewrite Hin; lia).
  apply wp_bind. eapply wp_mono; [exact Hwp| |done].
  intros _ ? ->. wp_peek. rewrite Hin.
  destruct (isAlpha _) eqn:EA; simpl.
  - apply wp_ret. split; [simpl; done|]. split.
    + unfold entry, wf. simpl. rewrite Hin. split; [lia|]. split; [|done].
      intros _. by apply isAlpha_not_eof.
    + split; [done|]. split; [simpl; lia|]. split; [simpl; lia|]. exists [i]. simpl. done.
  - eapply wp_mono; [apply (context_errorf_spec fnSemiColon); simpl; [right; by left|done..|rewrite Hin; lia] |..].
    + simpl. intros st l' (-> & Hi & e & He & Hf). split; [congruence|].
      exists [i], e. rewrite He, Hit, Hin in *. rewrite <- app_assoc. done.
    + simpl. intros l' Hl'. exists [i]. split; [congruence|done].
Qed.

Lemma lexRightParen_spec l :
  entry fnRightParen l -> wp lexRightParen (post fnRightParen l) (post_panic fnRightParen l) l.
Proof.
  intros ([Hs Hp] & Hlt & _). specialize (Hlt ltac:(done)).
  unfold lexRightParen. apply wp_bind, wp_modify. wp_emit.
  set (i := emitted_item _ _).
  assert (Hne : forall r, (rune_at (input l) (pos l + 1)).1 = r -> r <> eof -> pos l + 1 < len (input l)).
  { intros r <- Hr. by apply rune_not_eof. }
  assert (Hsome : forall f' w, f' <> fnBegin -> succ fnRightParen f' = true ->
            (f' = fnPropertyName -> isAlpha (rune_at (input l) (pos l + 1)).1 = true) ->
            pos l + 1 < len (input l) ->
            post fnRightParen l (Some f')
              (mkLexer (input l) (pos l + 1) (pos l + 1) w (items l ++ [i]))).
  { intros f' w Hf' Hsucc Ha Hlt'. split; [done|]. split.
    - unfold entry, wf; simpl. split; [lia|]. split; [done|]. done.
    - split; [done|]. simpl. split; [lia|]. split; [lia|]. exists [i]. done. }
  wp_peek. destruct (_ =? 40) eqn:E1.
  { apply wp_ret. apply Hsome; try done. apply (Hne 40); [by apply Z.eqb_eq|done]. }
  wp_peek. destruct (isAlpha _) eqn:E2.
  { apply wp_ret. apply Hsome; try done. by apply isAlpha_not_eof. }
  wp_peek. destruct (_ =? 41) eqn:E3.
  { apply wp_ret. apply Hsome; try done. apply (Hne 41); [by apply Z.eqb_eq|done]. }
  wp_peek. destruct (_ =? 59) eqn:E4.
  { apply wp_ret. apply Hsome; try done. apply (Hne 59); [by apply Z.eqb_eq|done]. }
  wp_emit. apply wp_ret. split; [done|]. simpl.
  eexists [i], _. rewrite <- app_assoc. split; [done|]. split; done.
Qed.

Lemma lexPropertyName_spec l :
  entry fnPropertyName l ->
  wp lexPropertyName (post fnPropertyName l) (post_panic fnPropertyName l) l.
Proof.
  intros ([Hs Hp] & Hlt & Ha). specialize (Hlt ltac:(done)). specialize (Ha eq_refl).
  unfold lexPropertyName, acceptAlphaRun.
  destruct (accept_run_eq isAlpha l) as (q & Hq & Hrun & Hstop & Hle); [apply IsLetter_eof|lia|].
  assert (pos l < q).
  { destruct (Z.eq_dec (pos l) q) as [<-|]; [congruence|lia]. }
  apply wp_bind. eapply wp_eq; [exact Hq|]. wp_emit. simpl. wp_peek.
  set (i := emitted_item _ _).
  destruct (_ =? 91) eqn:E; simpl.
  - apply wp_ret. split; [done|]. split.
    + unfold entry, wf; simpl. split; [lia|]. split; [|done]. intros _.
      apply rune_not_eof. apply Z.eqb_eq in E. rewrite E. done.
    + split; [done|]. simpl. split; [lia|]. split; [lia|]. exists [i]. done.
  - eapply wp_mono; [apply (context_errorf_spec fnPropertyName); simpl; [right; right; by left|done..|lia] |..].
    + simpl. intros st l' (-> & Hi & e & He & Hf). split; [done|].
      exists [i], e. rewrite He. rewrite <- app_assoc. done.
    + simpl. intros l' Hl'. exists [i]. done.
Qed.


Lemma lexLeftBracket_spec l :
  entry fnLeftBracket l ->
  wp lexLeftBracket (post fnLeftBracket l) (post_panic fnLeftBracket l) l.
Proof.
  intros ([Hs Hp] & Hlt & _). specialize (Hlt ltac:(done)).
  unfold lexLeftBracket, advance, ignore, acceptPropertyValueRun.
  apply wp_bind. wp_next. apply wp_modify. simpl.
  destruct (rune_at (input l) (pos l)) as [r0 w0] eqn:E0.
  apply rune_at_width in E0; [|lia]. simpl.
  set (l1 := set_start _ _).
  destruct (accept_run_eq isPropertyValueChar l1) as (q & Hq & Hrun & Hstop & Hle);
    [apply isPropertyValueChar_eof|simpl; lia|]. simpl in *.
  apply wp_bind. eapply wp_eq; [exact Hq|]. wp_emit. wp_peek.
  set (i := emitted_item _ _).
  destruct (_ =? 93) eqn:E; simpl.
  2:{ apply wp_bind, wp_get. unfold errorf. apply wp_bind, wp_get. apply wp_bind, wp_modify.
      apply wp_ret. split; [done|]. simpl. eexists [i], _. rewrite <- app_assoc.
      split; [done|]. split; [done|]. split; [done|]. exists q. split; [lia|]. by left. }
  apply wp_bind. wp_next. apply wp_modify. simpl.
  destruct (rune_at (input l) q) as [r1 w1] eqn:E1.
  apply rune_at_width in E1; [|lia]. simpl in *.
  set (l2 := set_start _ _).
  destruct (skip_whitespace_spec (bound l2) l2) as (q2 & Hq2 & _ & _ & Hle2);
    [simpl; lia|unfold bound, len; simpl; lia|]. simpl in *.
  apply wp_bind. apply wp_bind, wp_get. eapply wp_eq; [exact Hq2|].
  wp_peek.
  assert (Hsome : forall f' w, f' <> fnBegin -> succ fnLeftBracket f' = true ->
            (f' = fnPropertyName -> isAlpha (rune_at (input l) q2).1 = true) ->
            (rune_at (input l) q2).1 <> eof ->
            post fnLeftBracket l (Some f')
              (mkLexer (input l) q2 (q + w1) w (items l ++ [i]))).
  { intros f' w Hf' Hsucc Ha Hne. apply rune_not_eof in Hne. split; [done|]. split.
    - unfold entry, wf; simpl. split; [lia|]. split; [done|]. done.
    - split; [done|]. simpl. split; [lia|]. split; [lia|]. exists [i]. done. }
  destruct (_ =? 91) eqn:T1.
  { apply wp_ret. apply Hsome; try done. apply Z.eqb_eq in T1. by rewrite T1. }
  destruct (_ =? 59) eqn:T2.
  { apply wp_ret. apply Hsome; try done. apply Z.eqb_eq in T2. by rewrite T2. }
  destruct (_ =? 40) eqn:T3.
  { apply wp_ret. apply Hsome; try done. apply Z.eqb_eq in T3. by rewrite T3. }
  destruct (_ =? 41) eqn:T4.
  { apply wp_ret. apply Hsome; try done. apply Z.eqb_eq in T4. by rewrite T4. }
  wp_peek. destruct (isAlpha _) eqn:T5.
  { apply wp_ret. apply Hsome; try done. intros Heof. rewrite Heof in T5.
    unfold isAlpha in T5. by rewrite IsLetter_eof in T5. }
  apply wp_bind, wp_get. wp_peek. unfold errorf. apply wp_bind, wp_get. apply wp_bind, wp_modify.
  apply wp_ret. split; [done|]. simpl. eexists [i], _. rewrite <- app_assoc.
  split; [done|]. split; [done|]. split; [done|]. exists q2. split; [lia|]. right. eexists. done.
Qed.

Lemma HasPrefix1_drop n s c : HasPrefix1 (drop n s) c = true -> (n < String.length s)%nat.
Proof.
  intros H. destruct (drop n s) eqn:E; [done|].
  apply (f_equal String.length) in E. rewrite length_drop in E. simpl in E. lia.
Qed.

Lemma lexBegin_loop_spec n l :
  wf l -> len (input l) - pos l < Z.of_nat n ->
  wp (lexBegin_loop n) (post fnBegin l) (fun _ => False) l.
Proof.
  revert l. induction n as [|n IH]; intros l [Hs Hp] Hn; [lia|].
  simpl. apply wp_bind, wp_get. apply wp_bind. rewrite slice_from_ok by lia. apply wp_ret.
  destruct (HasPrefix1 _ _) eqn:EH.
  - apply wp_ret. apply HasPrefix1_drop in EH. split; [done|]. split.
    + unfold entry, wf, len in *. split; [done|]. split; [|done]. intros _. lia.
    + split; [done|]. split; [lia|]. split; [done|]. exists []. by rewrite app_nil_r.
  - wp_next. destruct (rune_at (input l) (pos l)) as [r w] eqn:E.
    pose proof (rune_at_width (input l) (pos l) r w ltac:(lia) E) as (? & ? & Hw & Hw'). simpl.
    destruct (r =? eof) eqn:Er.
    + wp_emit. apply wp_ret. split; [done|]. simpl. eexists [], _. simpl.
      split; [done|]. split; done.
    + assert (pos l < len (input l)).
      { apply rune_not_eof. rewrite E. simpl. by apply Z.eqb_neq. }
      eapply wp_mono; [apply IH; [unfold wf; simpl; lia|simpl; lia]|..]; [|done].
      simpl. intros st l' [Hi Hpost]. split; [done|].
      destruct st as [f'|].
      * destruct Hpost as (He & Hsucc & Hpos & _ & Hnew). simpl in Hpos.
        split; [done|]. split; [done|]. split; [lia|]. split; [done|]. exact Hnew.
      * done.
Qed.

Lemma call_spec f l :
  entry f l -> wp (call f) (post f l) (post_panic f l) l.
Proof.
  intros H. destruct f; simpl.
  - unfold lexBegin. apply wp_bind, wp_get.
    destruct H as [[? ?] _].
    eapply wp_mono; [apply lexBegin_loop_spec; [done|unfold bound, len; lia]|done..].
  - by apply lexLeftParen_spec.
  - by apply lexRightParen_spec.
  - by apply lexSemiColon_spec.
  - by apply lexPropertyName_spec.
  - by apply lexLeftBracket_spec.
Qed.


Definition last_of (f : stateFn) : itemType :=
  match f with
  | fnBegin | fnRightParen => itemEOF
  | _ => itemError
  end.

(** The item types a run of the machine sends from the state [f] on: to
    the end ([true]), or until a panic ([false]). *)
Inductive trace : bool -> stateFn -> list itemType -> Prop :=
| trace_stop f : trace true f (head f ++ [last_of f])
| trace_panic f : trace false f (head f)
| trace_step b f f' ts : succ f f' = true -> trace b f' ts -> trace b f (head f ++ ts).

Definition error_ok (s : string) (e : item) : Prop :=
  typ e = itemError -> context_error s (val e) \/ bracket_error s (val e).

Lemma final_last_of f s e : final f s e -> typ e = last_of f /\ error_ok s e.
Proof.
  unfold error_ok. destruct f; simpl; intros H; try (split; [done|congruence]);
    destruct H as [-> H]; auto.
Qed.

Lemma head_error_ok s new f : map typ new = head f -> Forall (error_ok s) new.
Proof.
  intros H. apply Forall_forall. intros e He.
  assert (In (typ e) (head f)) as Hin.
  { rewrite <- H. apply in_map. by apply list_elem_of_In. }
  intros Ht. rewrite Ht in Hin. destruct f; simpl in Hin; intuition congruence.
Qed.

Definition fuel_for (f : stateFn) (l : lexer) : Z :=
  len (input l) - pos l + (if bool_decide (f = fnBegin) then 1 else 0).

Lemma run_from_None fuel : run_from fuel None = ret tt.
Proof. by destruct fuel. Qed.

Lemma run_from_spec fuel f l :
  entry f l -> fuel_for f l < Z.of_nat fuel ->
  wp (run_from fuel (Some f))
     (fun _ l' => exists new, items l' = items l ++ new /\ trace true f (map typ new)
                              /\ Forall (error_ok (input l)) new)
     (fun l' => exists new, items l' = items l ++ new /\ trace false f (map typ new)
                            /\ Forall (error_ok (input l)) new) l.
Proof.
  revert f l. induction fuel as [|fuel IH]; intros f l He Hf.
  { unfold fuel_for in Hf. destruct He as ([? ?] & ? & ?). case_bool_decide; lia. }
  simpl. apply wp_bind. eapply wp_mono; [by apply call_spec|..].
  - intros [f'|] l' [Hin Hpost].
    + destruct Hpost as (He' & Hsucc & Hle & Hlt & new & Hitems & Htyp).
      eapply wp_mono; [apply IH; [done|]|..].
      * unfold fuel_for in *. rewrite Hin.
        assert (f' <> fnBegin) by (intros ->; by destruct f).
        rewrite (bool_decide_eq_false_2 (f' = fnBegin)) by done.
        case_bool_decide; [lia|]. specialize (Hlt ltac:(done)). lia.
      * simpl. intros _ l'' (new' & Hit' & Htr & Herr). exists (new ++ new').
        rewrite Hit', Hitems, <- app_assoc, map_app, Htyp. split; [done|]. split.
        -- by eapply trace_step.
        -- apply Forall_app. split; [by eapply head_error_ok|]. by rewrite <- Hin.
      * simpl. intros l'' (new' & Hit' & Htr & Herr). exists (new ++ new').
        rewrite Hit', Hitems, <- app_assoc, map_app, Htyp. split; [done|]. split.
        -- by eapply trace_step.
        -- apply Forall_app. split; [by eapply head_error_ok|]. by rewrite <- Hin.
    + destruct Hpost as (new & e & Hitems & Htyp & Hfin). rewrite run_from_None. apply wp_ret.
      apply final_last_of in Hfin as [Hlast Herr].
      exists (new ++ [e]). rewrite map_app, Htyp. simpl. rewrite Hlast.
      split; [done|]. split; [constructor|].
      apply Forall_app. split; [by eapply head_error_ok|]. by constructor.
  - intros l' (new & Hitems & Htyp). exists new. rewrite Htyp.
    split; [done|]. split; [constructor|]. by eapply head_error_ok.
Qed.

Lemma lex_spec (input : string) :
  match lex input with
  | Ok _ l => trace true fnBegin (map typ (items l))
              /\ Forall (error_ok (strip_newlines input)) (items l)
  | Panic l => trace false fnBegin (map typ (items l))
               /\ Forall (error_ok (strip_newlines input)) (items l)
  | Fuel _ => False
  end.
Proof.
  unfold lex, run.
  pose proof (run_from_spec (S (bound (new_lexer input))) fnBegin (new_lexer input)) as H.
  unfold wp in H. destruct (run_from _ _ _).
  - destruct H as (new & Hit & Htr & Herr).
    + unfold entry, wf, new_lexer. simpl. pose proof (len_nonneg (strip_newlines input)).
      split; [lia|]. split; done.
    + unfold fuel_for, bound, new_lexer, len. simpl. lia.
    + simpl in Hit. subst. done.
  - destruct H as (new & Hit & Htr & Herr).
    + unfold entry, wf, new_lexer. simpl. pose proof (len_nonneg (strip_newlines input)).
      split; [lia|]. split; done.
    + unfold fuel_for, bound, new_lexer, len. simpl. lia.
    + simpl in Hit. subst. done.
  - apply H.
    + unfold entry, wf, new_lexer. simpl. pose proof (len_nonneg (strip_newlines input)).
      split; [lia|]. split; done.
    + unfold fuel_for, bound, new_lexer, len. simpl. lia.
Qed.

End Facts.

End LexerFacts.

(** ** Facts about the item types of a run *)

Module TraceFacts.
Import Lexer LexerFacts.

Definition terminal (t : itemType) : bool :=
  match t with itemEOF | itemError => true | _ => false end.

(** No [itemPropertyValue] comes before the first [itemSemiColon]. *)
Fixpoint guarded (ts : list itemType) : bool :=
  match ts with
  | [] => true
  | itemSemiColon :: _ => true
  | itemPropertyValue :: _ => false
  | _ :: r => guarded r
  end.

Lemma head_nonterminal f : forallb (fun t => negb (terminal t)) (head f) = true.
Proof. by destruct f. Qed.

Lemma last_of_terminal f : terminal (last_of f) = true.
Proof. by destruct f. Qed.

Lemma trace_finished f ts :
  trace true f ts ->
  exists body t, ts = body ++ [t] /\ terminal t = true /\
                 forallb (fun t => negb (terminal t)) body = true.
Proof.
  intros H. remember true as b eqn:Hb. induction H; try discriminate.
  - exists (head f), (last_of f). split; [done|]. split; [apply last_of_terminal|apply head_nonterminal].
  - destruct (IHtrace Hb) as (body & t & -> & Ht & Hbody).
    exists (head f ++ body), t. rewrite app_assoc. split; [done|]. split; [done|].
    rewrite forallb_app, head_nonterminal. done.
Qed.

Lemma trace_panicked f ts :
  trace false f ts -> forallb (fun t => negb (terminal t)) ts = true.
Proof.
  intros H. remember false as b eqn:Hb. induction H; try discriminate.
  - apply head_nonterminal.
  - rewrite forallb_app, head_nonterminal. simpl. auto.
Qed.

Lemma trace_head b f ts : trace b f ts -> exists r, ts = head f ++ r.
Proof. intros H. inversion H; subst; eauto. exists []. by rewrite app_nil_r. Qed.

Lemma trace_guarded b ts : trace b fnBegin ts -> guarded ts = true.
Proof.
  intros H. inversion H as [| |? ? f1 ts1 Hs1 H1]; subst; try done.
  destruct f1; try discriminate. simpl.
  inversion H1 as [| |? ? f2 ts2 Hs2 H2]; subst; try done.
  destruct f2; try discriminate.
  apply trace_head in H2 as [r ->]. done.
Qed.

End TraceFacts.

(** ** Facts about the tree builder *)

Module ParserFacts.
Import Lexer(item, itemType, typ, val, ipos, items).
Import Lexer(itemEOF, itemError, itemLeftParen, itemRightParen, itemSemiColon,
             itemLeftBracket, itemRightBracket, itemPropertyName, itemPropertyValue).
Import Parser TraceFacts.

Definition valid (h : Heap) (p : option addr) : Prop :=
  exists a, p = Some a /\ (a < length h)%nat.

Definition idle (s : state) : Prop := parsingSetup s = false /\ parsingGame s = false.

(** The invariant of the loop of [Parse]. *)
Definition inv (s : state) : Prop :=
  (parsingGame s = true -> valid (heap s) (currentNode s)) /\
  Forall (valid (heap s)) (nodeStack s).

Lemma valid_mono h h' p : (length h <= length h')%nat -> valid h p -> valid h' p.
Proof. intros Hle (a & -> & Ha). exists a. split; [done|lia]. Qed.

Lemma Forall_valid_mono h h' st :
  (length h <= length h')%nat -> Forall (valid h) st -> Forall (valid h') st.
Proof.
  intros Hle H. eapply Forall_impl; [exact H|]. intros p. by apply valid_mono.
Qed.

Section Facts.
Context {G : GoLib}.

Lemma Node_AddProperty_valid h p prop :
  valid h p -> exists h', Node_AddProperty h p prop = Some h' /\ length h' = length h.
Proof.
  intros (a & -> & Ha). unfold Node_AddProperty. simpl.
  destruct (lookup_lt_is_Some_2 h a Ha) as [n Hn]. rewrite Hn. simpl.
  destruct (_ || _); eexists; (split; [done|]); by rewrite length_insert.
Qed.

Lemma NewNode_valid h p :
  valid h p -> exists h', NewNode h p = Some (h', length h) /\ length h' = S (length h).
Proof.
  intros (a & -> & Ha). unfold NewNode, new. simpl.
  destruct (lookup_lt_is_Some_2 h a Ha) as [n Hn]. rewrite Hn. simpl.
  eexists. split; [done|]. rewrite length_insert, length_app. simpl. lia.
Qed.

Lemma NewVariation_valid h p :
  valid h p -> exists h', NewVariation h p = Some (h', length h) /\ length h' = S (length h).
Proof.
  intros (a & -> & Ha). unfold NewVariation, new. simpl.
  destruct (lookup_lt_is_Some_2 h a Ha) as [n Hn]. rewrite Hn. simpl.
  eexists. split; [done|]. rewrite length_insert, length_app. simpl. lia.
Qed.

(** One turn of the loop keeps the invariant, and dereferences nil only
    when a property value arrives before any semicolon. *)
Lemma on_item_inv s i :
  inv s -> (idle s -> typ i <> itemPropertyValue) ->
  match on_item s i with
  | Continue s' =>
    inv s' /\ (length (heap s) <= length (heap s'))%nat /\
    errors (sgf s') = errors (sgf s) /\
    (idle s' -> idle s /\ typ i <> itemSemiColon) /\ terminal (typ i) = false
  | Break s' =>
    heap s' = heap s /\ gameInfo (sgf s') = gameInfo (sgf s) /\
    gameTree (sgf s') = gameTree (sgf s) /\ terminal (typ i) = true /\
    errors (sgf s') = errors (sgf s) ++ (if bool_decide (typ i = itemError) then [val i] else [])
  | NilDereference => False
  end.
Proof.
  intros [Hcur Hstack] Hidle. unfold on_item, idle, inv in *.
  assert (Hgrow : forall h', (length (heap s) <= length h')%nat ->
            Forall (valid h') (nodeStack s)).
  { intros h' Hle. by apply Forall_valid_mono with (heap s). }
  destruct (typ i) eqn:Ht; simpl;
    destruct (parsingSetup s) eqn:Ep, (parsingGame s) eqn:Eg; simpl;
    try (rewrite app_nil_r);
    try (destruct (NewVariation_valid _ _ (Hcur eq_refl)) as (h' & -> & Hlen); simpl);
    try (destruct (NewNode_valid _ _ (Hcur eq_refl)) as (h' & -> & Hlen); simpl);
    try (destruct (Node_AddProperty_valid (heap s) (currentNode s)
                    (mkProperty (name (prop s)) (val i)) (Hcur eq_refl)) as (h' & -> & Hlen); simpl);
    try (destruct (nodeStack s) as [|p st] eqn:Es; simpl; [|inversion Hstack; subst]);
    unfold new; simpl; rewrite ?length_app; simpl;
    try (exfalso; by apply Hidle);
    repeat split; simpl; try done; try lia; try congruence; auto;
    try (intros _; eexists; split; [done|rewrite ?length_app; simpl; lia]);
    try (apply Hgrow; rewrite ?length_app; simpl; lia);
    try (constructor; [|apply Hgrow; lia]);
    try (eapply valid_mono; [|eauto]; lia);
    try match goal with H : _ /\ _ |- _ => destruct H; congruence end;
    try (intros _; eapply valid_mono; [|apply Hcur; done]; lia).
Qed.

Lemma Loop_app s a b :
  Loop s (a ++ b) = match Loop s a with Waiting s1 => Loop s1 b | r => r end.
Proof.
  revert s. induction a as [|i a IH]; intros s; simpl; [done|].
  destruct (on_item s i); auto.
Qed.

Lemma guarded_tail t r :
  guarded (t :: r) = true -> t <> itemSemiColon -> guarded r = true.
Proof. destruct t; simpl; congruence. Qed.

Lemma guarded_not_value t r : guarded (t :: r) = true -> t <> itemPropertyValue.
Proof. destruct t; simpl; congruence. Qed.

(** Items that are no terminal are all consumed, with no nil dereference
    when no property value comes before the first semicolon. *)
Lemma Loop_nonterminal s its :
  inv s -> (idle s -> guarded (map typ its) = true) ->
  forallb (fun t => negb (terminal t)) (map typ its) = true ->
  exists s', Loop s its = Waiting s' /\ inv s' /\ errors (sgf s') = errors (sgf s).
Proof.
  revert s. induction its as [|i its IH]; intros s Hinv Hg Hnt.
  { by exists s. }
  cbn [map forallb] in Hnt. cbn [map] in Hg. cbn [Loop].
  apply andb_prop in Hnt as [Hi Hnt].
  pose proof (on_item_inv s i Hinv) as H.
  destruct (on_item s i) as [s1|s1|].
  - destruct H as (Hinv1 & _ & Herr & Hidle & _).
    { intros Hs. by eapply guarded_not_value, Hg. }
    destruct (IH s1) as (s' & HL & Hinv' & Herr'); try done.
    + intros Hs1. destruct (Hidle Hs1) as [Hs Hne]. eapply guarded_tail; eauto.
    + exists s'. split; [done|]. split; [done|]. congruence.
  - destruct H as (_ & _ & _ & Ht & _).
    { intros Hs. by eapply guarded_not_value, Hg. }
    rewrite Ht in Hi. done.
  - exfalso. apply H. intros Hs. by eapply guarded_not_value, Hg.
Qed.

Lemma start_inv h g : inv (start h g) /\ idle (start h g).
Proof. split; [split; simpl; [done|constructor]|done]. Qed.

(** *** The shape of the heap *)

(** Pointers go to cells allocated later: the heap holds no cycle. *)
Definition node_ok (h : Heap) (a : addr) (n : Node) : Prop :=
  (forall b, next n = Some b -> (a < b < length h)%nat) /\
  Forall (fun b => (a < b < length h)%nat) (variations n).

Definition wf_heap (h : Heap) : Prop :=
  forall a n, h !! a = Some n -> node_ok h a n.

Definition game_ok (h : Heap) (g : SGFGame) : Prop :=
  forall r, gameTree g = Some r -> (r < length h)%nat.

Lemma node_ok_mono h h' a n :
  (length h <= length h')%nat -> node_ok h a n -> node_ok h' a n.
Proof.
  intros Hle [Hn Hv]. split.
  - intros b Hb. specialize (Hn b Hb). lia.
  - eapply Forall_impl; [exact Hv|]. simpl. intros. lia.
Qed.

Lemma wf_heap_new h : wf_heap h -> wf_heap (h ++ [zeroNode]).
Proof.
  intros Hwf a n Hl. apply lookup_app_Some in Hl as [Hl|[Hge Hl]].
  - eapply node_ok_mono; [|by apply Hwf]. rewrite length_app. lia.
  - apply list_lookup_singleton_Some in Hl as [_ <-]. split; [done|constructor].
Qed.

Lemma wf_heap_insert h a n :
  wf_heap h -> node_ok h a n -> wf_heap (<[a := n]> h).
Proof.
  intros Hwf Hn b m Hl. destruct (decide (a = b)) as [->|Hne].
  - assert (b < length h)%nat.
    { apply lookup_lt_Some in Hl. by rewrite length_insert in Hl. }
    rewrite list_lookup_insert_eq in Hl by done. injection Hl as <-.
    eapply node_ok_mono; [|done]. by rewrite length_insert.
  - rewrite list_lookup_insert_ne in Hl by done.
    eapply node_ok_mono; [|by apply Hwf]. by rewrite length_insert.
Qed.

Lemma Node_AddProperty_wf h p prop h' :
  wf_heap h -> Node_AddProperty h p prop = Some h' -> wf_heap h' /\ length h' = length h.
Proof.
  intros Hwf. unfold Node_AddProperty. destruct p as [a|]; simpl; [|done].
  destruct (h !! a) as [n|] eqn:Hn; simpl; [|done].
  pose proof (Hwf a n Hn) as Hok.
  destruct (_ || _); intros [= <-]; (split; [apply wf_heap_insert; [done|apply Hok]|by rewrite length_insert]).
Qed.

Lemma NewNode_wf h p h' b :
  wf_heap h -> NewNode h p = Some (h', b) ->
  wf_heap h' /\ b = length h /\ length h' = S (length h).
Proof.
  intros Hwf. unfold NewNode, new. destruct p as [a|]; simpl; [|done].
  destruct (h !! a) as [n|] eqn:Hn; simpl; [|done]. intros [= <- <-].
  pose proof (Hwf a n Hn) as [Hnx Hv]. apply lookup_lt_Some in Hn as Hlt.
  split; [|split; [done|rewrite length_insert, length_app; simpl; lia]].
  apply wf_heap_insert; [by apply wf_heap_new|]. split; simpl.
  - intros b' [= <-]. rewrite length_app. simpl. lia.
  - eapply Forall_impl; [exact Hv|]. simpl. intros. rewrite length_app. simpl. lia.
Qed.

Lemma NewVariation_wf h p h' b :
  wf_heap h -> NewVariation h p = Some (h', b) ->
  wf_heap h' /\ b = length h /\ length h' = S (length h).
Proof.
  intros Hwf. unfold NewVariation, new. destruct p as [a|]; simpl; [|done].
  destruct (h !! a) as [n|] eqn:Hn; simpl; [|done]. intros [= <- <-].
  pose proof (Hwf a n Hn) as [Hnx Hv]. apply lookup_lt_Some in Hn as Hlt.
  split; [|split; [done|rewrite length_insert, length_app; simpl; lia]].
  apply wf_heap_insert; [by apply wf_heap_new|]. split; simpl.
  - intros b Hb. specialize (Hnx b Hb). rewrite length_app. simpl. lia.
  - apply Forall_app. split.
    + eapply Forall_impl; [exact Hv|]. simpl. intros. rewrite length_app. simpl. lia.
    + constructor; [|constructor]. rewrite length_app. simpl. lia.
Qed.

Definition wf_state (s : state) : Prop :=
  wf_heap (heap s) /\ game_ok (heap s) (sgf s).

Lemma game_ok_mono h h' g :
  (length h <= length h')%nat -> game_ok h g -> game_ok h' g.
Proof. intros Hle Hg r Hr. specialize (Hg r Hr). lia. Qed.

Lemma on_item_wf s i s' :
  wf_state s -> on_item s i = Continue s' \/ on_item s i = Break s' -> wf_state s'.
Proof.
  intros [Hwf Hg]. unfold on_item, wf_state.
  destruct (typ i) eqn:Ht; simpl;
    destruct (parsingSetup s) eqn:Ep, (parsingGame s) eqn:Eg; simpl;
    try (destruct (NewVariation _ _) as [[h' b]|] eqn:E; simpl;
         [apply NewVariation_wf in E as (? & ? & ?); [|done]|]);
    try (destruct (NewNode _ _) as [[h' b]|] eqn:E; simpl;
         [apply NewNode_wf in E as (? & ? & ?); [|done]|]);
    try (destruct (Node_AddProperty _ _ _) as [h'|] eqn:E; simpl;
         [apply Node_AddProperty_wf in E as (? & ?); [|done]|]);
    try (destruct (nodeStack s) as [|p st]; simpl);
    intros [Hr|Hr]; try discriminate; injection Hr as <-; simpl;
    (split; [try done; by apply wf_heap_new|]);
    try done;
    try (eapply game_ok_mono; [|done]; lia).
  all: intros r [= <-]; rewrite length_app; simpl; lia.
Qed.

Lemma Loop_wf s its s' : wf_state s -> Loop s its = Broke s' -> wf_state s'.
Proof.
  revert s. induction its as [|i its IH]; intros s Hs; simpl; [done|].
  destruct (on_item s i) as [s1|s1|] eqn:E; [| |done].
  - apply IH. eapply on_item_wf; eauto.
  - intros [= <-]. eapply on_item_wf; eauto.
Qed.

(** *** The main line *)

(** [chain h p l]: following [next] from [p] visits exactly the cells [l]
    and then reaches nil. *)
Inductive chain (h : Heap) : option addr -> list addr -> Prop :=
| chain_nil : chain h None []
| chain_cons a n l : h !! a = Some n -> chain h (next n) l -> chain h (Some a) (a :: l).

Lemma chain_exists h fuel a :
  wf_heap h -> (a < length h)%nat -> (length h - a <= fuel)%nat ->
  exists l, chain h (Some a) l /\ (length l <= fuel)%nat.
Proof.
  intros Hwf. revert a. induction fuel as [|fuel IH]; intros a Ha Hf; [lia|].
  destruct (lookup_lt_is_Some_2 h a Ha) as [n Hn].
  destruct (next n) as [b|] eqn:Hb.
  - destruct (Hwf a n Hn) as [Hnx _]. specialize (Hnx b Hb).
    destruct (IH b) as (l & Hl & Hlen); [lia..|].
    exists (a :: l). split; [|simpl; lia]. econstructor; [done|]. by rewrite Hb.
  - exists [a]. split; [|simpl; lia]. econstructor; [done|]. rewrite Hb. constructor.
Qed.

Lemma NodeCount_loop_chain h p l fuel c :
  chain h p l -> (length l <= fuel)%nat ->
  NodeCount_loop fuel h p c = Some (c + Z.of_nat (length l)).
Proof.
  intros Hc. revert fuel c. induction Hc as [|a n l Hn Hc IH]; intros fuel c Hf.
  - destruct fuel; simpl; f_equal; lia.
  - destruct fuel as [|fuel]; simpl in *; [lia|]. rewrite Hn. simpl.
    rewrite IH by lia. f_equal. lia.
Qed.

Lemma advance_chain h p l k :
  chain h p l -> (k < length l)%nat -> advance k h p = Some (l !! k).
Proof.
  intros Hc. revert k. induction Hc as [|a n l Hn Hc IH]; intros k Hk; simpl in *; [lia|].
  destruct k as [|k]; simpl; [done|]. rewrite Hn. simpl.
  destruct l as [|b l]; [simpl in *; lia|]. apply IH. simpl in *. lia.
Qed.

(** Heaps that agree on every [next] field. *)
Definition same_next (h h' : Heap) : Prop :=
  length h = length h' /\
  forall a, (next <$> h !! a) = (next <$> h' !! a).

Lemma NodeCount_loop_same_next h h' fuel p c :
  same_next h h' -> NodeCount_loop fuel h' p c = NodeCount_loop fuel h p c.
Proof.
  intros [_ Hs]. revert p c. induction fuel as [|fuel IH]; intros [a|] c; simpl; try done.
  specialize (Hs a). destruct (h !! a), (h' !! a); simpl in *; try done.
  injection Hs as ->. apply IH.
Qed.

Lemma advance_same_next h h' k p :
  same_next h h' -> advance k h' p = advance k h p.
Proof.
  intros [_ Hs]. revert p. induction k as [|k IH]; intros [a|]; simpl; try done.
  specialize (Hs a). destruct (h !! a), (h' !! a); simpl in *; try done.
  injection Hs as ->. apply IH.
Qed.

(** *** Trees, and parsing at another place of the heap *)

(** The tree a pointer stands for, by value. *)
Inductive Tree : Type :=
| TreeNode (point : Property) (properties : list Property)
           (variations : list Tree) (next : option Tree).

Fixpoint tree_of (fuel : nat) (h : Heap) (a : addr) : option Tree :=
  match fuel with
  | O => None
  | S fuel' =>
    n ← h !! a;
    vs ← mapM (tree_of fuel' h) (variations n);
    nx ← match next n with
         | None => Some None
         | Some b => Some <$> tree_of fuel' h b
         end;
    Some (TreeNode (point n) (properties n) vs nx)
  end.

Definition tree_at (fuel : nat) (h : Heap) (p : option addr) : option (option Tree) :=
  match p with
  | None => Some None
  | Some a => Some <$> tree_of fuel h a
  end.

Definition shift_node (k : nat) (n : Node) : Node :=
  mkNode (point n) (properties n) (Nat.add k <$> variations n) (Nat.add k <$> next n).

(** The cells [h], moved behind the cells [h0]. *)
Definition reloc (h0 h : Heap) : Heap := h0 ++ (shift_node (length h0) <$> h).

Definition reloc_game (k : nat) (g : SGFGame) : SGFGame :=
  mkSGFGame (gameInfo g) (Nat.add k <$> gameTree g) (errors g).

Definition reloc_state (h0 : Heap) (s : state) : state :=
  mkState (reloc h0 (heap s)) (reloc_game (length h0) (sgf s))
          (Nat.add (length h0) <$> currentNode s) (prop s)
          (parsingSetup s) (parsingGame s)
          ((fun p : option nat => Nat.add (length h0) <$> p) <$> nodeStack s).

Definition reloc_turn (h0 : Heap) (t : turn) : turn :=
  match t with
  | Continue s => Continue (reloc_state h0 s)
  | Break s => Break (reloc_state h0 s)
  | NilDereference => NilDereference
  end.

Definition reloc_ending (h0 : Heap) (e : ending) : ending :=
  match e with
  | Broke s => Broke (reloc_state h0 s)
  | Waiting s => Waiting (reloc_state h0 s)
  | Dereferenced => Dereferenced
  end.

Lemma reloc_length h0 h : length (reloc h0 h) = (length h0 + length h)%nat.
Proof. unfold reloc. by rewrite length_app, length_fmap. Qed.

Lemma reloc_lookup h0 h a :
  reloc h0 h !! (length h0 + a)%nat = shift_node (length h0) <$> h !! a.
Proof.
  unfold reloc. rewrite lookup_app_r by lia.
  replace (length h0 + a - length h0)%nat with a by lia. apply list_lookup_fmap.
Qed.

Lemma reloc_insert h0 h a n :
  <[(length h0 + a)%nat := shift_node (length h0) n]> (reloc h0 h) = reloc h0 (<[a := n]> h).
Proof.
  unfold reloc. rewrite insert_app_r_alt by lia.
  replace (length h0 + a - length h0)%nat with a by lia. by rewrite list_fmap_insert.
Qed.

Lemma reloc_new h0 h : reloc h0 h ++ [zeroNode] = reloc h0 (h ++ [zeroNode]).
Proof. unfold reloc. by rewrite fmap_app, app_assoc. Qed.

Lemma Node_AddProperty_reloc h0 h p prop :
  Node_AddProperty (reloc h0 h) (Nat.add (length h0) <$> p) prop
  = reloc h0 <$> Node_AddProperty h p prop.
Proof.
  unfold Node_AddProperty. destruct p as [a|]; simpl; [|done].
  rewrite reloc_lookup. destruct (h !! a) as [n|]; simpl; [|done].
  destruct (_ || _); simpl; f_equal; by rewrite <- reloc_insert.
Qed.

Lemma NewNode_reloc h0 h p :
  NewNode (reloc h0 h) (Nat.add (length h0) <$> p)
  = prod_map (reloc h0) (Nat.add (length h0)) <$> NewNode h p.
Proof.
  unfold NewNode, new. destruct p as [a|]; simpl; [|done].
  rewrite reloc_lookup. destruct (h !! a) as [n|]; simpl; [|done].
  rewrite reloc_length, reloc_new. f_equal. f_equal. by rewrite <- reloc_insert.
Qed.

Lemma NewVariation_reloc h0 h p :
  NewVariation (reloc h0 h) (Nat.add (length h0) <$> p)
  = prod_map (reloc h0) (Nat.add (length h0)) <$> NewVariation h p.
Proof.
  unfold NewVariation, new. destruct p as [a|]; simpl; [|done].
  rewrite reloc_lookup. destruct (h !! a) as [n|]; simpl; [|done].
  rewrite reloc_length, reloc_new. f_equal. f_equal. rewrite <- reloc_insert.
  unfold shift_node. simpl. by rewrite fmap_app.
Qed.

Lemma on_item_reloc h0 s i :
  on_item (reloc_state h0 s) i = reloc_turn h0 (on_item s i).
Proof.
  unfold on_item. destruct (typ i); simpl; try done;
    destruct (parsingSetup s), (parsingGame s); simpl; try done;
    rewrite ?NewVariation_reloc, ?NewNode_reloc, ?Node_AddProperty_reloc;
    try (destruct (NewVariation _ _) as [[h' b]|]; simpl; done);
    try (destruct (NewNode _ _) as [[h' b]|]; simpl; done);
    try (destruct (Node_AddProperty _ _ _) as [h'|]; simpl; done);
    try (destruct (nodeStack s) as [|[p|] st]; simpl; done).
  all: unfold new, reloc_state, reloc_game; simpl; rewrite reloc_length, reloc_new; done.
Qed.

Lemma Loop_reloc h0 s its :
  Loop (reloc_state h0 s) its = reloc_ending h0 (Loop s its).
Proof.
  revert s. induction its as [|i its IH]; intros s; simpl; [done|].
  rewrite on_item_reloc. destruct (on_item s i); simpl; auto.
Qed.

Lemma start_reloc h0 : start h0 emptyGame = reloc_state h0 (start [] emptyGame).
Proof. unfold start, reloc_state, reloc, reloc_game. simpl. by rewrite app_nil_r. Qed.

Lemma tree_of_reloc h0 h fuel a :
  tree_of fuel (reloc h0 h) (length h0 + a)%nat = tree_of fuel h a.
Proof.
  revert a. induction fuel as [|fuel IH]; intros a; simpl; [done|].
  rewrite reloc_lookup. destruct (h !! a) as [n|]; simpl; [|done].
  assert (Hvs : mapM (tree_of fuel (reloc h0 h)) (Nat.add (length h0) <$> variations n)
                = mapM (tree_of fuel h) (variations n)).
  { induction (variations n) as [|b vs IHvs]; csimpl; [done|]. rewrite IH.
    destruct (tree_of fuel h b); csimpl; [|done]. f_equal. exact IHvs. }
  rewrite Hvs. destruct (next n) as [b|]; simpl; [|done]. by rewrite IH.
Qed.

Lemma tree_at_reloc h0 h fuel p :
  tree_at fuel (reloc h0 h) (Nat.add (length h0) <$> p) = tree_at fuel h p.
Proof. destruct p as [a|]; simpl; [|done]. by rewrite tree_of_reloc. Qed.

Lemma tree_of_total h fuel a :
  wf_heap h -> (a < length h)%nat -> (length h - a <= fuel)%nat ->
  is_Some (tree_of fuel h a).
Proof.
  intros Hwf. revert a. induction fuel as [|fuel IH]; intros a Ha Hf; [lia|]. simpl.
  destruct (lookup_lt_is_Some_2 h a Ha) as [n Hn]. rewrite Hn. simpl.
  destruct (Hwf a n Hn) as [Hnx Hv].
  assert (is_Some (mapM (tree_of fuel h) (variations n))) as [vs ->].
  { apply mapM_is_Some. eapply Forall_impl; [exact Hv|]. simpl. intros b Hb. apply IH; lia. }
  simpl. destruct (next n) as [b|] eqn:Hb; simpl; [|done].
  specialize (Hnx b eq_refl). destruct (IH b) as [t ->]; [lia..|]. done.
Qed.

Lemma tree_at_total h p :
  wf_heap h -> (forall a, p = Some a -> (a < length h)%nat) ->
  is_Some (tree_at (length h) h p).
Proof.
  intros Hwf Hp. destruct p as [a|]; simpl; [|done].
  destruct (tree_of_total h (length h) a) as [t ->]; auto. lia.
Qed.

End Facts.
End ParserFacts.

(** ** The ASCII library satisfies the laws *)

Module AsciiLaws.
Import AsciiLib.

Lemma sprintf0_plain s : no_percent s = true -> sprintf0 s = s.
Proof.
  induction s as [|c t IH]; simpl; [done|].
  destruct (bool_decide (c = percent)); simpl; [done|]. intros H. by rewrite IH.
Qed.

#[export] Instance laws : GoLibLaws lib.
Proof.
  split; simpl; try done. apply sprintf0_plain.
Defined.

End AsciiLaws.

(** ** Evaluating the scanner on ASCII text for any library *)

Module Guard.

(** The library [G], answering by the ASCII tables where the laws fix the
    answer. *)
Definition guard (G : GoLib) : GoLib := {|
  IsLetter r := if r =? -1 then false
                else if (0 <=? r) && (r <? 128) then ascii_letter r else IsLetter r;
  IsPrint r := if r =? -1 then false
               else if (0 <=? r) && (r <? 128) then ascii_print r else IsPrint r;
  ToUpper s := if is_ascii s then ascii_upper s else ToUpper s;
  fmt_q := fmt_q;
  fmt_q_rune := fmt_q_rune;
  Sprintf0 s := if no_percent s then s else Sprintf0 s
|}.

Lemma guard_eq (G : GoLib) : GoLibLaws G -> guard G = G.
Proof.
  intros L. destruct G as [il ip tu fq fqr sp]. unfold guard. simpl.
  f_equal; extensionality x.
  - destruct (Z.eqb_spec x (-1)) as [->|]; [symmetry; apply (@IsLetter_eof _ L)|].
    destruct (Z.leb_spec 0 x), (Z.ltb_spec x 128); simpl; try done.
    symmetry. apply (@IsLetter_ascii _ L). lia.
  - destruct (Z.eqb_spec x (-1)) as [->|]; [symmetry; apply (@IsPrint_eof _ L)|].
    destruct (Z.leb_spec 0 x), (Z.ltb_spec x 128); simpl; try done.
    symmetry. apply (@IsPrint_ascii _ L). lia.
  - destruct (is_ascii x) eqn:E; [|done]. symmetry. by apply (@ToUpper_ascii _ L).
  - destruct (no_percent x) eqn:E; [|done]. symmetry. by apply (@Sprintf0_plain _ L).
Qed.

End Guard.

(** ** The scanner on a document given by its parts *)

Module ViewFacts.
Import Lexer LexerFacts.

Lemma app_cons c (a b : string) : String c a +:+ b = String c (a +:+ b).
Proof. reflexivity. Qed.

Lemma app_nil_s (b : string) : "" +:+ b = b.
Proof. reflexivity. Qed.

Lemma app_assoc_s (a b c : string) : (a +:+ b) +:+ c = a +:+ (b +:+ c).
Proof. induction a; rewrite ?app_cons, ?app_nil_s; congruence. Qed.

Lemma app_empty_r (a : string) : a +:+ "" = a.
Proof. induction a; rewrite ?app_cons, ?app_nil_s; congruence. Qed.

Lemma length_app_s (a b : string) :
  String.length (a +:+ b) = (String.length a + String.length b)%nat.
Proof. induction a; rewrite ?app_cons, ?app_nil_s; simpl; congruence. Qed.

Lemma len_app (a b : string) : len (a +:+ b) = len a + len b.
Proof. unfold len. rewrite length_app_s. lia. Qed.

Lemma len_one x : len (String x "") = 1.
Proof. reflexivity. Qed.

Lemma len_empty : len "" = 0.
Proof. reflexivity. Qed.

Lemma drop_app (a b : string) : drop (String.length a) (a +:+ b) = b.
Proof. induction a; rewrite ?app_cons, ?app_nil_s; simpl; auto. Qed.

Lemma take_app (a b : string) : take (String.length a) (a +:+ b) = a.
Proof. induction a; rewrite ?app_cons, ?app_nil_s; simpl; congruence. Qed.

Lemma drop_drop n m s : drop n (drop m s) = drop (m + n) s.
Proof. revert s. induction m; intros [|c s]; simpl; auto. by destruct n. Qed.

(** The rune at the head of the rest of the input. *)
Definition rune_here (r : string) : Z * Z :=
  match r with
  | EmptyString => (eof, 0)
  | _ => utf8.DecodeRuneInString r
  end.

Lemma rune_at_here s p :
  0 <= p <= len s -> rune_at s p = rune_here (drop (Z.to_nat p) s).
Proof.
  intros Hp. unfold rune_at. destruct (Z.leb_spec (len s) p).
  - destruct (drop (Z.to_nat p) s) eqn:E; [done|].
    apply (f_equal String.length) in E. rewrite length_drop in E. simpl in E.
    unfold len in *. lia.
  - destruct (drop (Z.to_nat p) s) eqn:E; [|done].
    apply (f_equal String.length) in E. rewrite length_drop in E. simpl in E.
    unfold len in *. lia.
Qed.

Lemma first_facts b sz lo hi :
  utf8.first b = Some (sz, lo, hi) -> 2 <= sz <= 4 /\ 128 <= lo.
Proof.
  unfold utf8.first.
  repeat match goal with
  | |- context [if ?c then _ else _] => destruct c
  end; intros [= <- <- <-]; lia.
Qed.

(** Decoding does not look past a following ASCII byte. *)
Lemma decode_context s r :
  s <> "" -> match r with EmptyString => True | String x _ => byte x < 128 end ->
  utf8.DecodeRuneInString (s +:+ r) = utf8.DecodeRuneInString s.
Proof.
  destruct s as [|c0 t0]; [done|]. intros _ Hr.
  destruct r as [|x r']; [by rewrite app_empty_r|].
  rewrite app_cons. unfold utf8.DecodeRuneInString.
  destruct (byte c0 <? 128); [done|].
  destruct (utf8.first (byte c0)) as [[[sz lo] hi]|] eqn:Hf; [|done].
  apply first_facts in Hf as [Hsz Hlo].
  assert (Hcont : utf8.cont (byte x) = false).
  { unfold utf8.cont. destruct (Z.leb_spec 128 (byte x)); [lia|done]. }
  assert (Hlt : (byte x <? lo) = true) by (apply Z.ltb_lt; lia).
  destruct t0 as [|c1 [|c2 [|c3 t3]]]; rewrite ?app_cons, ?app_nil_s;
    unfold len; simpl String.length; rewrite ?length_app_s; simpl String.length;
    rewrite ?Hcont, ?Hlt; simpl negb; simpl orb;
    repeat match goal with
    | |- context [if (?a <? ?b) then _ else _] => destruct (Z.ltb_spec a b)
    | |- context [if (?a <=? ?b) then _ else _] => destruct (Z.leb_spec a b)
    | |- context [if negb ?c then _ else _] => destruct c; simpl negb
    | |- context [if (?a || ?b) then _ else _] => destruct (a || b)
    end; try reflexivity; try lia.
Qed.

Lemma drop_app_le n (a b : string) :
  (n <= String.length a)%nat -> drop n (a +:+ b) = drop n a +:+ b.
Proof.
  revert a. induction n as [|n IH]; intros [|x a] H; simpl in *; try done; try lia.
  rewrite ?app_cons. simpl. apply IH. lia.
Qed.

Lemma drop_app_ge n (a b : string) :
  drop (String.length a + n) (a +:+ b) = drop n b.
Proof. induction a; rewrite ?app_cons, ?app_nil_s; simpl; auto. Qed.

Definition ascii_head (r : string) : Prop :=
  match r with EmptyString => True | String x _ => byte x < 128 end.

(** Every rune of [s] satisfies [P]. *)
Definition runs (P : Z -> bool) (s : string) : Prop := run_of P s 0 (len s).

Lemma run_of_unique P s p q q' :
  run_of P s p q -> P (rune_at s q).1 = false ->
  run_of P s p q' -> P (rune_at s q').1 = false -> q = q'.
Proof.
  intros H. revert q'. induction H as [p|p q Hp H IH]; intros q' Hq H' Hq'.
  - inversion H'; subst; [done|congruence].
  - inversion H'; subst; [congruence|]. by apply IH.
Qed.

Lemma run_context P s r pre p q :
  P eof = false -> ascii_head r -> run_of P s p q -> 0 <= p <= len s ->
  run_of P (pre +:+ s +:+ r) (len pre + p) (len pre + q).
Proof.
  intros HP Hr H. induction H as [p|p q Hp H IH]; intros Hle; [constructor|].
  assert (p < len s).
  { apply rune_not_eof. intros E. rewrite E in Hp. congruence. }
  assert (Heq : rune_at (pre +:+ s +:+ r) (len pre + p) = rune_at s p).
  { rewrite !rune_at_here by (rewrite ?len_app; pose proof (len_nonneg pre);
                               pose proof (len_nonneg r); lia).
    replace (Z.to_nat (len pre + p)) with (String.length pre + Z.to_nat p)%nat
      by (unfold len; lia).
    rewrite drop_app_ge, drop_app_le by (unfold len in *; lia).
    destruct (drop (Z.to_nat p) s) as [|a0 s0] eqn:E.
    { apply (f_equal String.length) in E. rewrite length_drop in E. simpl in E.
      unfold len in *. lia. }
    rewrite app_cons. unfold rune_here. rewrite <- app_cons. by apply decode_context. }
  destruct (rune_at s p) as [ru w] eqn:E. simpl in *.
  pose proof (rune_at_width s p ru w ltac:(lia) E) as (? & ? & ? & ?).
  eapply run_cons; rewrite Heq; simpl; [done|].
  replace (len pre + p + w) with (len pre + (p + w)) by lia. apply IH. lia.
Qed.

Section Views.
Context {G : GoLib} {L : GoLibLaws G}.

(** The input of [l] is [c +:+ p +:+ r]: [c] lies before [start], [p] is
    pending between [start] and [pos], [r] is still to be read. *)
Record view (l : lexer) (c p r : string) : Prop := mkView {
  view_input : input l = c +:+ p +:+ r;
  view_start : start l = len c;
  view_pos : pos l = len c + len p
}.

Lemma view_wf l c p r : view l c p r -> wf l.
Proof.
  intros [Hi Hs Hp]. unfold wf. rewrite Hi, Hs, Hp, !len_app.
  pose proof (len_nonneg c). pose proof (len_nonneg p). pose proof (len_nonneg r). lia.
Qed.

Lemma view_rest l c p r : view l c p r -> drop (Z.to_nat (pos l)) (input l) = r.
Proof.
  intros [Hi Hs Hp]. rewrite Hi, Hp, <- app_assoc_s, <- len_app.
  unfold len. rewrite Nat2Z.id. apply drop_app.
Qed.

Lemma view_pending l c p r :
  view l c p r ->
  take (Z.to_nat (pos l - start l)) (drop (Z.to_nat (start l)) (input l)) = p.
Proof.
  intros [Hi Hs Hp]. rewrite Hi, Hp, Hs.
  replace (len c + len p - len c) with (len p) by lia.
  unfold len. rewrite !Nat2Z.id, drop_app. apply take_app.
Qed.

Lemma view_rune l c p r : view l c p r -> rune_at (input l) (pos l) = rune_here r.
Proof.
  intros H. pose proof (view_wf _ _ _ _ H) as [? ?].
  rewrite rune_at_here by lia. by rewrite (view_rest _ _ _ _ H).
Qed.

Lemma view_set_width l w c p r : view l c p r -> view (set_width l w) c p r.
Proof. by intros [Hi Hs Hp]. Qed.

Lemma peek_view l c p r :
  view l c p r -> exists w, peek l = Ok (rune_here r).1 (set_width l w).
Proof.
  intros H. pose proof (view_wf _ _ _ _ H) as [? ?].
  rewrite peek_eq by lia. rewrite (view_rune _ _ _ _ H). eauto.
Qed.

Lemma emit_view t l c p r :
  view l c p r ->
  exists l', emit t l = Ok tt l' /\
    items l' = items l ++ [mkItem t (len c)
                             (if bool_decide (t = itemPropertyName) then ToUpper p else p)] /\
    view l' (c +:+ p) "" r.
Proof.
  intros H. rewrite emit_eq by by eapply view_wf. eexists. split; [done|]. simpl.
  unfold emitted_item. rewrite (view_pending _ _ _ _ H).
  destruct H as [Hi Hs Hp]. rewrite Hs. split; [done|].
  split; simpl; rewrite ?len_app, ?len_empty; rewrite ?app_nil_s, ?app_assoc_s; try done.
  lia.
Qed.

Lemma bump_view l c p x r :
  view l c p (String x r) -> view (set_pos l (pos l + 1)) c (p +:+ String x "") r.
Proof.
  intros [Hi Hs Hp]. split; simpl; try done.
  - by rewrite Hi, app_assoc_s.
  - rewrite Hp, len_app, len_one. lia.
Qed.

Lemma ignore_view l c p r : view l c p r -> view (set_start l (pos l)) (c +:+ p) "" r.
Proof.
  intros [Hi Hs Hp]. split; simpl.
  - by rewrite Hi, app_nil_s, app_assoc_s.
  - by rewrite Hp, len_app.
  - rewrite Hp, len_app, len_empty. lia.
Qed.

Lemma rune_here_ascii x r : byte x < 128 -> rune_here (String x r) = (byte x, 1).
Proof.
  intros H. unfold rune_here, utf8.DecodeRuneInString.
  destruct (Z.ltb_spec (byte x) 128); [done|lia].
Qed.

Lemma next_view l c p x r :
  view l c p (String x r) -> byte x < 128 ->
  exists l', next l = Ok (byte x) l' /\ items l' = items l /\
             view l' c (p +:+ String x "") r.
Proof.
  intros H Hx. pose proof (view_wf _ _ _ _ H) as [? ?].
  rewrite next_eq by lia. rewrite (view_rune _ _ _ _ H), rune_here_ascii by done.
  eexists. split; [done|]. split; [done|]. simpl.
  apply (view_set_width (set_pos l (pos l + 1)) 1), (bump_view _ _ _ _ _ H).
Qed.

Lemma accept_view P l c p s r :
  P eof = false -> view l c p (s +:+ r) -> runs P s -> ascii_head r ->
  P (rune_here r).1 = false ->
  exists l', (do l0 <- get; accept_loop P (bound l0);; backup) l = Ok tt l' /\
             items l' = items l /\ view l' c (p +:+ s) r.
Proof.
  intros HP H Hruns Hr Hstop. pose proof (view_wf _ _ _ _ H) as [? ?].
  destruct (accept_run_eq P l HP) as (q & Hq & Hrun & Hnot & Hle); [lia|].
  assert (Hv' : view (set_pos l (pos l + len s)) c (p +:+ s) r).
  { destruct H as [Hi Hs Hp]. split; simpl; try done.
    - by rewrite Hi, app_assoc_s.
    - rewrite Hp, len_app. lia. }
  assert (q = pos l + len s) as ->.
  { eapply run_of_unique; [exact Hrun|exact Hnot| |].
    - destruct H as [Hi Hs Hp]. rewrite Hi, Hp, <- app_assoc_s, <- len_app.
      replace (len (c +:+ p)) with (len (c +:+ p) + 0) at 1 by lia.
      apply run_context; try done. pose proof (len_nonneg s). lia.
    - pose proof (view_rune _ _ _ _ Hv') as Hru. simpl in Hru. by rewrite Hru. }
  rewrite Hq. eexists. split; [done|]. split; [done|].
  destruct Hv' as [Hi Hs Hp]. by split.
Qed.

Lemma bind_eq {A B} (m : M A) (k : A -> M B) l a l' :
  m l = Ok a l' -> bind m k l = k a l'.
Proof. unfold bind. by intros ->. Qed.

Lemma bind_panic {A B} (m : M A) (k : A -> M B) l l' :
  m l = Panic l' -> bind m k l = Panic l'.
Proof. unfold bind. by intros ->. Qed.

Lemma isAlpha_ascii r : 0 <= r < 128 -> isAlpha r = ascii_letter r.
Proof. apply IsLetter_ascii. Qed.

Lemma lexBegin_view l c p r :
  view l c p (String "(" r) -> lexBegin l = Ok (Some fnLeftParen) l.
Proof.
  intros H. pose proof (view_wf _ _ _ _ H) as [? ?].
  unfold lexBegin, bind, get, bound. simpl. unfold bind, get.
  rewrite slice_from_ok by lia. simpl. by rewrite (view_rest _ _ _ _ H).
Qed.

Lemma lexLeftParen_view l c p r :
  view l c p (String "(" (String ";" r)) ->
  exists l', lexLeftParen l = Ok (Some fnSemiColon) l' /\
    items l' = items l ++ [mkItem itemLeftParen (len c) (p +:+ "(")] /\
    view l' (c +:+ p +:+ "(") "" (String ";" r).
Proof.
  intros H. apply bump_view in H.
  destruct (emit_view itemLeftParen _ _ _ _ H) as (l1 & E1 & I1 & V1).
  destruct (peek_view _ _ _ _ V1) as (w & E2).
  unfold lexLeftParen. rewrite (bind_eq (modify _) _ l tt _ eq_refl), (bind_eq _ _ _ _ _ E1),
    (bind_eq _ _ _ _ _ E2).
  rewrite rune_here_ascii by done. simpl.
  eexists. split; [done|]. split; [exact I1|]. by apply view_set_width.
Qed.

Lemma lexSemiColon_view l c p r :
  view l c p (String ";" r) -> isAlpha (rune_here r).1 = true ->
  exists l', lexSemiColon l = Ok (Some fnPropertyName) l' /\
    items l' = items l ++ [mkItem itemSemiColon (len c) (p +:+ ";")] /\
    view l' (c +:+ p +:+ ";") "" r.
Proof.
  intros H Ha. apply bump_view in H.
  destruct (emit_view itemSemiColon _ _ _ _ H) as (l1 & E1 & I1 & V1).
  destruct (peek_view _ _ _ _ V1) as (w & E2).
  assert (Hne : ((rune_here r).1 =? 59) = false).
  { apply Z.eqb_neq. intros E. rewrite E, isAlpha_ascii in Ha by lia. done. }
  destruct (peek_view _ _ _ _ (view_set_width _ w _ _ _ V1)) as (w' & E3).
  unfold lexSemiColon. rewrite (bind_eq (modify _) _ l tt _ eq_refl), (bind_eq _ _ _ _ _ E1),
    (bind_eq _ _ _ _ _ E2), Hne.
  rewrite (bind_eq (ret tt) _ _ tt _ eq_refl), (bind_eq _ _ _ _ _ E3), Ha. simpl.
  eexists. split; [done|]. split; [exact I1|]. by do 2 apply view_set_width.
Qed.

Lemma lexPropertyName_view l c p s r :
  view l c p (s +:+ String "[" r) -> runs isAlpha s ->
  exists l', lexPropertyName l = Ok (Some fnLeftBracket) l' /\
    items l' = items l ++ [mkItem itemPropertyName (len c) (ToUpper (p +:+ s))] /\
    view l' (c +:+ p +:+ s) "" (String "[" r).
Proof.
  intros H Hs.
  destruct (accept_view isAlpha _ _ _ _ _ IsLetter_eof H Hs) as (l1 & E1 & I1 & V1);
    [done| |].
  { rewrite rune_here_ascii by done. by rewrite isAlpha_ascii. }
  destruct (emit_view itemPropertyName _ _ _ _ V1) as (l2 & E2 & I2 & V2).
  destruct (peek_view _ _ _ _ V2) as (w & E3).
  unfold lexPropertyName, acceptAlphaRun. rewrite (bind_eq _ _ _ _ _ E1),
    (bind_eq _ _ _ _ _ E2), (bind_eq _ _ _ _ _ E3).
  rewrite rune_here_ascii by done. simpl.
  eexists. split; [done|]. split; [simpl; by rewrite I2, I1|]. by apply view_set_width.
Qed.

(** The state after a property value, by the rune that follows it. *)
Definition follow (r : Z) : option stateFn :=
  if r =? 91 then Some fnLeftBracket
  else if r =? 59 then Some fnSemiColon
  else if r =? 40 then Some fnLeftParen
  else if r =? 41 then Some fnRightParen
  else if isAlpha r then Some fnPropertyName
  else None.

Lemma advance_view l c p x r :
  view l c p (String x r) -> byte x < 128 ->
  exists l', advance l = Ok tt l' /\ items l' = items l /\
             view l' (c +:+ p +:+ String x "") "" r.
Proof.
  intros H Hx. destruct (next_view _ _ _ _ _ H Hx) as (l1 & E1 & I1 & V1).
  unfold advance. rewrite (bind_eq _ _ _ _ _ E1). eexists. split; [done|].
  split; [exact I1|]. by apply ignore_view.
Qed.

Lemma skip_whitespace_view l c p r :
  view l c p r -> isWhiteSpace (rune_here r).1 = false ->
  exists w, (do l0 <- get; skip_whitespace (bound l0)) l = Ok tt (set_width l w).
Proof.
  intros H Hw. destruct (peek_view _ _ _ _ H) as (w & E).
  exists w. unfold bind at 1. unfold get, bound. simpl.
  by rewrite (bind_eq _ _ _ _ _ E), Hw.
Qed.

Lemma lexLeftBracket_view l c p v r f' :
  view l c p (String "[" (v +:+ String "]" r)) -> runs isPropertyValueChar v ->
  isWhiteSpace (rune_here r).1 = false -> follow (rune_here r).1 = Some f' ->
  exists l', lexLeftBracket l = Ok (Some f') l' /\
    items l' = items l ++ [mkItem itemPropertyValue (len (c +:+ p +:+ "[")) v] /\
    view l' ((c +:+ p +:+ "[") +:+ v +:+ "]") "" r.
Proof.
  intros H Hv Hws Hf.
  destruct (advance_view _ _ _ _ _ H) as (l1 & E1 & I1 & V1); [done|].
  destruct (accept_view isPropertyValueChar _ _ _ _ _ isPropertyValueChar_eof V1 Hv)
    as (l2 & E2 & I2 & V2); [done| |].
  { rewrite rune_here_ascii by done. unfold isPropertyValueChar. simpl. apply andb_false_r. }
  rewrite app_nil_s in V2.
  destruct (emit_view itemPropertyValue _ _ _ _ V2) as (l3 & E3 & I3 & V3).
  destruct (peek_view _ _ _ _ V3) as (w3 & E4).
  destruct (advance_view _ _ _ _ _ (view_set_width _ w3 _ _ _ V3)) as (l4 & E5 & I5 & V5);
    [done|].
  destruct (skip_whitespace_view _ _ _ _ V5 Hws) as (w5 & E6).
  pose proof (view_set_width _ w5 _ _ _ V5) as V6.
  destruct (peek_view _ _ _ _ V6) as (w6 & E7).
  pose proof (view_set_width _ w6 _ _ _ V6) as V7.
  destruct (peek_view _ _ _ _ V7) as (w7 & E8).
  unfold lexLeftBracket, acceptPropertyValueRun.
  rewrite (bind_eq _ _ _ _ _ E1), (bind_eq _ _ _ _ _ E2), (bind_eq _ _ _ _ _ E3),
    (bind_eq _ _ _ _ _ E4).
  rewrite rune_here_ascii by done. simpl.
  rewrite (bind_eq _ _ _ _ _ E5), (bind_eq _ _ _ _ _ E6), (bind_eq _ _ _ _ _ E7).
  assert (Hit : items (set_width (set_width l4 w5) w6)
                = items l ++ [mkItem itemPropertyValue (len (c +:+ p +:+ "[")) v]).
  { simpl. rewrite I5. simpl. rewrite I3, I2, I1. done. }
  assert (Hview : view (set_width (set_width l4 w5) w6)
                       ((c +:+ p +:+ "[") +:+ v +:+ "]") "" r).
  { rewrite app_nil_s, app_assoc_s in V7. exact V7. }
  unfold follow in Hf.
  destruct (_ =? 91); [injection Hf as <-; eexists; split; [done|]; by split|].
  destruct (_ =? 59); [injection Hf as <-; eexists; split; [done|]; by split|].
  destruct (_ =? 40); [injection Hf as <-; eexists; split; [done|]; by split|].
  destruct (_ =? 41); [injection Hf as <-; eexists; split; [done|]; by split|].
  rewrite (bind_eq _ _ _ _ _ E8).
  destruct (isAlpha _); [|done]. injection Hf as <-.
  eexists. split; [done|]. split; [exact Hit|by apply view_set_width].
Qed.

Lemma lexRightParen_view_end l c p r :
  view l c p (String ")" r) ->
  follow (rune_here r).1 = None -> (rune_here r).1 <> 91 ->
  exists l', lexRightParen l = Ok None l' /\
    items l' = items l ++ [mkItem itemRightParen (len c) (p +:+ ")");
                           mkItem itemEOF (len (c +:+ p +:+ ")")) ""].
Proof.
  intros H Hf Hne. apply bump_view in H.
  destruct (emit_view itemRightParen _ _ _ _ H) as (l1 & E1 & I1 & V1).
  destruct (peek_view _ _ _ _ V1) as (w1 & E2).
  pose proof (view_set_width _ w1 _ _ _ V1) as V2.
  destruct (peek_view _ _ _ _ V2) as (w2 & E3).
  pose proof (view_set_width _ w2 _ _ _ V2) as V3.
  destruct (peek_view _ _ _ _ V3) as (w3 & E4).
  pose proof (view_set_width _ w3 _ _ _ V3) as V4.
  destruct (peek_view _ _ _ _ V4) as (w4 & E5).
  pose proof (view_set_width _ w4 _ _ _ V4) as V5.
  destruct (emit_view itemEOF _ _ _ _ V5) as (l5 & E6 & I6 & V6).
  unfold follow in Hf. apply Z.eqb_neq in Hne. rewrite Hne in Hf.
  unfold lexRightParen.
  rewrite (bind_eq (modify _) _ l tt _ eq_refl), (bind_eq _ _ _ _ _ E1),
    (bind_eq _ _ _ _ _ E2).
  destruct (_ =? 59) eqn:T1; [done|]. destruct (_ =? 40) eqn:T2; [done|].
  destruct (_ =? 41) eqn:T3; [done|]. destruct (isAlpha _) eqn:T4; [done|].
  rewrite (bind_eq _ _ _ _ _ E3), T4, (bind_eq _ _ _ _ _ E4), T3, (bind_eq _ _ _ _ _ E5), T1,
    (bind_eq _ _ _ _ _ E6).
  eexists. split; [done|]. rewrite I6. simpl. rewrite I1. simpl.
  by rewrite <- app_assoc.
Qed.

Lemma runs_nil P : runs P "".
Proof. constructor. Qed.

Lemma rune_at_0 s : rune_at s 0 = rune_here s.
Proof. rewrite rune_at_here by (pose proof (len_nonneg s); lia). done. Qed.

Lemma runs_cons_ascii P x s :
  P eof = false -> byte x < 128 -> P (byte x) = true -> runs P s -> runs P (String x s).
Proof.
  intros HP Hx HPx Hs. unfold runs. eapply run_cons.
  - by rewrite rune_at_0, rune_here_ascii.
  - rewrite rune_at_0, rune_here_ascii by done. simpl.
    pose proof (run_context P s "" (String x "") 0 (len s) HP I Hs) as H.
    rewrite app_empty_r in H. rewrite len_one in H.
    change (String x "" +:+ s) with (String x s) in H.
    replace (len (String x s)) with (1 + len s) by (unfold len; simpl; lia).
    apply H. pose proof (len_nonneg s). lia.
Qed.

Lemma runs_head P s r :
  runs P s -> s <> "" -> ascii_head r -> P (rune_here (s +:+ r)).1 = true.
Proof.
  intros Hs Hne Hr. destruct s as [|a t]; [done|]. unfold runs in Hs.
  assert (Hp : P (rune_at (String a t) 0).1 = true).
  { by inversion Hs. }
  rewrite rune_at_0 in Hp.
  rewrite app_cons. unfold rune_here in *. rewrite <- app_cons.
  by rewrite decode_context.
Qed.

Lemma run_from_step fuel f l st l' :
  call f l = Ok st l' -> (0 < fuel)%nat ->
  run_from fuel (Some f) l = run_from (Nat.pred fuel) st l'.
Proof.
  intros E Hf. destruct fuel as [|fuel]; [lia|]. simpl. by rewrite (bind_eq _ _ _ _ _ E).
Qed.

(** What the tree builder reads of an item. *)
Definition sig (i : item) : itemType * string := (typ i, val i).

(** The items of a document [(;KEY[value];B[aa])]. *)
Lemma lex_key_value_move (doc key value : string) :
  strip_newlines doc = "(;" +:+ key +:+ "[" +:+ value +:+ "];B[aa])" ->
  key <> "" -> runs isAlpha key -> runs isPropertyValueChar value ->
  exists l, lex doc = Ok tt l /\
    sig <$> items l
    = [(itemLeftParen, "("); (itemSemiColon, ";");
       (itemPropertyName, ToUpper key); (itemPropertyValue, value);
       (itemSemiColon, ";"); (itemPropertyName, "B"); (itemPropertyValue, "aa");
       (itemRightParen, ")"); (itemEOF, "")].
Proof.
  intros HD Hkey Hk Hv. unfold lex, run.
  set (l0 := new_lexer doc).
  assert (Hfuel : (9 <= S (bound l0))%nat).
  { unfold bound, l0, new_lexer. simpl. rewrite HD. simpl.
    rewrite !length_app_s. simpl. lia. }
  revert Hfuel. generalize (S (bound l0)). intros fuel Hfuel.
  assert (V0 : view l0 "" "" (String "(" (String ";" (key +:+ "[" +:+ value +:+ "];B[aa])")))).
  { split; [exact HD|done|done]. }
  assert (HB : isAlpha 66 = true) by (by rewrite isAlpha_ascii).
  assert (Ha : isPropertyValueChar 97 = true).
  { unfold isPropertyValueChar. by rewrite IsPrint_ascii. }
  rewrite (run_from_step _ fnBegin _ _ _ (lexBegin_view _ _ _ _ V0)) by lia.
  destruct (lexLeftParen_view _ _ _ _ V0) as (l1 & E1 & I1 & V1).
  rewrite (run_from_step _ fnLeftParen _ _ _ E1) by lia.
  destruct (lexSemiColon_view _ _ _ _ V1) as (l2 & E2 & I2 & V2).
  { by apply runs_head. }
  rewrite (run_from_step _ fnSemiColon _ _ _ E2) by lia.
  destruct (lexPropertyName_view _ _ _ key (value +:+ "];B[aa])") V2 Hk)
    as (l3 & E3 & I3 & V3).
  rewrite (run_from_step _ fnPropertyName _ _ _ E3) by lia.
  destruct (lexLeftBracket_view _ _ _ value ";B[aa])" fnSemiColon V3 Hv)
    as (l4 & E4 & I4 & V4); [done..|].
  rewrite (run_from_step _ fnLeftBracket _ _ _ E4) by lia.
  destruct (lexSemiColon_view _ _ _ "B[aa])" V4) as (l5 & E5 & I5 & V5); [done|].
  rewrite (run_from_step _ fnSemiColon _ _ _ E5) by lia.
  destruct (lexPropertyName_view _ _ _ "B" "aa])" V5) as (l6 & E6 & I6 & V6).
  { apply runs_cons_ascii; [apply IsLetter_eof|done|done|apply runs_nil]. }
  rewrite (run_from_step _ fnPropertyName _ _ _ E6) by lia.
  destruct (lexLeftBracket_view _ _ _ "aa" ")" fnRightParen V6) as (l7 & E7 & I7 & V7);
    [|done|done|].
  { do 2 (apply runs_cons_ascii; [apply isPropertyValueChar_eof|done|done|]).
    apply runs_nil. }
  rewrite (run_from_step _ fnLeftBracket _ _ _ E7) by lia.
  destruct (lexRightParen_view_end _ _ _ "" V7) as (l8 & E8 & I8); [|done|].
  { unfold follow. simpl. unfold isAlpha. by rewrite IsLetter_eof. }
  rewrite (run_from_step _ fnRightParen _ _ _ E8) by lia. rewrite run_from_None.
  exists l8. split; [done|].
  rewrite I8, I7, I6, I5, I4, I3, I2, I1. simpl.
  rewrite (ToUpper_ascii "B") by done. done.
Qed.

End Views.
End ViewFacts.

(** ** The scanner on every input *)

Module LexerClaims.
Import GoString Lexer LexerFacts TraceFacts ViewFacts.

Lemma take_drop_s n (s : string) : take n s +:+ drop n s = s.
Proof.
  revert s. induction n as [|n IH]; intros [|x s]; simpl; try done.
  rewrite app_cons. by rewrite IH.
Qed.

Section Segments.
Context {G : GoLib} {L : GoLibLaws G}.

Lemma next_view_any l c p r :
  view l c p r ->
  exists l', next l = Ok (rune_here r).1 l' /\ items l' = items l /\
    view l' c (p +:+ take (Z.to_nat (rune_here r).2) r) (drop (Z.to_nat (rune_here r).2) r).
Proof.
  intros H. pose proof (view_wf _ _ _ _ H) as [? ?].
  rewrite next_eq by lia. rewrite (view_rune _ _ _ _ H).
  eexists. split; [done|]. split; [done|].
  destruct (rune_here r) as [ru w] eqn:E. simpl.
  assert (0 <= w <= len r) as Hw.
  { pose proof (view_rune _ _ _ _ H) as Hr. rewrite E in Hr.
    apply rune_at_width in Hr; [|lia].
    destruct H as [Hi Hs Hp]. rewrite Hi, Hp, !len_app in Hr. lia. }
  destruct H as [Hi Hs Hp]. split; simpl.
  - by rewrite app_assoc_s, take_drop_s.
  - done.
  - rewrite Hp, len_app. unfold len in *. rewrite length_take. lia.
Qed.

(** The rest of the input after a semicolon, less one more semicolon. *)
Definition after_semicolon (r : string) : string :=
  if (rune_here r).1 =? 59 then drop (Z.to_nat (rune_here r).2) r else r.

Definition semicolon_text (r : string) : string :=
  if (rune_here r).1 =? 59 then take (Z.to_nat (rune_here r).2) r else "".

(** X2: [lexSemiColon], in all its cases.  One [itemSemiColon] is sent; a
    second semicolon right after it is consumed and sent as nothing; then
    a letter leads to [lexPropertyName], the end of the input to a panic in
    [quoteContext], and any other rune to one [Error] item: property
    expected here, with the offset and the context window. *)
Theorem X2_lexSemiColon_cases (l : lexer) (c p r : string) :
  view l c p (String ";" r) ->
  let r2 := after_semicolon r in
  let c2 := (c +:+ p +:+ ";") +:+ semicolon_text r in
  let semi := mkItem itemSemiColon (len c) (p +:+ ";") in
  if isAlpha (rune_here r2).1 then
    exists l', lexSemiColon l = Ok (Some fnPropertyName) l' /\
      items l' = items l ++ [semi] /\ view l' c2 "" r2
  else if bool_decide (r2 = "") then
    exists l', lexSemiColon l = Panic l' /\ items l' = items l ++ [semi]
  else
    exists l', lexSemiColon l = Ok None l' /\
      items l' = items l ++
        [semi;
         mkItem itemError (len c2)
           (Sprintf0 ("property expected here" +:+ ", position " +:+ pretty (len c2)
                      +:+ ", " +:+ fmt_q (context_of (input l) (len c2))))].
Proof.
  intros H r2 c2 semi. apply bump_view in H.
  destruct (emit_view itemSemiColon _ _ _ _ H) as (l1 & E1 & I1 & V1).
  simpl in I1. change (items l1 = items l ++ [semi]) in I1.
  destruct (peek_view _ _ _ _ V1) as (w & E2).
  pose proof (view_set_width _ w _ _ _ V1) as V2.
  assert (exists l3, (if (rune_here r).1 =? 59 then advance else ret tt) (set_width l1 w)
                     = Ok tt l3 /\ items l3 = items l ++ [semi] /\ view l3 c2 "" r2)
    as (l3 & E3 & I3 & V3).
  { unfold r2, c2, after_semicolon, semicolon_text. destruct (_ =? 59).
    - destruct (next_view_any _ _ _ _ V2) as (l3 & E3 & I3 & V3).
      unfold advance. rewrite (bind_eq _ _ _ _ _ E3). eexists. split; [done|].
      split; [simpl; by rewrite I3|]. apply ignore_view in V3. by rewrite app_nil_s in V3.
    - eexists. split; [done|]. split; [exact I1|]. by rewrite app_empty_r. }
  destruct (peek_view _ _ _ _ V3) as (w3 & E4).
  pose proof (view_set_width _ w3 _ _ _ V3) as V4.
  assert (Hinput : input l3 = input l).
  { destruct V3 as [Hi _ _], H as [Hi' _ _]. simpl in Hi'. rewrite Hi, Hi'.
    unfold c2, r2, after_semicolon, semicolon_text.
    destruct (_ =? 59); rewrite ?app_nil_s, !app_assoc_s, ?take_drop_s; done. }
  assert (Hpos : pos l3 = len c2).
  { destruct V3 as [_ _ Hp]. rewrite Hp, len_empty. lia. }
  assert (Hstart : start l3 = len c2) by (by destruct V3).
  unfold lexSemiColon.
  rewrite (bind_eq (modify _) _ l tt _ eq_refl), (bind_eq _ _ _ _ _ E1),
    (bind_eq _ _ _ _ _ E2), (bind_eq _ _ _ _ _ E3), (bind_eq _ _ _ _ _ E4).
  destruct (isAlpha _); simpl.
  { eexists. split; [done|]. split; [exact I3|done]. }
  pose proof (view_wf _ _ _ _ V3) as [? ?].
  case_bool_decide as Hr2.
  - unfold QuoteErrorContext. unfold bind at 1. unfold bind at 1. unfold get.
    rewrite (bind_panic _ _ _ _ (quoteContext_panic (set_width l3 w3) ltac:(simpl; lia)
                                   ltac:(destruct V3 as [Hi ? Hp]; simpl;
                                         rewrite Hi, Hp, Hr2, !len_app, !len_empty; lia))).
    eexists. split; [done|]. exact I3.
  - assert (pos l3 < len (input l3)).
    { destruct V3 as [Hi ? Hp]. rewrite Hi, Hp, !len_app, len_empty.
      pose proof (len_nonneg c2). assert (0 < len r2); [|lia].
      destruct r2; [done|]. unfold len. simpl. lia. }
    unfold QuoteErrorContext. unfold bind at 1. unfold bind at 1. unfold get.
    rewrite (bind_eq _ _ _ _ _ (quoteContext_eq (set_width l3 w3) ltac:(simpl; lia))).
    unfold ret, errorf, bind, get, modify, send. simpl.
    eexists. split; [done|]. rewrite I3, Hinput, Hpos, Hstart. by rewrite <- app_assoc.
Qed.

Lemma map_snoc_inv {A B} (f : A -> B) (l : list A) (body : list B) (t : B) :
  map f l = body ++ [t] -> exists l' x, l = l' ++ [x] /\ map f l' = body /\ f x = t.
Proof.
  destruct l as [|x l' _] using rev_ind.
  { intros H. by destruct body. }
  rewrite map_app. simpl. intros H. apply app_inj_tail in H as [? ?]. eauto.
Qed.

Lemma forallb_over_map {A B} (f : B -> bool) (g : A -> B) (l : list A) :
  forallb f (map g l) = forallb (fun x => f (g x)) l.
Proof. induction l as [|x l IH]; simpl; [done|]. by rewrite IH. Qed.

(** X1: the scanner stops on every input.  Either it finishes, and then
    the items it sent end in exactly one terminal item ([EOF] or [Error])
    with none before it, or it panics, and then it sent no terminal item
    at all. *)
Theorem X1_scanner_finishes_with_one_terminal_item_or_panics (input : string) :
  match lex input with
  | Ok _ l => exists body t,
      items l = body ++ [t] /\ terminal (typ t) = true /\
      forallb (fun i => negb (terminal (typ i))) body = true
  | Panic l => forallb (fun i => negb (terminal (typ i))) (items l) = true
  | Fuel _ => False
  end.
Proof.
  pose proof (lex_spec input) as H. destruct (lex input) as [[] l|l|l]; [| |done].
  - destruct H as [H _]. apply trace_finished in H as (body & t & Hb & Ht & Hn).
    apply map_snoc_inv in Hb as (its & x & -> & <- & <-).
    exists its, x. rewrite forallb_over_map in Hn. done.
  - destruct H as [H _]. apply trace_panicked in H. by rewrite forallb_over_map in H.
Qed.

End Segments.

Lemma X1_witness :
  match lex (G := AsciiLib.lib) "(;A[b])" with
  | Ok _ l => exists body t,
      items l = body ++ [t] /\ terminal (typ t) = true /\
      forallb (fun i => negb (terminal (typ i))) body = true
  | Panic l => forallb (fun i => negb (terminal (typ i))) (items l) = true
  | Fuel _ => False
  end.
Proof.
  exact (X1_scanner_finishes_with_one_terminal_item_or_panics (L := AsciiLaws.laws) "(;A[b])").
Defined.

Lemma X2_witness :
  view (mkLexer "(;;A" 1 1 0 [mkItem itemLeftParen 0 "("]) "(" "" ";;A" /\
  exists l',
    lexSemiColon (G := AsciiLib.lib) (mkLexer "(;;A" 1 1 0 [mkItem itemLeftParen 0 "("])
    = Ok (Some fnPropertyName) l' /\
    items l' = [mkItem itemLeftParen 0 "("] ++ [mkItem itemSemiColon 1 ";"] /\
    view l' "(;;" "" "A".
Proof.
  assert (V : view (mkLexer "(;;A" 1 1 0 [mkItem itemLeftParen 0 "("]) "(" "" ";;A")
    by (by split).
  split; [exact V|].
  exact (X2_lexSemiColon_cases (G := AsciiLib.lib) _ "(" "" ";A" V).
Defined.

End LexerClaims.

(** ** The claims about [Parse] on every input *)

Module ParseClaims.
Import Lexer(item, itemType, typ, val, ipos, items, mkItem).
Import Lexer(itemEOF, itemError, itemLeftParen, itemRightParen, itemSemiColon,
             itemLeftBracket, itemRightBracket, itemPropertyName, itemPropertyValue).
Import Parser LexerFacts TraceFacts ParserFacts.

(** The items the scanner sent, however it ended. *)
Definition sent (r : Lexer.res unit) : list item :=
  match r with
  | Lexer.Ok _ l | Lexer.Panic l | Lexer.Fuel l => items l
  end.

Definition semicolons (its : list item) : nat :=
  length (filter (fun i => typ i = itemSemiColon) its).


Section Claims.
Context {G : GoLib}.

Lemma semicolons_cons i its :
  semicolons (i :: its)
  = ((if bool_decide (typ i = itemSemiColon) then 1 else 0) + semicolons its)%nat.
Proof.
  unfold semicolons. rewrite filter_cons. case_bool_decide; case_decide; simpl; congruence.
Qed.


Context {L : GoLibLaws G}.

Lemma sent_guarded input : guarded (map typ (sent (Lexer.lex input))) = true.
Proof.
  pose proof (lex_spec input) as H. destruct (Lexer.lex input); simpl; [..|done];
    destruct H as [H _]; by eapply trace_guarded.
Qed.


Lemma terminal_item_is_last (its : list item) (body : list itemType) (t : itemType) (e : item) :
  map typ its = body ++ [t] ->
  forallb (fun t => negb (terminal t)) body = true ->
  e ∈ its -> terminal (typ e) = true ->
  exists its', its = its' ++ [e] /\ map typ its' = body.
Proof.
  intros Hm Hb He Ht.
  destruct its as [|x its0 _] using rev_ind.
  { by apply elem_of_nil in He. }
  rewrite map_app in Hm. simpl in Hm. apply app_inj_tail in Hm as [Hm Hx].
  apply elem_of_app in He as [He|He].
  - exfalso. rewrite forallb_forall in Hb.
    assert (In (typ e) body) as Hin.
    { rewrite <- Hm. apply in_map. by apply list_elem_of_In. }
    specialize (Hb _ Hin). by rewrite Ht in Hb.
  - apply list_elem_of_singleton in He as ->. by exists its0.
Qed.

(** C4: an [Error] item is the last item the scanner sends.  The loop
    consumes the items before it, appends the message to the error list as
    its one new entry, and stops at once, whatever might follow; the record
    returned keeps the heap, the header and the game tree built from the
    items before the error. *)
Theorem C4_error_token_keeps_partial_record
    (h0 : list Node) (g0 : SGFGame) (input : string) (e : item) :
  e ∈ sent (Lexer.lex input) -> typ e = itemError ->
  exists its s,
    sent (Lexer.lex input) = its ++ [e] /\
    Loop (start h0 g0) its = Waiting s /\
    errors (sgf s) = errors g0 /\
    (forall rest,
       Loop (start h0 g0) (its ++ e :: rest)
       = Broke (mkState (heap s) (AddError (sgf s) (val e)) (currentNode s) (prop s)
                        (parsingSetup s) (parsingGame s) (nodeStack s))) /\
    Parse h0 g0 input
    = Returns (heap s)
              (mkSGFGame (gameInfo (sgf s)) (gameTree (sgf s)) (errors g0 ++ [val e])).
Proof.
  intros Hin He.
  pose proof (sent_guarded input) as Hgd.
  pose proof (lex_spec input) as Hspec.
  destruct (Lexer.lex input) as [[] l|l|l] eqn:Hlex; simpl in Hin, Hgd; [| |done].
  2:{ exfalso. destruct Hspec as [Htr _]. apply trace_panicked in Htr.
      rewrite forallb_forall in Htr.
      assert (In (typ e) (map typ (items l))) as Hi by (apply in_map; by apply list_elem_of_In).
      specialize (Htr _ Hi). by rewrite He in Htr. }
  destruct Hspec as [Htr _].
  apply trace_finished in Htr as (body & t & Hbody & Ht & Hnt).
  destruct (terminal_item_is_last _ _ _ e Hbody Hnt Hin) as (its & Hits & Hb);
    [by rewrite He|].
  rewrite Hits, map_app in Hgd. rewrite <- Hb in Hnt.
  destruct (start_inv h0 g0) as [Hinv Hidle].
  destruct (Loop_nonterminal (start h0 g0) its Hinv) as (s & HL & _ & Herr); [|done|].
  { intros _. clear -Hgd. induction its as [|i its IH]; simpl in *; [done|].
    destruct (typ i); auto. }
  exists its, s. split; [done|]. split; [done|]. split; [done|].
  assert (Hrest : forall rest,
            Loop (start h0 g0) (its ++ e :: rest)
            = Broke (mkState (heap s) (AddError (sgf s) (val e)) (currentNode s) (prop s)
                             (parsingSetup s) (parsingGame s) (nodeStack s))).
  { intros rest. rewrite Loop_app, HL. simpl. unfold on_item. by rewrite He. }
  split; [done|].
  unfold Parse. rewrite Hlex, Hits, Hrest. simpl. unfold AddError. by rewrite Herr.
Qed.


Lemma Parse_Returns h0 g0 input h g :
  Parse h0 g0 input = Returns h g ->
  exists its s, Loop (start h0 g0) its = Broke s /\ heap s = h /\ sgf s = g.
Proof.
  unfold Parse. destruct (Lexer.lex input) as [[] l|l|l]; [|done..].
  destruct (Loop _ _) as [s| |s] eqn:E; try done. intros [= <- <-]. eauto.
Qed.

(** C9: on the record a parse returns, [NodeCount] is the length of the
    chain of [next] links from the root, [NthNode] answers an error exactly
    when [n < 1] or [n] exceeds that count and the n-th cell of the chain
    otherwise, and neither looks at anything but the [next] fields: a heap
    with other variations (or properties) gives the same answers. *)
Theorem C9_node_count_and_nth_node_follow_next_only
    (h0 : list Node) (g0 : SGFGame) (input : string) (h : list Node) (g : SGFGame) :
  wf_heap h0 -> game_ok h0 g0 -> Parse h0 g0 input = Returns h g ->
  exists line : list nat,
    chain h (gameTree g) line /\
    NodeCount h g = Some (Z.of_nat (length line)) /\
    (forall n,
       NthNode h g n =
       if n <? 1 then Some (None, Some "n less than 1")
       else if Z.of_nat (length line) <? n then
         Some (None, Some ("n greater than node count ("
                           +:+ pretty (Z.of_nat (length line)) +:+ ")"))
       else Some (line !! Z.to_nat (n - 1), None)) /\
    (forall n, 1 <= n <= Z.of_nat (length line) -> is_Some (line !! Z.to_nat (n - 1))) /\
    (forall h', same_next h h' ->
       NodeCount h' g = NodeCount h g /\ forall n, NthNode h' g n = NthNode h g n).
Proof.
  intros Hwf Hg HP. apply Parse_Returns in HP as (its & s & HL & <- & <-).
  destruct (Loop_wf (start h0 g0) its s) as [Hwf' Hg']; [by split|done|].
  assert (exists line, chain (heap s) (gameTree (sgf s)) line /\
                       (length line <= length (heap s))%nat) as (line & Hc & Hlen).
  { destruct (gameTree (sgf s)) as [r|] eqn:Hr.
    - apply chain_exists; [done|by apply Hg'|lia].
    - exists []. split; [constructor|simpl; lia]. }
  assert (Hcount : NodeCount (heap s) (sgf s) = Some (Z.of_nat (length line))).
  { unfold NodeCount. by rewrite (NodeCount_loop_chain _ _ line). }
  exists line. split; [done|]. split; [done|]. split; [|split].
  - intros n. unfold NthNode. rewrite Hcount. simpl.
    destruct (Z.ltb_spec n 1); [done|].
    destruct (Z.ltb_spec (Z.of_nat (length line)) n); [done|].
    rewrite (advance_chain _ _ line) by (done || lia). done.
  - intros n Hn. apply lookup_lt_is_Some_2. lia.
  - intros h' Hs. assert (HN : NodeCount h' (sgf s) = NodeCount (heap s) (sgf s)).
    { unfold NodeCount. destruct Hs as [Hl ?]. rewrite <- Hl.
      by apply NodeCount_loop_same_next. }
    split; [done|]. intros n. unfold NthNode. rewrite HN.
    by rewrite (advance_same_next (heap s) h').
Qed.

Definition reloc_outcome (h0 : list Node) (o : outcome) : outcome :=
  match o with
  | Returns h g => Returns (reloc h0 h) (reloc_game (length h0) g)
  | Panics => Panics
  | NoAnswer => NoAnswer
  end.

(** A parse into a fresh record does the same at every place of the heap. *)
Lemma Parse_reloc h0 input :
  Parse h0 emptyGame input = reloc_outcome h0 (Parse [] emptyGame input).
Proof.
  unfold Parse. destruct (Lexer.lex input) as [[] l|l|l]; [|done..].
  rewrite start_reloc, Loop_reloc. by destruct (Loop _ _).
Qed.

(** C10: two parses of one document, each into a fresh record and
    whatever the heap holds already, return the same header and error list
    and trees that are equal by value; the tree is finite. *)
Theorem C10_parse_is_deterministic_up_to_addresses
    (input : string) (h1 h2 h1' : list Node) (r1 : SGFGame) :
  Parse h1 emptyGame input = Returns h1' r1 ->
  exists h2' r2,
    Parse h2 emptyGame input = Returns h2' r2 /\
    gameInfo r2 = gameInfo r1 /\ errors r2 = errors r1 /\
    (forall fuel, tree_at fuel h2' (gameTree r2) = tree_at fuel h1' (gameTree r1)) /\
    exists fuel t, tree_at fuel h1' (gameTree r1) = Some t.
Proof.
  rewrite (Parse_reloc h1), (Parse_reloc h2).
  destruct (Parse [] emptyGame input) as [hb gb| |] eqn:HP; simpl; [|done..].
  intros [= <- <-]. eexists _, _. split; [done|]. simpl. split; [done|]. split; [done|].
  split.
  - intros fuel. by rewrite !tree_at_reloc.
  - apply Parse_Returns in HP as (its & s & HL & <- & <-).
    destruct (Loop_wf (start [] emptyGame) its s) as [Hwf Hg]; [|done|].
    { split; simpl; [by intros a n|by intros r]. }
    destruct (tree_at_total (heap s) (gameTree (sgf s)) Hwf) as [t Ht]; [by apply Hg|].
    exists (length (heap s)), t. by rewrite tree_at_reloc.
Qed.

End Claims.
End ParseClaims.

(** ** The claims about particular documents *)

Module DocumentClaims.
Import Lexer(item, itemType, typ, val, ipos, items, mkItem, mkLexer).
Import Lexer(itemEOF, itemError, itemLeftParen, itemRightParen, itemSemiColon,
             itemLeftBracket, itemRightBracket, itemPropertyName, itemPropertyValue).
Import Parser LexerFacts TraceFacts ParserFacts ViewFacts Guard ParseClaims.

Section Claims.
Context {G : GoLib}.

Lemma on_item_sig s i i' : sig i = sig i' -> on_item s i = on_item s i'.
Proof. unfold sig, on_item. by intros [= -> ->]. Qed.

Lemma Loop_sig s its its' : sig <$> its = sig <$> its' -> Loop s its = Loop s its'.
Proof.
  revert s its'. induction its as [|i its IH]; intros s [|i' its'] H; try done.
  injection H as Ht Hval Hrest. simpl.
  rewrite (on_item_sig s i i') by (unfold sig; congruence).
  destruct (on_item s i'); auto.
Qed.

Lemma insert_new (h : list Node) (m n : Node) :
  <[length h := n]> (h ++ [m]) = h ++ [n].
Proof.
  rewrite insert_app_r_alt by lia. by rewrite Nat.sub_diag.
Qed.

Context {L : GoLibLaws G}.

(** C1 (amended): for a document that, once its line breaks are removed,
    reads [(;KEY[value];B[aa])] with [KEY] a non-empty run of letters and
    [value] a run of printable characters other than the right bracket,
    [Parse] returns a record whose header maps the upper-cased [KEY] to
    [value], whose root node itself holds the move [B=aa] and has no next
    node and no variation, and whose error list is the receiver's. *)
Theorem C1_header_and_root_move
    (h0 : list Node) (g0 : SGFGame) (doc key value : string) :
  Lexer.strip_newlines doc = "(;" +:+ key +:+ "[" +:+ value +:+ "];B[aa])" ->
  key <> "" -> runs Lexer.isAlpha key -> runs Lexer.isPropertyValueChar value ->
  Parse h0 g0 doc
  = Returns (h0 ++ [mkNode (mkProperty "B" "aa") [] [] None])
            (mkSGFGame (<[ToUpper (ToUpper key) := value]> (gameInfo g0))
                       (Some (length h0)) (errors g0)).
Proof.
  intros HD Hkey Hk Hv.
  destruct (lex_key_value_move doc key value HD Hkey Hk Hv) as (l & Hlex & Hsig).
  unfold Parse. rewrite Hlex.
  rewrite (Loop_sig _ _
    [mkItem itemLeftParen 0 "("; mkItem itemSemiColon 0 ";";
     mkItem itemPropertyName 0 (ToUpper key); mkItem itemPropertyValue 0 value;
     mkItem itemSemiColon 0 ";"; mkItem itemPropertyName 0 "B";
     mkItem itemPropertyValue 0 "aa"; mkItem itemRightParen 0 ")";
     mkItem itemEOF 0 ""] Hsig).
  cbn [Loop on_item typ val Parser.start parsingGame parsingSetup negb andb heap sgf
       currentNode prop nodeStack gameInfo gameTree errors Parser.name Parser.value
       new continue Pop Push].
  unfold Node_AddProperty. simpl.
  rewrite list_lookup_middle by done. simpl.
  by rewrite insert_new.
Qed.

(** C2 (amended): in the record of [(;GM[1];B[aa](;W[bb])(;W[cc]))] the
    node that holds the move [aa] is the root; it has exactly two variation
    children, in order; each child is an empty node (no move property)
    whose next node holds [W=bb], respectively [W=cc]; the chain of next
    links from the root is the root alone, so no variation is on it. *)
Theorem C2_two_variations_after_the_root (h0 : list Node) :
  let k := length h0 in
  let h := h0 ++ [mkNode (mkProperty "B" "aa") [] [k + 1; k + 3]%nat None;
                  mkNode zeroProperty [] [] (Some (k + 2)%nat);
                  mkNode (mkProperty "W" "bb") [] [] None;
                  mkNode zeroProperty [] [] (Some (k + 4)%nat);
                  mkNode (mkProperty "W" "cc") [] [] None] in
  Parse h0 emptyGame "(;GM[1];B[aa](;W[bb])(;W[cc]))"
  = Returns h (mkSGFGame {["GM" := "1"]} (Some k) []) /\
  chain h (Some k) [k].
Proof.
  intros k h. split.
  - rewrite Parse_reloc. rewrite <- (guard_eq G L).
    replace (Parse [] emptyGame "(;GM[1];B[aa](;W[bb])(;W[cc]))")
      with (Returns [mkNode (mkProperty "B" "aa") [] [1; 3]%nat None;
                     mkNode zeroProperty [] [] (Some 2%nat);
                     mkNode (mkProperty "W" "bb") [] [] None;
                     mkNode zeroProperty [] [] (Some 4%nat);
                     mkNode (mkProperty "W" "cc") [] [] None]
                    (mkSGFGame {["GM" := "1"]} (Some 0%nat) []))
      by (vm_compute; reflexivity).
    unfold reloc_outcome, reloc, reloc_game, shift_node, h, k. simpl.
    by rewrite Nat.add_0_r.
  - econstructor; [by apply list_lookup_middle|]. simpl. constructor.
Qed.

(** C6: in the tree phase, the items of a segment [;AB[aa][bb]] make a new
    node after the current one with exactly two property entries, both
    named [AB], with the values [aa] and [bb] in this order, and no move
    property; on the second semicolon of a document the same holds of the
    root; and so it is in the record of a whole document. *)
Theorem C6_repeated_values_make_repeated_entries :
  (forall (s : state) (a : nat) (p0 p1 p2 p3 : Z) (v0 : string),
     parsingSetup s = false -> parsingGame s = true ->
     currentNode s = Some a -> (a < length (heap s))%nat ->
     exists s',
       Loop s [mkItem itemSemiColon p0 v0; mkItem itemPropertyName p1 "AB";
               mkItem itemPropertyValue p2 "aa"; mkItem itemPropertyValue p3 "bb"]
       = Waiting s' /\
       currentNode s' = Some (length (heap s)) /\
       heap s' !! length (heap s)
       = Some (mkNode zeroProperty [mkProperty "AB" "aa"; mkProperty "AB" "bb"] [] None) /\
       (next <$> heap s' !! a) = Some (Some (length (heap s))) /\
       length (heap s') = S (length (heap s))) /\
  (forall (s : state) (p0 p1 p2 p3 : Z) (v0 : string),
     parsingSetup s = true -> parsingGame s = false ->
     exists s',
       Loop s [mkItem itemSemiColon p0 v0; mkItem itemPropertyName p1 "AB";
               mkItem itemPropertyValue p2 "aa"; mkItem itemPropertyValue p3 "bb"]
       = Waiting s' /\
       gameTree (sgf s') = Some (length (heap s)) /\
       heap s'
       = heap s ++ [mkNode zeroProperty [mkProperty "AB" "aa"; mkProperty "AB" "bb"] [] None]) /\
  Parse [] emptyGame "(;GM[1];B[cd];AB[aa][bb])"
  = Returns [mkNode (mkProperty "B" "cd") [] [] (Some 1%nat);
             mkNode zeroProperty [mkProperty "AB" "aa"; mkProperty "AB" "bb"] [] None]
            (mkSGFGame {["GM" := "1"]} (Some 0%nat) []).
Proof.
  split; [|split].
  - intros s a p0 p1 p2 p3 v0 Hs Hg Hc Ha.
    destruct (lookup_lt_is_Some_2 _ _ Ha) as [n Hn].
    cbn [Loop on_item typ val]. rewrite Hs, Hg. cbn [negb andb].
    unfold NewNode, new. rewrite Hc. simpl. rewrite Hn. simpl.
    unfold Node_AddProperty. simpl.
    rewrite list_lookup_insert_ne by lia. rewrite list_lookup_middle by done. simpl.
    rewrite list_lookup_insert_eq
      by (rewrite length_insert, length_app; simpl; lia). simpl.
    eexists. split; [done|]. simpl. split; [done|].
    rewrite !list_insert_insert_eq.
    rewrite list_lookup_insert_eq by (rewrite length_insert, length_app; simpl; lia).
    split; [done|]. split.
    + rewrite list_lookup_insert_ne by lia.
      rewrite list_lookup_insert_eq by (rewrite length_app; simpl; lia). done.
    + rewrite !length_insert, length_app. simpl. lia.
  - intros s p0 p1 p2 p3 v0 Hs Hg.
    cbn [Loop on_item typ val]. rewrite Hs, Hg. cbn [negb andb new].
    cbn [Loop on_item typ val parsingSetup parsingGame heap sgf currentNode prop
         nodeStack Parser.name continue].
    unfold Node_AddProperty. simpl.
    rewrite list_lookup_middle by done. simpl. rewrite insert_new.
    rewrite list_lookup_middle by done. simpl. rewrite insert_new.
    eexists. split; [done|]. done.
  - rewrite <- (guard_eq G L). vm_compute. reflexivity.
Qed.


End Claims.

(** *** Closed instances: the code at particular inputs *)

#[local] Existing Instance AsciiLib.lib.

(** C5: on the input ["("] the scanner sends [itemLeftParen] and then
    panics in [quoteContext] ([l.input[1:0]]): no terminal item is sent. *)
Theorem C5_lone_left_paren_panics (G : GoLib) :
  Lexer.lex "(" = Lexer.Panic (mkLexer "(" 1 1 0 [mkItem itemLeftParen 0 "("]).
Proof. vm_compute. reflexivity. Qed.

(** C7: on the input ["(;"] the scanner sends [itemLeftParen] and
    [itemSemiColon]; the next rune is the end of the input, which is not
    alphabetic, and the scanner panics in [quoteContext] without sending an
    [Error] item. *)
Theorem C7_semicolon_at_end_of_input_panics (G : GoLib) :
  GoLibLaws G ->
  Lexer.lex "(;"
  = Lexer.Panic (mkLexer "(;" 2 2 0 [mkItem itemLeftParen 0 "("; mkItem itemSemiColon 1 ";"]).
Proof. intros L. rewrite <- (guard_eq G L). vm_compute. reflexivity. Qed.

Lemma C7_witness :
  Lexer.lex (G := AsciiLib.lib) "(;"
  = Lexer.Panic (mkLexer "(;" 2 2 0 [mkItem itemLeftParen 0 "("; mkItem itemSemiColon 1 ";"]).
Proof. exact (C7_semicolon_at_end_of_input_panics AsciiLib.lib AsciiLaws.laws). Defined.

(** C1, as stated, fails: the root node itself holds the move and has no
    next node. *)
Lemma C1_counterexample_root_holds_the_move :
  Parse (G := AsciiLib.lib) [] emptyGame "(;GM[1];B[aa])"
  = Returns [mkNode (mkProperty "B" "aa") [] [] None]
            (mkSGFGame {["GM" := "1"]} (Some 0%nat) []).
Proof. vm_compute. reflexivity. Qed.

Lemma C1_witness :
  Parse (G := AsciiLib.lib) [] emptyGame "(;GM[1];B[aa])"
  = Returns ([] ++ [mkNode (mkProperty "B" "aa") [] [] None])
            (mkSGFGame (<[ToUpper (ToUpper "GM") := "1"]> (gameInfo emptyGame))
                       (Some (length (@nil Node))) (errors emptyGame)).
Proof.
  apply (C1_header_and_root_move (L := AsciiLaws.laws) [] emptyGame "(;GM[1];B[aa])" "GM" "1").
  - reflexivity.
  - discriminate.
  - do 2 (apply runs_cons_ascii; [reflexivity|reflexivity|reflexivity|]). apply runs_nil.
  - apply runs_cons_ascii; [reflexivity|reflexivity|reflexivity|]. apply runs_nil.
Defined.

(** C2, as stated, fails: the two variation children hold no move. *)
Lemma C2_counterexample_variation_children_are_empty :
  exists h g,
    Parse (G := AsciiLib.lib) [] emptyGame "(;GM[1];B[aa](;W[bb])(;W[cc]))" = Returns h g /\
    gameTree g = Some 0%nat /\
    (variations <$> h !! 0%nat) = Some [1; 3]%nat /\
    (point <$> h !! 1%nat) = Some (mkProperty "" "") /\
    (point <$> h !! 3%nat) = Some (mkProperty "" "").
Proof. eexists _, _. split; [vm_compute; reflexivity|]. by vm_compute. Qed.

Lemma C2_witness :
  Parse (G := AsciiLib.lib) [] emptyGame "(;GM[1];B[aa](;W[bb])(;W[cc]))"
  = Returns [mkNode (mkProperty "B" "aa") [] [1; 3]%nat None;
             mkNode zeroProperty [] [] (Some 2%nat);
             mkNode (mkProperty "W" "bb") [] [] None;
             mkNode zeroProperty [] [] (Some 4%nat);
             mkNode (mkProperty "W" "cc") [] [] None]
            (mkSGFGame {["GM" := "1"]} (Some 0%nat) []).
Proof. exact (proj1 (C2_two_variations_after_the_root (L := AsciiLaws.laws) [])). Defined.


Lemma C4_witness :
  let e := mkItem itemError 5 "right bracket ']' expected here (position: 5)" in
  exists its s,
    sent (Lexer.lex "(;A[b") = its ++ [e] /\
    Loop (start [] emptyGame) its = Waiting s /\
    errors (sgf s) = errors emptyGame /\
    (forall rest,
       Loop (start [] emptyGame) (its ++ e :: rest)
       = Broke (mkState (heap s) (AddError (sgf s) (val e)) (currentNode s) (prop s)
                        (parsingSetup s) (parsingGame s) (nodeStack s))) /\
    Parse [] emptyGame "(;A[b"
    = Returns (heap s)
              (mkSGFGame (gameInfo (sgf s)) (gameTree (sgf s))
                         (errors emptyGame ++ [val e])).
Proof.
  intros e.
  refine (C4_error_token_keeps_partial_record (L := AsciiLaws.laws) [] emptyGame "(;A[b" e _ _).
  - apply list_elem_of_In. vm_compute. do 4 right. left. reflexivity.
  - reflexivity.
Defined.

Lemma C6_witness :
  Parse [] emptyGame "(;GM[1];B[cd];AB[aa][bb])"
  = Returns [mkNode (mkProperty "B" "cd") [] [] (Some 1%nat);
             mkNode zeroProperty [mkProperty "AB" "aa"; mkProperty "AB" "bb"] [] None]
            (mkSGFGame {["GM" := "1"]} (Some 0%nat) []).
Proof.
  exact (proj2 (proj2 (C6_repeated_values_make_repeated_entries (L := AsciiLaws.laws)))).
Defined.



Lemma C9_witness :
  exists line : list nat,
    let h := [mkNode (mkProperty "B" "aa") [] [] (Some 1%nat);
              mkNode (mkProperty "W" "bb") [] [2%nat] None;
              mkNode zeroProperty [] [] (Some 3%nat);
              mkNode (mkProperty "B" "cc") [] [] None] in
    let g := mkSGFGame {["GM" := "1"]} (Some 0%nat) [] in
    chain h (gameTree g) line /\
    NodeCount h g = Some (Z.of_nat (length line)) /\
    (forall n,
       NthNode h g n =
       if n <? 1 then Some (None, Some "n less than 1")
       else if Z.of_nat (length line) <? n then
         Some (None, Some ("n greater than node count ("
                           +:+ pretty (Z.of_nat (length line)) +:+ ")"))
       else Some (line !! Z.to_nat (n - 1), None)) /\
    (forall n, 1 <= n <= Z.of_nat (length line) -> is_Some (line !! Z.to_nat (n - 1))) /\
    (forall h', same_next h h' ->
       NodeCount h' g = NodeCount h g /\ forall n, NthNode h' g n = NthNode h g n).
Proof.
  apply (C9_node_count_and_nth_node_follow_next_only [] emptyGame
           "(;GM[1];B[aa];W[bb](;B[cc]))").
  - intros a n H. rewrite lookup_nil in H. discriminate.
  - intros r H. discriminate.
  - vm_compute. reflexivity.
Defined.

Lemma C10_witness :
  exists h2' r2,
    Parse [zeroNode] emptyGame "(;GM[1];B[aa];W[bb](;B[cc]))" = Returns h2' r2 /\
    gameInfo r2 = {["GM" := "1"]} /\ errors r2 = [] /\
    (forall fuel,
       tree_at fuel h2' (gameTree r2)
       = tree_at fuel [mkNode (mkProperty "B" "aa") [] [] (Some 1%nat);
                       mkNode (mkProperty "W" "bb") [] [2%nat] None;
                       mkNode zeroProperty [] [] (Some 3%nat);
                       mkNode (mkProperty "B" "cc") [] [] None] (Some 0%nat)) /\
    exists fuel t,
      tree_at fuel [mkNode (mkProperty "B" "aa") [] [] (Some 1%nat);
                    mkNode (mkProperty "W" "bb") [] [2%nat] None;
                    mkNode zeroProperty [] [] (Some 3%nat);
                    mkNode (mkProperty "B" "cc") [] [] None] (Some 0%nat) = Some t.
Proof.
  refine (C10_parse_is_deterministic_up_to_addresses
           "(;GM[1];B[aa];W[bb](;B[cc]))" [] [zeroNode]
           [mkNode (mkProperty "B" "aa") [] [] (Some 1%nat);
            mkNode (mkProperty "W" "bb") [] [2%nat] None;
            mkNode zeroProperty [] [] (Some 3%nat);
            mkNode (mkProperty "B" "cc") [] [] None]
           (mkSGFGame {["GM" := "1"]} (Some 0%nat) []) _).
  vm_compute. reflexivity.
Defined.


End DocumentClaims.

(** ** Runes below 128 *)

Module DecodeFacts.
Import Lexer LexerFacts ViewFacts.

Lemma lor_ge a b : 0 <= a -> 0 <= b -> a <= Z.lor a b.
Proof.
  intros Ha Hb.
  pose proof (Z.add_lor_land a b) as H1.
  pose proof (Z.add_lor_land (Z.ldiff b a) (Z.land b a)) as H2.
  rewrite Z.lor_ldiff_and in H2.
  assert (Z.land (Z.ldiff b a) (Z.land b a) = 0) as H3.
  { apply Z.bits_inj'. intros n Hn. rewrite !Z.land_spec, Z.ldiff_spec, Z.bits_0.
    destruct (Z.testbit b n), (Z.testbit a n); reflexivity. }
  rewrite H3 in H2.
  assert (0 <= Z.ldiff b a) by (apply Z.ldiff_nonneg; lia).
  rewrite (Z.land_comm b a) in H2. lia.
Qed.

Lemma land_low a n : 0 <= n -> Z.land a (Z.ones n) = a mod 2 ^ n.
Proof. apply Z.land_ones. Qed.

Lemma lor3_ge a b c :
  0 <= a -> 0 <= b -> 0 <= c -> a <= Z.lor (Z.lor a b) c /\ b <= Z.lor (Z.lor a b) c.
Proof.
  intros. pose proof (lor_ge a b). pose proof (lor_ge b a). rewrite (Z.lor_comm b a) in *.
  pose proof (lor_ge (Z.lor a b) c). pose proof (proj2 (Z.lor_nonneg a b)). lia.
Qed.

Lemma lor4_ge a b c d :
  0 <= a -> 0 <= b -> 0 <= c -> 0 <= d ->
  a <= Z.lor (Z.lor (Z.lor a b) c) d /\ b <= Z.lor (Z.lor (Z.lor a b) c) d.
Proof.
  intros. pose proof (lor3_ge a b c). pose proof (lor_ge (Z.lor (Z.lor a b) c) d).
  pose proof (proj2 (Z.lor_nonneg a b)). pose proof (proj2 (Z.lor_nonneg (Z.lor a b) c)). lia.
Qed.

Ltac bools :=
  repeat match goal with
  | H : _ && _ = true |- _ => apply andb_prop in H as [? ?]
  | H : _ || _ = false |- _ => apply orb_false_iff in H as [? ?]
  | H : negb _ = false |- _ => apply negb_false_iff in H
  | H : negb _ = true |- _ => apply negb_true_iff in H
  | H : (_ <=? _) = true |- _ => apply Z.leb_le in H
  | H : (_ <=? _) = false |- _ => apply Z.leb_gt in H
  | H : (_ <? _) = true |- _ => apply Z.ltb_lt in H
  | H : (_ <? _) = false |- _ => apply Z.ltb_ge in H
  | H : (_ =? _) = true |- _ => apply Z.eqb_eq in H
  | H : (_ =? _) = false |- _ => apply Z.eqb_neq in H
  | H : _ && _ = false |- _ => apply andb_false_iff in H as [?|?]
  end.

(** A multi-byte sequence never decodes to a rune below 128, and no
    sequence decodes to a negative rune. *)
Lemma decode_low s r w :
  utf8.DecodeRuneInString s = (r, w) ->
  0 <= r /\ (r < 128 -> exists x t, s = String x t /\ byte x = r /\ w = 1).
Proof.
  destruct s as [|c0 t0]; [intros [= <- <-]; unfold utf8.RuneError; lia|].
  unfold utf8.DecodeRuneInString.
  pose proof (byte_range c0).
  destruct (byte c0 <? 128) eqn:E0.
  { intros [= <- <-]. split; [lia|]. intros _. exists c0, t0. repeat split; lia. }
  apply Z.ltb_ge in E0.
  change 31 with (Z.ones 5). change 63 with (Z.ones 6).
  change 15 with (Z.ones 4). change 7 with (Z.ones 3).
  unfold utf8.first, utf8.cont.
  repeat match goal with
  | |- context [if ?b then _ else _] => destruct b eqn:?
  | |- context [match ?x with _ => _ end] => destruct x eqn:?
  | |- (_, _) = (_, _) -> _ => intros [= <- <-]
  | H : Some _ = Some _ |- _ => injection H as <- <- <-
  | H : Some _ = None |- _ => discriminate H
  | H : None = Some _ |- _ => discriminate H
  end; unfold utf8.RuneError; try lia;
  repeat match goal with
  | c : ascii |- _ => pose proof (byte_range c); generalize dependent (byte c); clear c; intros
  end;
  rewrite ?Z.land_ones, ?Z.shiftl_mul_pow2 by lia;
  change (2 ^ 3) with 8; change (2 ^ 4) with 16; change (2 ^ 5) with 32;
  change (2 ^ 6) with 64; change (2 ^ 12) with 4096; change (2 ^ 18) with 262144;
  bools;
  match goal with
  | |- context [Z.lor (Z.lor (Z.lor ?a ?b) ?c) ?d] =>
    pose proof (lor4_ge a b c d); generalize dependent (Z.lor (Z.lor (Z.lor a b) c) d)
  | |- context [Z.lor (Z.lor ?a ?b) ?c] =>
    pose proof (lor3_ge a b c); generalize dependent (Z.lor (Z.lor a b) c)
  | |- context [Z.lor ?a ?b] =>
    pose proof (lor_ge a b); generalize dependent (Z.lor a b)
  end; intros.
  all: split; [Z.div_mod_to_equations; lia|intros; exfalso; Z.div_mod_to_equations; lia].
Qed.

End DecodeFacts.

(** ** The primitives of the scanner *)

Module ScannerPrimitives.
Import Lexer LexerFacts ViewFacts.

(** X4: [quoteContext] answers only strictly inside the input, and
    panics otherwise, at the end of the input too.  Its answer is the
    (at most 6) bytes before the position, a bar, and the bytes after it up
    to 6, but never the last byte of the input. *)
Theorem X4_quoteContext_window (l : lexer) :
  if (0 <=? pos l) && (pos l <? len (input l)) then
    exists before after,
      quoteContext l = Ok (before +:+ "|" +:+ after) l /\
      slice (input l) (pos l - Z.min 6 (pos l)) (pos l) = Some before /\
      slice (input l) (pos l) (pos l + Z.min 6 (len (input l) - 1 - pos l)) = Some after /\
      len before = Z.min 6 (pos l) /\
      len after = Z.min 6 (len (input l) - 1 - pos l)
  else quoteContext l = Panic l.
Proof.
  destruct (Z.leb_spec 0 (pos l)) as [H0|H0]; cbn [andb].
  2:{ unfold quoteContext, bind, get.
      destruct (pos l - 6 <? 0) eqn:E; [|lia].
      unfold slice at 1. destruct (0 <=? 0) eqn:?, (0 <=? pos l) eqn:?; simpl; try done; lia. }
  destruct (Z.ltb_spec (pos l) (len (input l))) as [H1|H1].
  - rewrite quoteContext_eq by lia. unfold context_of.
    eexists _, _. split; [done|].
    rewrite !slice_ok by lia.
    replace (pos l - Z.min 6 (pos l)) with (Z.max 0 (pos l - 6)) by lia.
    replace (pos l + Z.min 6 (len (input l) - 1 - pos l) - pos l)
      with (Z.min (pos l + 6) (len (input l) - 1) - pos l) by lia.
    split; [done|]. split; [done|].
    unfold len in *. rewrite !length_take, !length_drop. lia.
  - destruct (Z.eq_dec (pos l) (len (input l))) as [E|E].
    + by apply quoteContext_panic.
    + unfold quoteContext, bind, get.
      assert (slice (input l) (if pos l - 6 <? 0 then 0 else pos l - 6) (pos l) = None) as ->.
      { unfold slice. destruct (pos l <=? len (input l)) eqn:?; [lia|].
        by rewrite andb_false_r. }
      done.
Qed.

(** X5: [next] and [peek].  With a negative position both panic.
    Otherwise [next] answers [eof] (and width 0) exactly at or after the
    end of the input; before the end it answers a rune that is not
    negative and moves by its width, at least one byte and never past the
    end.  [peek] answers the same rune and changes nothing but the width. *)
Theorem X5_next_and_peek (l : lexer) :
  if pos l <? 0 then next l = Panic l /\ peek l = Panic l
  else
    exists r w,
      next l = Ok r (mkLexer (input l) (pos l + w) (start l) w (items l)) /\
      peek l = Ok r (mkLexer (input l) (pos l) (start l) w (items l)) /\
      if len (input l) <=? pos l then r = eof /\ w = 0
      else 0 <= r /\ 1 <= w /\ pos l + w <= len (input l).
Proof.
  destruct (Z.ltb_spec (pos l) 0) as [H0|H0].
  - pose proof (len_nonneg (input l)).
    assert (next l = Panic l) as Hn.
    { unfold next, bind, get. destruct (len (input l) <=? pos l) eqn:E; [lia|].
      unfold slice_from, slice. destruct (0 <=? pos l) eqn:?; [lia|]. done. }
    split; [done|]. unfold peek, bind. by rewrite Hn.
  - unfold peek, bind, next, bind, get.
    destruct (len (input l) <=? pos l) eqn:E.
    + exists eof, 0. simpl. unfold set_width, set_pos. simpl.
      repeat split; do 2 f_equal; lia.
    + apply Z.leb_gt in E. rewrite slice_from_ok by lia. simpl.
      destruct (utf8.DecodeRuneInString _) as [r w] eqn:Ed. simpl.
      exists r, w. unfold set_pos; simpl. split; [done|]. split; [do 2 f_equal; lia|].
      pose proof (DecodeFacts.decode_low _ _ _ Ed) as [Hr _].
      apply decode_width in Ed.
      * rewrite len_drop in Ed by (unfold len in *; lia). lia.
      * intros Hd. apply (f_equal String.length) in Hd. rewrite length_drop in Hd.
        simpl in Hd. unfold len in *. lia.
Qed.

Definition LF : ascii := ascii_of_N 10.
Definition CR : ascii := ascii_of_N 13.

Lemma remove_byte_app x a b :
  remove_byte x (a +:+ b) = remove_byte x a +:+ remove_byte x b.
Proof.
  induction a as [|y a IH]; rewrite ?app_nil_s, ?app_cons; simpl; [done|].
  case_bool_decide; rewrite ?app_cons; by rewrite IH.
Qed.

Lemma strings_of_remove x s :
  list_ascii_of_string (remove_byte x s)
  = filter (fun y => y <> x) (list_ascii_of_string s).
Proof.
  induction s as [|y s IH]; simpl; [done|].
  rewrite filter_cons. case_bool_decide; case_decide; simpl; try done; congruence.
Qed.

Lemma strip_newlines_app a b :
  strip_newlines (a +:+ b) = strip_newlines a +:+ strip_newlines b.
Proof. unfold strip_newlines. by rewrite !remove_byte_app. Qed.

(** X6: [strip_newlines] keeps, in order, exactly the bytes that are
    neither a line feed nor a carriage return.  So it commutes with
    concatenation, and stripping twice is stripping once. *)
Theorem X6_strip_newlines_keeps_the_other_bytes (s t : string) :
  list_ascii_of_string (strip_newlines s)
  = filter (fun x => x <> LF /\ x <> CR) (list_ascii_of_string s) /\
  strip_newlines (s +:+ t) = strip_newlines s +:+ strip_newlines t /\
  strip_newlines (strip_newlines s) = strip_newlines s.
Proof.
  assert (H1 : forall s, list_ascii_of_string (strip_newlines s)
                         = filter (fun x => x <> LF /\ x <> CR) (list_ascii_of_string s)).
  { intros u. unfold strip_newlines. rewrite !strings_of_remove. fold LF CR.
    induction (list_ascii_of_string u) as [|y r IH]; [done|].
    rewrite !filter_cons. rewrite <- IH.
    repeat case_decide; rewrite ?filter_cons; repeat case_decide; try done; tauto. }
  split; [apply H1|]. split; [apply strip_newlines_app|].
  rewrite <- (string_of_list_ascii_of_string (strip_newlines (strip_newlines s))).
  rewrite <- (string_of_list_ascii_of_string (strip_newlines s)) at 2.
  f_equal. rewrite H1. rewrite H1.
  rewrite list_filter_filter. apply list_filter_iff. tauto.
Qed.

End ScannerPrimitives.

(** ** The state functions, case by case *)

Module ScannerCases.
Import Lexer LexerFacts TraceFacts ViewFacts LexerClaims DecodeFacts.

Lemma rune_here_nonempty x t :
  0 <= (rune_here (String x t)).1 /\ 1 <= (rune_here (String x t)).2 <= len (String x t).
Proof.
  unfold rune_here. destruct (utf8.DecodeRuneInString (String x t)) as [r w] eqn:E. simpl.
  split; [by apply decode_low in E as [? _]|]. by apply decode_width in E.
Qed.

Lemma rune_here_eof r : (rune_here r).1 = eof <-> r = "".
Proof.
  split; [|by intros ->]. destruct r as [|x t]; [done|].
  pose proof (rune_here_nonempty x t) as [H _]. unfold eof. lia.
Qed.

(** A rune below 128 is one byte of the input. *)
Lemma rune_here_low r k :
  (rune_here r).1 = k -> 0 <= k < 128 ->
  exists x t, r = String x t /\ byte x = k /\ (rune_here r).2 = 1.
Proof.
  destruct r as [|x t]; [simpl; unfold eof; lia|]. unfold rune_here.
  destruct (utf8.DecodeRuneInString (String x t)) as [ru w] eqn:E. simpl. intros -> Hk.
  apply decode_low in E as [_ E]. destruct E as (x' & t' & Hs & Hb & ->); [lia|]. eauto.
Qed.

Lemma byte_inj x y : byte x = byte y -> x = y.
Proof.
  unfold byte. intros H. apply N2Z.inj in H.
  rewrite <- (ascii_N_embedding x), <- (ascii_N_embedding y). by rewrite H.
Qed.

Lemma rune_here_byte r (x : ascii) :
  byte x < 128 -> (rune_here r).1 = byte x -> exists t, r = String x t.
Proof.
  intros Hx H. pose proof (byte_range x).
  apply rune_here_low in H as (y & t & -> & Hy & _); [|lia].
  apply byte_inj in Hy as ->. eauto.
Qed.

(** [span P n r]: the longest run of runes satisfying [P] at the head of
    [r], and what follows it ([n] bounds the number of runes). *)
Fixpoint span (P : Z -> bool) (n : nat) (r : string) : string * string :=
  match n with
  | O => ("", r)
  | S n' =>
    if P (rune_here r).1 then
      let w := Z.to_nat (rune_here r).2 in
      let '(s, r') := span P n' (drop w r) in (take w r +:+ s, r')
    else ("", r)
  end.

Definition run_and_rest (P : Z -> bool) (r : string) : string * string :=
  span P (String.length r) r.

Section Cases.
Context {G : GoLib}.

Lemma next_view_width l c p r :
  view l c p r ->
  exists l', next l = Ok (rune_here r).1 l' /\ items l' = items l /\
    width l' = (rune_here r).2 /\
    view l' c (p +:+ take (Z.to_nat (rune_here r).2) r) (drop (Z.to_nat (rune_here r).2) r).
Proof.
  intros H. destruct (next_view_any _ _ _ _ H) as (l' & E & I & V).
  exists l'. split; [done|]. split; [done|]. split; [|done].
  pose proof (view_wf _ _ _ _ H) as [? ?].
  rewrite next_eq in E by lia. rewrite (view_rune _ _ _ _ H) in E. by injection E as <-.
Qed.

Lemma view_back l c p q r :
  view l c (p +:+ q) r -> width l = len q -> view (set_pos l (pos l - width l)) c p (q +:+ r).
Proof.
  intros [Hi Hs Hp] Hw. split; simpl; [by rewrite Hi, app_assoc_s|done|].
  rewrite Hp, Hw, len_app. lia.
Qed.

Lemma span_fuel P n m r :
  P eof = false -> (String.length r <= n)%nat -> (String.length r <= m)%nat ->
  span P n r = span P m r.
Proof.
  intros HP. revert m r. induction n as [|n IH]; intros m r Hn Hm.
  - destruct r; [|simpl in Hn; lia]. destruct m; simpl; [done|]. by rewrite HP.
  - destruct m as [|m].
    + destruct r; [|simpl in Hm; lia]. simpl. by rewrite HP.
    + simpl. destruct (P (rune_here r).1) eqn:E; [|done].
      destruct r as [|x t]; [simpl in E; congruence|].
      pose proof (rune_here_nonempty x t) as [_ Hw].
      rewrite (IH m); [done|..]; rewrite length_drop; unfold len in Hw; simpl in *; lia.
Qed.

Lemma span_app P n r : (span P n r).1 +:+ (span P n r).2 = r.
Proof.
  revert r. induction n as [|n IH]; intros r; simpl; [done|].
  destruct (P _); [|done]. specialize (IH (drop (Z.to_nat (rune_here r).2) r)).
  destruct (span P n _) as [s r']. simpl in *. by rewrite app_assoc_s, IH, take_drop_s.
Qed.

Lemma span_stop P n r :
  P eof = false -> (String.length r <= n)%nat -> P (rune_here (span P n r).2).1 = false.
Proof.
  intros HP. revert r. induction n as [|n IH]; intros r Hn.
  - destruct r; [|simpl in Hn; lia]. done.
  - simpl. destruct (P (rune_here r).1) eqn:E; [|done].
    destruct r as [|x t]; [simpl in E; congruence|].
    pose proof (rune_here_nonempty x t) as [_ Hw].
    specialize (IH (drop (Z.to_nat (rune_here (String x t)).2) (String x t))).
    destruct (span P n _) as [s r']. apply IH.
    rewrite length_drop. unfold len in Hw. cbn [String.length] in *. lia.
Qed.

(** The loop of [acceptAlphaRun] and [acceptPropertyValueRun] and the
    [backup] after it. *)
Lemma accept_loop_view P n l c p r :
  P eof = false -> view l c p r -> (String.length r < n)%nat ->
  exists l', accept_loop P n l = Ok tt l' /\ items l' = items l /\
    view (set_pos l' (pos l' - width l')) c (p +:+ (span P (String.length r) r).1)
         (span P (String.length r) r).2.
Proof.
  intros HP. revert l p r. induction n as [|n IH]; intros l p r V Hn; [lia|].
  destruct (next_view_width _ _ _ _ V) as (l1 & E1 & I1 & W1 & V1).
  cbn [accept_loop]. rewrite (bind_eq _ _ _ _ _ E1).
  destruct r as [|x t].
  { simpl in *. rewrite HP. exists l1. split; [done|]. split; [done|].
    rewrite W1. replace (pos l1 - 0) with (pos l1) by lia.
    destruct V1 as [Hi Hs Hp]. by split. }
  pose proof (rune_here_nonempty x t) as [_ Hw].
  assert (Hw' : (1 <= Z.to_nat (rune_here (String x t)).2 <= String.length (String x t))%nat)
    by (unfold len in Hw; lia).
  cbn [String.length span]. cbn [String.length] in Hw', Hn.
  destruct (P (rune_here (String x t)).1) eqn:E.
  - set (w := Z.to_nat (rune_here (String x t)).2) in *.
    assert (Hd : (String.length (drop w (String x t)) <= String.length t)%nat).
    { rewrite length_drop. cbn [String.length]. lia. }
    destruct (IH l1 _ _ V1) as (l' & E' & I' & V'); [lia|].
    exists l'. split; [done|]. split; [congruence|].
    rewrite (span_fuel P (String.length t) (String.length (drop w (String x t)))); [|done..].
    destruct (span P _ (drop w (String x t))) as [s r']. simpl in *.
    by rewrite <- app_assoc_s.
  - exists l1. split; [done|]. split; [done|]. simpl fst. simpl snd.
    rewrite app_empty_r.
    assert (Hq : width l1 = len (take (Z.to_nat (rune_here (String x t)).2) (String x t))).
    { rewrite W1. unfold len. rewrite length_take. cbn [String.length]. lia. }
    pose proof (view_back _ _ _ _ _ V1 Hq) as V2. by rewrite take_drop_s in V2.
Qed.

Lemma accept_view_any P l c p r :
  P eof = false -> view l c p r ->
  exists l', (do l0 <- get; accept_loop P (bound l0);; backup) l = Ok tt l' /\
    items l' = items l /\
    view l' c (p +:+ (run_and_rest P r).1) (run_and_rest P r).2.
Proof.
  intros HP V. destruct (accept_loop_view P (bound l) l c p r HP V) as (l' & E & I & V').
  { unfold bound. destruct V as [Hi _ _]. rewrite Hi, !length_app_s. lia. }
  exists (set_pos l' (pos l' - width l')). unfold bind at 1. unfold get.
  rewrite (bind_eq _ _ _ _ _ E). done.
Qed.

Lemma skip_whitespace_any n l c p r :
  view l c p r -> (String.length r < n)%nat ->
  exists l', skip_whitespace n l = Ok tt l' /\ items l' = items l /\
    view l' c (p +:+ (run_and_rest isWhiteSpace r).1) (run_and_rest isWhiteSpace r).2.
Proof.
  unfold run_and_rest. revert l p r. induction n as [|n IH]; intros l p r V Hn; [lia|].
  destruct (peek_view _ _ _ _ V) as (w0 & E0).
  cbn [skip_whitespace]. rewrite (bind_eq _ _ _ _ _ E0).
  destruct r as [|x t].
  { simpl. exists (set_width l w0). split; [done|]. split; [done|].
    rewrite app_empty_r. by apply view_set_width. }
  pose proof (rune_here_nonempty x t) as [_ Hw].
  assert (Hw' : (1 <= Z.to_nat (rune_here (String x t)).2 <= String.length (String x t))%nat)
    by (unfold len in Hw; lia).
  cbn [String.length span]. cbn [String.length] in Hw', Hn.
  destruct (isWhiteSpace (rune_here (String x t)).1) eqn:E.
  - destruct (next_view_width _ _ _ _ (view_set_width _ w0 _ _ _ V)) as (l1 & E1 & I1 & W1 & V1).
    rewrite (bind_eq _ _ _ _ _ E1).
    set (w := Z.to_nat (rune_here (String x t)).2) in *.
    assert (Hd : (String.length (drop w (String x t)) <= String.length t)%nat).
    { rewrite length_drop. cbn [String.length]. lia. }
    destruct (IH l1 _ _ V1) as (l' & E' & I' & V'); [lia|].
    exists l'. split; [done|]. split; [by rewrite I', I1|].
    rewrite (span_fuel isWhiteSpace (String.length t) (String.length (drop w (String x t))));
      [|done..].
    destruct (span _ _ (drop w (String x t))) as [s r']. simpl in *.
    by rewrite <- app_assoc_s.
  - exists (set_width l w0). split; [done|]. split; [done|]. simpl.
    rewrite app_empty_r. by apply view_set_width.
Qed.


(** An error reported through [QuoteErrorContext], with nothing pending. *)
Lemma context_error_view (m : string) l c r :
  view l c "" r ->
  if bool_decide (r = "") then
    exists l', (do m' <- QuoteErrorContext m; errorf (Sprintf0 m')) l = Panic l' /\
               items l' = items l
  else
    exists l', (do m' <- QuoteErrorContext m; errorf (Sprintf0 m')) l = Ok None l' /\
      items l' = items l ++
        [mkItem itemError (len c)
           (Sprintf0 (m +:+ ", position " +:+ pretty (len c) +:+ ", "
                      +:+ fmt_q (context_of (input l) (len c))))].
Proof.
  intros V. pose proof (view_wf _ _ _ _ V) as [? ?].
  assert (Hpos : pos l = len c) by (destruct V as [_ _ Hp]; rewrite Hp, len_empty; lia).
  assert (Hstart : start l = len c) by (by destruct V).
  assert (Hlen : len (input l) = len c + len r).
  { destruct V as [Hi _ _]. by rewrite Hi, app_nil_s, len_app. }
  unfold QuoteErrorContext, bind, get.
  case_bool_decide as Hr.
  - subst r. rewrite len_empty in Hlen.
    rewrite (quoteContext_panic l) by lia. eauto.
  - assert (0 < len r) by (destruct r; [done|]; rewrite len_String; pose proof (len_nonneg r); lia).
    rewrite (quoteContext_eq l) by lia.
    unfold ret, errorf, bind, get, modify, send. simpl.
    eexists. split; [done|]. by rewrite Hpos, Hstart.
Qed.

(** X8: [lexLeftParen], in all its cases.  One [itemLeftParen] is sent,
    whose value is the pending text and the parenthesis; then a semicolon
    leads to [lexSemiColon], the end of the input to a panic in
    [quoteContext], and any other rune to one [Error] item. *)
Theorem X8_lexLeftParen_cases (l : lexer) (c p r : string) :
  view l c p (String "(" r) ->
  let c1 := c +:+ p +:+ "(" in
  let paren := mkItem itemLeftParen (len c) (p +:+ "(") in
  if (rune_here r).1 =? 59 then
    exists l', lexLeftParen l = Ok (Some fnSemiColon) l' /\
      items l' = items l ++ [paren] /\ view l' c1 "" r
  else if bool_decide (r = "") then
    exists l', lexLeftParen l = Panic l' /\ items l' = items l ++ [paren]
  else
    exists l', lexLeftParen l = Ok None l' /\
      items l' = items l ++
        [paren;
         mkItem itemError (len c1)
           (Sprintf0 ("semi-colon expected here" +:+ ", position " +:+ pretty (len c1)
                      +:+ ", " +:+ fmt_q (context_of (input l) (len c1))))].
Proof.
  intros H c1 paren. apply bump_view in H.
  destruct (emit_view itemLeftParen _ _ _ _ H) as (l1 & E1 & I1 & V1).
  simpl in I1. change (items l1 = items l ++ [paren]) in I1.
  destruct (peek_view _ _ _ _ V1) as (w & E2).
  pose proof (view_set_width _ w _ _ _ V1) as V2.
  unfold lexLeftParen.
  rewrite (bind_eq (modify _) _ l tt _ eq_refl), (bind_eq _ _ _ _ _ E1),
    (bind_eq _ _ _ _ _ E2).
  destruct (_ =? 59); simpl.
  { eexists. split; [done|]. split; [exact I1|exact V2]. }
  pose proof (context_error_view "semi-colon expected here" _ _ _ V2) as HE.
  case_bool_decide.
  - destruct HE as (l' & -> & I'). exists l'. split; [done|]. by rewrite I'.
  - destruct HE as (l' & -> & I'). exists l'. split; [done|].
    assert (Hin : input l1 = input l).
    { destruct V1 as [Hi _ _], H as [Hi' _ _]. simpl in Hi'. rewrite Hi, Hi'.
      by rewrite app_nil_s, !app_assoc_s. }
    rewrite I'. simpl. rewrite I1, Hin. by rewrite <- app_assoc.
Qed.

(** X9: [lexRightParen], in all its cases.  One [itemRightParen] is sent;
    then [(], a letter, [)] and [;] lead to their state functions, and
    anything else, the end of the input included, ends the scan with an
    [EOF] item of empty value: [lexRightParen] reports no error and never
    panics. *)
Theorem X9_lexRightParen_cases (l : lexer) (c p r : string) :
  view l c p (String ")" r) ->
  let c1 := c +:+ p +:+ ")" in
  let paren := mkItem itemRightParen (len c) (p +:+ ")") in
  let ru := (rune_here r).1 in
  let next_state :=
    if ru =? 40 then Some fnLeftParen
    else if isAlpha ru then Some fnPropertyName
    else if ru =? 41 then Some fnRightParen
    else if ru =? 59 then Some fnSemiColon
    else None in
  exists l', lexRightParen l = Ok next_state l' /\
    view l' c1 "" r /\
    items l' = items l ++ paren :: match next_state with
                                   | Some _ => []
                                   | None => [mkItem itemEOF (len c1) ""]
                                   end.
Proof.
  intros H c1 paren ru next_state. apply bump_view in H.
  destruct (emit_view itemRightParen _ _ _ _ H) as (l1 & E1 & I1 & V1).
  simpl in I1. change (items l1 = items l ++ [paren]) in I1.
  destruct (peek_view _ _ _ _ V1) as (w1 & E2).
  pose proof (view_set_width _ w1 _ _ _ V1) as V2.
  destruct (peek_view _ _ _ _ V2) as (w2 & E3).
  pose proof (view_set_width _ w2 _ _ _ V2) as V3.
  destruct (peek_view _ _ _ _ V3) as (w3 & E4).
  pose proof (view_set_width _ w3 _ _ _ V3) as V4.
  destruct (peek_view _ _ _ _ V4) as (w4 & E5).
  pose proof (view_set_width _ w4 _ _ _ V4) as V5.
  destruct (emit_view itemEOF _ _ _ _ V5) as (l6 & E6 & I6 & V6).
  unfold lexRightParen, next_state.
  rewrite (bind_eq (modify _) _ l tt _ eq_refl), (bind_eq _ _ _ _ _ E1),
    (bind_eq _ _ _ _ _ E2).
  fold ru. destruct (ru =? 40).
  { eexists. split; [done|]. split; [exact V2|exact I1]. }
  rewrite (bind_eq _ _ _ _ _ E3). fold ru. destruct (isAlpha ru).
  { eexists. split; [done|]. split; [exact V3|exact I1]. }
  rewrite (bind_eq _ _ _ _ _ E4). fold ru. destruct (ru =? 41).
  { eexists. split; [done|]. split; [exact V4|exact I1]. }
  rewrite (bind_eq _ _ _ _ _ E5). fold ru. destruct (ru =? 59).
  { eexists. split; [done|]. split; [exact V5|exact I1]. }
  rewrite (bind_eq _ _ _ _ _ E6). eexists. split; [done|].
  split; [by rewrite app_empty_r in V6|]. rewrite I6. simpl. rewrite I1.
  by rewrite <- app_assoc.
Qed.

Context {L : GoLibLaws G}.

Lemma isAlpha_eof : isAlpha eof = false.
Proof. apply IsLetter_eof. Qed.

(** X10: [lexPropertyName], in all its cases.  The longest run of letters
    is consumed and sent, with the pending text before it, in upper case;
    then [[] leads to [lexLeftBracket], the end of the input to a panic in
    [quoteContext], and any other rune to one [Error] item. *)
Theorem X10_lexPropertyName_cases (l : lexer) (c p r : string) :
  view l c p r ->
  let letters := (run_and_rest isAlpha r).1 in
  let r1 := (run_and_rest isAlpha r).2 in
  let c1 := c +:+ p +:+ letters in
  let name := mkItem itemPropertyName (len c) (ToUpper (p +:+ letters)) in
  if (rune_here r1).1 =? 91 then
    exists l', lexPropertyName l = Ok (Some fnLeftBracket) l' /\
      items l' = items l ++ [name] /\ view l' c1 "" r1
  else if bool_decide (r1 = "") then
    exists l', lexPropertyName l = Panic l' /\ items l' = items l ++ [name]
  else
    exists l', lexPropertyName l = Ok None l' /\
      items l' = items l ++
        [name;
         mkItem itemError (len c1)
           (Sprintf0 ("left bracket '[' expected here" +:+ ", position " +:+ pretty (len c1)
                      +:+ ", " +:+ fmt_q (context_of (input l) (len c1))))].
Proof.
  intros H letters r1 c1 name.
  destruct (accept_view_any isAlpha _ _ _ _ isAlpha_eof H) as (l0 & E0 & I0 & V0).
  fold letters r1 in V0.
  destruct (emit_view itemPropertyName _ _ _ _ V0) as (l1 & E1 & I1 & V1).
  simpl in I1. rewrite I0 in I1. change (items l1 = items l ++ [name]) in I1.
  destruct (peek_view _ _ _ _ V1) as (w & E2).
  pose proof (view_set_width _ w _ _ _ V1) as V2.
  unfold lexPropertyName, acceptAlphaRun.
  rewrite (bind_eq _ _ _ _ _ E0), (bind_eq _ _ _ _ _ E1), (bind_eq _ _ _ _ _ E2).
  destruct (_ =? 91); simpl.
  { eexists. split; [done|]. split; [exact I1|exact V2]. }
  pose proof (context_error_view "left bracket '[' expected here" _ _ _ V2) as HE.
  assert (Hin : input l1 = input l).
  { destruct V1 as [Hi _ _], H as [Hi' _ _]. rewrite Hi, Hi'.
    rewrite app_nil_s. unfold c1. rewrite !app_assoc_s. do 2 f_equal.
    apply span_app. }
  case_bool_decide.
  - destruct HE as (l' & -> & I'). exists l'. split; [done|]. by rewrite I'.
  - destruct HE as (l' & -> & I'). exists l'. split; [done|].
    rewrite I'. simpl. rewrite I1, Hin. by rewrite <- app_assoc.
Qed.


(** X11: [lexLeftBracket], in all its cases.  The bracket is dropped, the
    longest run of value characters is sent as one [itemPropertyValue];
    without a closing bracket the scan ends with an [Error] item, at the
    end of the input too.  After the closing bracket, blanks are read but
    stay pending, so that they open the value of the next item; then the
    next rune chooses the state, or the scan ends with an [Error] item.
    [lexLeftBracket] never panics. *)
Theorem X11_lexLeftBracket_cases (l : lexer) (c p r : string) :
  view l c p (String "[" r) ->
  let value := (run_and_rest isPropertyValueChar r).1 in
  let r1 := (run_and_rest isPropertyValueChar r).2 in
  let c1 := c +:+ p +:+ "[" in
  let item1 := mkItem itemPropertyValue (len c1) value in
  if negb ((rune_here r1).1 =? 93) then
    exists l', lexLeftBracket l = Ok None l' /\
      items l' = items l ++
        [item1;
         mkItem itemError (len (c1 +:+ value))
           ("right bracket ']' expected here (position: "
            +:+ pretty (len (c1 +:+ value)) +:+ ")")]
  else
    let r2 := drop 1 r1 in
    let blanks := (run_and_rest isWhiteSpace r2).1 in
    let r3 := (run_and_rest isWhiteSpace r2).2 in
    let c2 := c1 +:+ value +:+ "]" in
    match follow (rune_here r3).1 with
    | Some f' =>
      exists l', lexLeftBracket l = Ok (Some f') l' /\
        items l' = items l ++ [item1] /\ view l' c2 blanks r3
    | None =>
      exists l', lexLeftBracket l = Ok None l' /\
        items l' = items l ++
          [item1;
           mkItem itemError (len c2)
             ("property or node or parenthesis expected here (position: "
              +:+ pretty (len c2 + len blanks) +:+ "). Found: "
              +:+ fmt_q_rune (rune_here r3).1)]
    end.
Proof.
  intros H value r1 c1 item1.
  destruct (advance_view _ _ _ _ _ H ltac:(done)) as (l1 & E1 & I1 & V1).
  destruct (accept_view_any isPropertyValueChar _ _ _ _ isPropertyValueChar_eof V1)
    as (l2 & E2 & I2 & V2).
  fold value r1 in V2. rewrite app_nil_s in V2.
  destruct (emit_view itemPropertyValue _ _ _ _ V2) as (l3 & E3 & I3 & V3).
  simpl in I3. rewrite I2, I1 in I3. change (items l3 = items l ++ [item1]) in I3.
  destruct (peek_view _ _ _ _ V3) as (w3 & E4).
  pose proof (view_set_width _ w3 _ _ _ V3) as V4.
  unfold lexLeftBracket, acceptPropertyValueRun.
  rewrite (bind_eq _ _ _ _ _ E1), (bind_eq _ _ _ _ _ E2), (bind_eq _ _ _ _ _ E3),
    (bind_eq _ _ _ _ _ E4).
  destruct ((rune_here r1).1 =? 93) eqn:T; unfold negb; cbv iota.
  2:{ unfold errorf, bind, get, modify, ret, send. simpl.
      eexists. split; [done|]. rewrite I3, <- app_assoc. simpl.
      destruct V3 as [_ Hs Hp]. rewrite Hs, Hp, len_empty, Z.add_0_r. done. }
  apply Z.eqb_eq in T. destruct (rune_here_byte r1 "]" ltac:(done) T) as (t & Hr1).
  rewrite Hr1 in *. cbn [drop].
  set (blanks := (run_and_rest isWhiteSpace t).1).
  set (r3 := (run_and_rest isWhiteSpace t).2).
  set (c2 := c1 +:+ value +:+ "]").
  destruct (advance_view _ _ _ _ _ V4 ltac:(done)) as (l5 & E5 & I5 & V5).
  assert (Hc2 : ((c +:+ p +:+ "[") +:+ value) +:+ "]" = c2)
    by (unfold c2, c1; by rewrite (app_assoc_s _ value)).
  rewrite app_nil_s, Hc2 in V5.
  destruct (skip_whitespace_any (bound l5) _ _ _ _ V5) as (l6 & E6 & I6 & V6).
  { unfold bound. destruct V5 as [Hi _ _]. rewrite Hi, !length_app_s. lia. }
  fold blanks r3 in V6. rewrite app_nil_s in V6.
  destruct (peek_view _ _ _ _ V6) as (w6 & E7).
  pose proof (view_set_width _ w6 _ _ _ V6) as V7.
  destruct (peek_view _ _ _ _ V7) as (w7 & E8).
  pose proof (view_set_width _ w7 _ _ _ V7) as V8.
  destruct (peek_view _ _ _ _ V8) as (w8 & E9).
  rewrite (bind_eq _ _ _ _ _ E5).
  rewrite (bind_eq (do l0 <- get; skip_whitespace (bound l0)) _ l5 tt l6)
    by (unfold bind at 1; unfold get; exact E6).
  rewrite (bind_eq _ _ _ _ _ E7).
  assert (I7 : items l6 = items l ++ [item1]) by (by rewrite I6, I5).
  unfold follow.
  destruct (_ =? 91). { eexists. split; [done|]. split; [exact I7|exact V7]. }
  destruct (_ =? 59). { eexists. split; [done|]. split; [exact I7|exact V7]. }
  destruct (_ =? 40). { eexists. split; [done|]. split; [exact I7|exact V7]. }
  destruct (_ =? 41). { eexists. split; [done|]. split; [exact I7|exact V7]. }
  rewrite (bind_eq _ _ _ _ _ E8).
  destruct (isAlpha _). { eexists. split; [done|]. split; [exact I7|exact V8]. }
  unfold bind at 1. unfold get. rewrite (bind_eq _ _ _ _ _ E9).
  unfold errorf, bind, get, modify, ret, send. simpl.
  eexists. split; [done|]. rewrite I7, <- app_assoc. simpl.
  destruct V6 as [_ Hs Hp]. rewrite Hs, Hp. done.
Qed.


End Cases.

(** *** [lexBegin] and the text before the first parenthesis *)

Definition paren : ascii := "("%char.

(** [cut_paren r]: the text of [r] before its first [(], and the text
    after it, if there is one. *)
Fixpoint cut_paren (r : string) : string * option string :=
  match r with
  | EmptyString => ("", None)
  | String x t =>
    if bool_decide (x = paren) then ("", Some t)
    else (String x (cut_paren t).1, (cut_paren t).2)
  end.

Fixpoint no_paren (s : string) : bool :=
  match s with
  | EmptyString => true
  | String x t => negb (bool_decide (x = paren)) && no_paren t
  end.

Lemma cut_paren_app a b :
  no_paren a = true -> cut_paren (a +:+ b) = (a +:+ (cut_paren b).1, (cut_paren b).2).
Proof.
  induction a as [|x a IH]; rewrite ?app_nil_s, ?app_cons; simpl; [by destruct (cut_paren b)|].
  intros H. apply andb_prop in H as [Hx Ha]. apply negb_true_iff in Hx. rewrite Hx.
  by rewrite (IH Ha).
Qed.

Lemma high_not_paren a : 128 <= byte a -> bool_decide (a = paren) = false.
Proof. intros H. apply bool_decide_eq_false_2. intros ->. vm_compute in H. by apply H. Qed.

(** The bytes of one rune hold no [(], unless the first does. *)
Lemma rune_no_paren x t :
  x <> paren ->
  no_paren (take (Z.to_nat (rune_here (String x t)).2) (String x t)) = true.
Proof.
  intros Hx. apply (bool_decide_eq_false_2 _) in Hx.
  unfold rune_here, utf8.DecodeRuneInString.
  unfold utf8.first, utf8.cont.
  repeat match goal with
  | |- context [if ?b then _ else _] => destruct b eqn:?
  | |- context [match ?x with _ => _ end] => destruct x eqn:?
  | H : Some _ = Some _ |- _ => injection H as <- <- <-
  | H : Some _ = None |- _ => discriminate H
  | H : None = Some _ |- _ => discriminate H
  end; simpl; rewrite ?Hx; simpl; try done; bools;
  rewrite ?high_not_paren by lia; done.
Qed.

Section Begin.
Context {G : GoLib}.

Lemma lexBegin_loop_view n l c p r :
  view l c p r -> (String.length r < n)%nat ->
  match (cut_paren r).2 with
  | Some rest =>
    exists l', lexBegin_loop n l = Ok (Some fnLeftParen) l' /\ items l' = items l /\
      view l' c (p +:+ (cut_paren r).1) (String paren rest)
  | None =>
    exists l', lexBegin_loop n l = Ok None l' /\
      items l' = items l ++ [mkItem itemEOF (len c) (p +:+ r)]
  end.
Proof.
  revert l p r. induction n as [|n IH]; intros l p r V Hn; [lia|].
  pose proof (view_wf _ _ _ _ V) as [? ?].
  assert (Hstep : lexBegin_loop (S n) l
                  = if HasPrefix1 r paren then Ok (Some fnLeftParen) l
                    else (do ru <- next;
                          if ru =? eof then emit itemEOF;; ret None
                          else lexBegin_loop n) l).
  { cbn [lexBegin_loop]. unfold bind at 1. unfold get. unfold bind at 1.
    rewrite slice_from_ok by lia. cbn [lift_slice]. unfold ret at 1.
    rewrite (view_rest _ _ _ _ V). by destruct (HasPrefix1 r _). }
  rewrite Hstep. clear Hstep.
  destruct (next_view_width _ _ _ _ V) as (l1 & E1 & I1 & W1 & V1).
  destruct r as [|x t].
  { cbn [HasPrefix1 cut_paren snd]. rewrite (bind_eq _ _ _ _ _ E1).
    change ((rune_here "").1 =? eof) with true. cbv iota.
    simpl in V1. rewrite app_empty_r in V1.
    destruct (emit_view itemEOF _ _ _ _ V1) as (l2 & E2 & I2 & V2).
    rewrite (bind_eq _ _ _ _ _ E2). eexists. split; [done|].
    rewrite I2, I1. simpl. by rewrite app_empty_r. }
  cbn [HasPrefix1 cut_paren]. fold paren. case_bool_decide as Hx.
  { subst x. cbn [snd fst]. exists l. split; [done|]. split; [done|].
    by rewrite app_empty_r. }
  rewrite (bind_eq _ _ _ _ _ E1).
  pose proof (rune_here_nonempty x t) as [Hr Hw].
  destruct ((rune_here (String x t)).1 =? eof) eqn:Ee.
  { apply Z.eqb_eq in Ee. unfold eof in Ee. lia. }
  set (w := Z.to_nat (rune_here (String x t)).2) in *.
  assert (Hd : (String.length (drop w (String x t)) < n)%nat).
  { rewrite length_drop. unfold len in Hw. cbn [String.length] in *. lia. }
  specialize (IH l1 _ _ V1 Hd).
  pose proof (cut_paren_app (take w (String x t)) (drop w (String x t))
                (rune_no_paren x t Hx)) as Hcut.
  rewrite take_drop_s in Hcut. cbn [cut_paren] in Hcut.
  rewrite (bool_decide_eq_false_2 _ Hx) in Hcut.
  cbn [snd fst]. injection Hcut as Hc1 Hc2. rewrite Hc2.
  destruct (cut_paren (drop w (String x t))).2 as [rest|].
  - destruct IH as (l' & E' & I' & V'). exists l'. split; [done|]. split; [congruence|].
    rewrite Hc1. by rewrite <- app_assoc_s.
  - destruct IH as (l' & E' & I'). exists l'. split; [done|]. rewrite I', I1.
    by rewrite app_assoc_s, take_drop_s.
Qed.


Lemma cut_paren_eq r rest :
  (cut_paren r).2 = Some rest -> r = (cut_paren r).1 +:+ String paren rest.
Proof.
  induction r as [|x t IH]; simpl; [done|]. case_bool_decide as Hx; simpl.
  - intros [= ->]. by subst x.
  - intros H. rewrite app_cons. f_equal. by apply IH.
Qed.

Context {L : GoLibLaws G}.

(** X7: [lexBegin] looks for the first [(] and drops nothing.  On an
    input without a parenthesis the scanner sends one item: an [EOF] at
    offset 0 whose value is the whole input, line breaks removed.
    Otherwise the first item is the [itemLeftParen], at offset 0, and its
    value is the text before the parenthesis followed by the parenthesis. *)
Theorem X7_text_before_the_first_paren (doc : string) :
  let s := strip_newlines doc in
  match (cut_paren s).2 with
  | None => exists l, lex doc = Ok tt l /\ items l = [mkItem itemEOF 0 s]
  | Some _ =>
    exists rest,
      ParseClaims.sent (lex doc)
      = mkItem itemLeftParen 0 ((cut_paren s).1 +:+ "(") :: rest
  end.
Proof.
  intros s. unfold lex, run. set (l0 := new_lexer doc).
  assert (V0 : view l0 "" "" s) by (by split).
  pose proof (lexBegin_loop_view (bound l0) l0 "" "" s V0) as HB.
  assert (Hb : bound l0 = S (String.length s)) by done.
  assert (Hrun : run_from (S (bound l0)) (Some fnBegin) l0
                 = match lexBegin_loop (bound l0) l0 with
                   | Ok st l' => run_from (bound l0) st l'
                   | Panic l' => Panic l'
                   | Fuel l' => Fuel l'
                   end) by reflexivity.
  rewrite Hrun, Hb. clear Hrun. rewrite Hb in HB. specialize (HB ltac:(lia)).
  pose proof (cut_paren_eq s) as Hcut.
  destruct (cut_paren s).2 as [rest|].
  2:{ destruct HB as (l1 & -> & I1). exists l1. done. }
  specialize (Hcut _ eq_refl).
  destruct HB as (l1 & -> & I1 & V1). rewrite app_nil_s in V1.
  set (pre := (cut_paren s).1) in *.
  assert (Hrun : run_from (S (String.length s)) (Some fnLeftParen) l1
                 = match lexLeftParen l1 with
                   | Ok st l' => run_from (String.length s) st l'
                   | Panic l' => Panic l'
                   | Fuel l' => Fuel l'
                   end) by reflexivity.
  rewrite Hrun. clear Hrun.
  pose proof (bump_view _ _ _ _ _ V1) as V2.
  destruct (emit_view itemLeftParen _ _ _ _ V2) as (l3 & E3 & I3 & V3).
  simpl in I3. rewrite I1 in I3. simpl in I3.
  destruct (peek_view _ _ _ _ V3) as (w & E4).
  pose proof (view_set_width _ w _ _ _ V3) as V4.
  assert (Hin : input l3 = s).
  { destruct V3 as [Hi _ _]. rewrite Hi, Hcut. by rewrite !app_nil_s, app_assoc_s. }
  assert (Hpos : pos l3 = len pre + 1).
  { destruct V3 as [_ _ Hp]. rewrite Hp. rewrite ?app_nil_s, ?len_app, ?len_one, ?len_empty.
    lia. }
  assert (HLP : lexLeftParen l1
                = (if negb ((rune_here rest).1 =? 59)
                   then do m <- QuoteErrorContext "semi-colon expected here";
                        errorf (Sprintf0 m)
                   else ret (Some fnSemiColon)) (set_width l3 w)).
  { unfold lexLeftParen.
    by rewrite (bind_eq (modify _) _ l1 tt _ eq_refl), (bind_eq _ _ _ _ _ E3),
      (bind_eq _ _ _ _ _ E4). }
  rewrite HLP. clear HLP.
  destruct ((rune_here rest).1 =? 59) eqn:T; cbn [negb].
  - pose proof (run_from_spec (String.length s) fnSemiColon (set_width l3 w)) as HR.
    unfold wp in HR. unfold ret at 1.
    pose proof (view_wf _ _ _ _ V4) as Hwf. pose proof (len_nonneg pre).
    assert (Hlt : pos l3 < len s).
    { rewrite Hpos, Hcut, len_app, len_String.
      destruct rest; [done|]. rewrite len_String. pose proof (len_nonneg rest). lia. }
    destruct (run_from _ _ (set_width l3 w)) as [[] l'|l'|l'].
    + destruct HR as (new & Hnew & _).
      * split; [done|]. simpl. rewrite Hin. split; [done|]. done.
      * unfold fuel_for. simpl. rewrite Hin. unfold len in *. lia.
      * simpl in *. rewrite Hnew, I3. eauto.
    + destruct HR as (new & Hnew & _).
      * split; [done|]. simpl. rewrite Hin. split; [done|]. done.
      * unfold fuel_for. simpl. rewrite Hin. unfold len in *. lia.
      * simpl in *. rewrite Hnew, I3. eauto.
    + exfalso. apply HR.
      * split; [done|]. simpl. rewrite Hin. split; [done|]. done.
      * unfold fuel_for. simpl. rewrite Hin. unfold len in *. lia.
  - pose proof (context_error_view "semi-colon expected here" _ _ _ V4) as HE.
    case_bool_decide.
    + destruct HE as (l' & -> & I'). simpl in *. rewrite I', I3. eauto.
    + destruct HE as (l' & -> & I'). rewrite run_from_None. simpl in *.
      rewrite I', I3. eauto.
Qed.

End Begin.
End ScannerCases.

(** ** [parse.go]: printing *)

Module Printing.
Import Parser.

(** [(p Property).String]: the verb [%s] prints a string as it is. *)
Definition Property_String (p : Property) : string :=
  name p +:+ "[" +:+ value p +:+ "]".

(** [strings.Join] *)
Fixpoint Join (elems : list string) (sep : string) : string :=
  match elems with
  | [] => ""
  | [e] => e
  | e :: rest => e +:+ sep +:+ Join rest sep
  end.

(** [(node *Node).String] *)
Definition Node_String (n : Node) : string :=
  let attrs := [] in
  let attrs := attrs ++ [Property_String (point n)] in
  let attrs := foldl (fun attrs p => attrs ++ [Property_String p]) attrs (properties n) in
  Join attrs "".

End Printing.

(** ** The header and the nodes, property by property *)

Module RecordFacts.
Import Lexer(item, itemType, typ, val, ipos, items, mkItem).
Import Lexer(itemEOF, itemError, itemLeftParen, itemRightParen, itemSemiColon,
             itemLeftBracket, itemRightBracket, itemPropertyName, itemPropertyValue).
Import Parser LexerFacts TraceFacts ParserFacts ViewFacts ParseClaims Printing.

Section Facts.
Context {G : GoLib}.

(** X13: the header is looked up without regard to case, and the last
    value written under a name wins: after a sequence of
    [GameInfo.AddProperty], [GetProperty] answers the value of the last
    property whose upper-cased name is the upper-cased key, and what the
    map held before when there is none. *)
Theorem X13_header_last_write_wins
    (gi : gmap string string) (ps : list Property) (key : string) :
  GetProperty (foldl GameInfo_AddProperty gi ps) key
  = match last (filter (fun p => ToUpper (name p) = ToUpper key) ps) with
    | Some p => Some (value p)
    | None => GetProperty gi key
    end.
Proof.
  induction ps as [|p ps IH] using rev_ind; [done|].
  rewrite foldl_app, filter_app. simpl. unfold GetProperty, GameInfo_AddProperty at 1.
  rewrite filter_cons, filter_nil. case_decide as Hk.
  - rewrite last_snoc, Hk. by rewrite lookup_insert_eq.
  - rewrite app_nil_r. rewrite lookup_insert_ne by done. exact IH.
Qed.

End Facts.

(** The move of a node is a property named [B] or [W]. *)
Definition is_move (p : Property) : Prop := name p = "B" \/ name p = "W".

#[local] Instance is_move_dec p : Decision (is_move p).
Proof. unfold is_move. apply _. Defined.

(** [AddProperty] for each property of [ps] in turn, on the node at [a]. *)
Definition add_all (h : list Node) (a : nat) (ps : list Property) : option (list Node) :=
  foldl (fun oh p => h' ← oh; Node_AddProperty h' (Some a) p) (Some h) ps.

Lemma add_all_cons h a p ps :
  add_all h a (p :: ps) = h' ← Node_AddProperty h (Some a) p; add_all h' a ps.
Proof.
  unfold add_all. cbn [foldl]. change (Some h ≫= _) with (Node_AddProperty h (Some a) p).
  destruct (Node_AddProperty h (Some a) p) as [h'|]; [done|].
  induction ps as [|q ps IH]; [done|]. exact IH.
Qed.

Lemma default_last_cons {A} (d x : A) (l : list A) :
  default d (last (x :: l)) = default x (last l).
Proof.
  revert d x. induction l as [|y l IH]; intros d x; [done|].
  change (last (x :: y :: l)) with (last (y :: l)). by rewrite (IH d y), (IH x y).
Qed.

Lemma Join_snoc (l : list string) (e : string) : Join (l ++ [e]) "" = Join l "" +:+ e.
Proof.
  induction l as [|x l IH]; [done|]. destruct l as [|y l].
  - simpl. by rewrite app_nil_s.
  - change (Join ((x :: y :: l) ++ [e]) "") with (x +:+ "" +:+ Join ((y :: l) ++ [e]) "").
    rewrite IH. change (Join (x :: y :: l) "") with (x +:+ "" +:+ Join (y :: l) "").
    by rewrite !app_nil_s, app_assoc_s.
Qed.

Lemma Node_String_eq n :
  Node_String n
  = Property_String (point n)
    +:+ foldr (fun p s => Property_String p +:+ s) "" (properties n).
Proof.
  unfold Node_String. simpl.
  assert (H : forall ps acc,
            Join (foldl (fun attrs p => attrs ++ [Property_String p]) acc ps) ""
            = Join acc "" +:+ foldr (fun p s => Property_String p +:+ s) "" ps).
  { induction ps as [|p ps IH]; intros acc; simpl; [by rewrite app_empty_r|].
    by rewrite IH, Join_snoc, app_assoc_s. }
  by rewrite H.
Qed.

(** X14: a node keeps one move and every other property.  After
    [AddProperty] for each of [ps], the move of the node is the last
    property of [ps] named [B] or [W] (its old move when there is none),
    its other properties are the old ones followed by the rest of [ps] in
    order, and its links are untouched; [String] prints the move first,
    as [name[value]] (a node without a move prints [[]]), then the other
    properties. *)
Theorem X14_node_keeps_one_move_and_the_rest
    (h : list Node) (a : nat) (n : Node) (ps : list Property) :
  h !! a = Some n ->
  let n' := mkNode (default (point n) (last (filter is_move ps)))
                   (properties n ++ filter (fun p => ~ is_move p) ps)
                   (variations n) (next n) in
  add_all h a ps = Some (<[a := n']> h) /\
  Node_String n'
  = Property_String (point n') +:+
    foldr (fun p s => Property_String p +:+ s) "" (properties n').
Proof.
  intros Hn n'. split; [|apply Node_String_eq]. subst n'.
  revert h n Hn. induction ps as [|p ps IH]; intros h n Hn.
  { unfold add_all. simpl. rewrite app_nil_r. f_equal. destruct n. simpl. symmetry.
    by apply list_insert_id. }
  rewrite add_all_cons. unfold Node_AddProperty. simpl. rewrite Hn. simpl.
  assert (Ha : (a < length h)%nat) by (by eapply lookup_lt_Some).
  rewrite !filter_cons.
  destruct (bool_decide (name p = "B") || bool_decide (name p = "W")) eqn:E.
  - assert (is_move p) as Hm.
    { unfold is_move. apply orb_prop in E as [E|E]; apply bool_decide_eq_true in E; auto. }
    rewrite (decide_True _ _ Hm). rewrite decide_False by tauto. simpl.
    rewrite (IH _ (mkNode p (properties n) (variations n) (next n)))
      by (by apply list_lookup_insert_eq).
    simpl. rewrite list_insert_insert_eq. by rewrite default_last_cons.
  - assert (~ is_move p) as Hm.
    { unfold is_move. apply orb_false_elim in E as [E1 E2].
      apply bool_decide_eq_false in E1, E2. tauto. }
    rewrite (decide_False _ _ Hm). rewrite decide_True by done. simpl.
    rewrite (IH _ (mkNode (point n) (properties n ++ [p]) (variations n) (next n)))
      by (by apply list_lookup_insert_eq).
    simpl. rewrite list_insert_insert_eq. by rewrite <- app_assoc.
Qed.

End RecordFacts.

(** ** [Parse] on a receiver that is not fresh *)

Module ReceiverFacts.
Import Lexer(item, itemType, typ, val, ipos, items, mkItem).
Import Lexer(itemEOF, itemError, itemLeftParen, itemRightParen, itemSemiColon,
             itemLeftBracket, itemRightBracket, itemPropertyName, itemPropertyValue).
Import Parser LexerFacts TraceFacts ParserFacts ViewFacts ParseClaims ScannerPrimitives.

(** The record [g], built by a parse from the empty record on the empty
    heap, carried over to the receiver [g0] on the heap [h0]. *)
Definition merge_game (h0 : list Node) (g0 g : SGFGame) : SGFGame :=
  mkSGFGame (gameInfo g ∪ gameInfo g0)
            (match gameTree g with
             | Some a => Some (length h0 + a)%nat
             | None => gameTree g0
             end)
            (errors g0 ++ errors g).

Definition merge_state (h0 : list Node) (g0 : SGFGame) (s : state) : state :=
  mkState (reloc h0 (heap s)) (merge_game h0 g0 (sgf s))
          (Nat.add (length h0) <$> currentNode s) (prop s)
          (parsingSetup s) (parsingGame s)
          ((fun p : option nat => Nat.add (length h0) <$> p) <$> nodeStack s).

Definition merge_turn (h0 : list Node) (g0 : SGFGame) (t : turn) : turn :=
  match t with
  | Continue s => Continue (merge_state h0 g0 s)
  | Break s => Break (merge_state h0 g0 s)
  | NilDereference => NilDereference
  end.

Definition merge_ending (h0 : list Node) (g0 : SGFGame) (e : ending) : ending :=
  match e with
  | Broke s => Broke (merge_state h0 g0 s)
  | Waiting s => Waiting (merge_state h0 g0 s)
  | Dereferenced => Dereferenced
  end.

Section Facts.
Context {G : GoLib}.

Lemma on_item_merge h0 g0 s i :
  on_item (merge_state h0 g0 s) i = merge_turn h0 g0 (on_item s i).
Proof.
  unfold on_item. destruct (typ i); simpl; try done;
    destruct (parsingSetup s), (parsingGame s); simpl; try done;
    rewrite ?NewVariation_reloc, ?NewNode_reloc, ?Node_AddProperty_reloc;
    try (destruct (NewVariation _ _) as [[h' b]|]; simpl; done);
    try (destruct (NewNode _ _) as [[h' b]|]; simpl; done);
    try (destruct (Node_AddProperty _ _ _) as [h'|]; simpl; done);
    try (destruct (nodeStack s) as [|[p|] st]; simpl; done).
  all: unfold new, merge_state, merge_game, GameInfo_AddProperty, AddError; simpl;
    rewrite ?reloc_length, ?reloc_new, ?insert_union_l, ?app_assoc; done.
Qed.

Lemma Loop_merge h0 g0 s its :
  Loop (merge_state h0 g0 s) its = merge_ending h0 g0 (Loop s its).
Proof.
  revert s. induction its as [|i its IH]; intros s; simpl; [done|].
  rewrite on_item_merge. destruct (on_item s i); simpl; auto.
Qed.

Lemma start_merge h0 g0 : start h0 g0 = merge_state h0 g0 (start [] emptyGame).
Proof.
  unfold start, merge_state, reloc, merge_game. simpl.
  rewrite !app_nil_r, (left_id_L ∅ (∪)). by destruct g0.
Qed.

(** X15: a parse into a receiver that already holds a record is the parse
    into a fresh record, carried over.  The nodes of the heap are left as
    they were and the new nodes come behind them; the header keeps its
    entries, but for the keys the document writes; the errors of the
    document come behind the old errors; the game tree is replaced when the
    document has a root, and kept otherwise. *)
Theorem X15_parse_into_a_used_receiver (h0 : list Node) (g0 : SGFGame) (doc : string) :
  Parse h0 g0 doc
  = match Parse [] emptyGame doc with
    | Returns h g => Returns (h0 ++ (shift_node (length h0) <$> h)) (merge_game h0 g0 g)
    | Panics => Panics
    | NoAnswer => NoAnswer
    end.
Proof.
  unfold Parse. destruct (Lexer.lex doc) as [[] l|l|l]; [|done..].
  rewrite start_merge, Loop_merge. by destruct (Loop _ _).
Qed.

(** X12: line breaks are no part of a document, inside a property value
    as anywhere else: a line feed or a carriage return put into a document
    changes neither the items the scanner sends, nor their offsets, nor
    what [Parse] returns. *)
Theorem X12_line_breaks_are_dropped (h0 : list Node) (g0 : SGFGame) (a b : string) :
  Lexer.lex (a +:+ String LF b) = Lexer.lex (a +:+ b) /\
  Lexer.lex (a +:+ String CR b) = Lexer.lex (a +:+ b) /\
  Parse h0 g0 (a +:+ String LF b) = Parse h0 g0 (a +:+ b) /\
  Parse h0 g0 (a +:+ String CR b) = Parse h0 g0 (a +:+ b).
Proof.
  assert (H : forall x, x = LF \/ x = CR ->
            Lexer.strip_newlines (a +:+ String x b) = Lexer.strip_newlines (a +:+ b)).
  { intros x Hx. rewrite !strip_newlines_app. f_equal.
    destruct Hx as [-> | ->]; reflexivity. }
  assert (HL : forall x, x = LF \/ x = CR ->
            Lexer.lex (a +:+ String x b) = Lexer.lex (a +:+ b)).
  { intros x Hx. unfold Lexer.lex, Lexer.new_lexer. by rewrite (H x Hx). }
  unfold Parse. rewrite !HL by auto. done.
Qed.

End Facts.
End ReceiverFacts.

(** ** The two phases of [Parse] *)

Module PhaseFacts.
Import Lexer(item, itemType, typ, val, ipos, items, mkItem).
Import Lexer(itemEOF, itemError, itemLeftParen, itemRightParen, itemSemiColon,
             itemLeftBracket, itemRightBracket, itemPropertyName, itemPropertyValue).
Import Parser LexerFacts TraceFacts ParserFacts ViewFacts ParseClaims.


Section Facts.
Context {G : GoLib}.




End Facts.
End PhaseFacts.

(** ** The main line of a document without variations *)

Module MainLine.
Import Lexer(item, itemType, typ, val, ipos, items, mkItem).
Import Lexer(itemEOF, itemError, itemLeftParen, itemRightParen, itemSemiColon,
             itemLeftBracket, itemRightBracket, itemPropertyName, itemPropertyValue).
Import Parser LexerFacts TraceFacts ParserFacts ViewFacts ParseClaims.

(** The heap is one line of [k + 1] nodes: each points to the next. *)
Definition line (h : list Node) (k : nat) : Prop :=
  length h = S k /\
  (forall a, (a < k)%nat -> next <$> h !! a = Some (Some (S a))) /\
  next <$> h !! k = Some None.

Definition on_line (s : state) (k : nat) : Prop :=
  parsingGame s = true /\ parsingSetup s = false /\ nodeStack s = [] /\
  gameTree (sgf s) = Some 0%nat /\ currentNode s = Some k /\ line (heap s) k.

Definition no_paren_item (i : item) : Prop := typ i <> itemLeftParen.

Lemma line_chain h k a :
  line h k -> (a <= k)%nat -> chain h (Some a) (seq a (S k - a)).
Proof.
  intros (Hlen & Hnext & Hlast) Ha.
  remember (k - a)%nat as d eqn:Hd. revert a Ha Hd.
  induction d as [|d IH]; intros a Ha Hd.
  - assert (a = k) as -> by lia. replace (S k - k)%nat with 1%nat by lia. simpl.
    destruct (h !! k) as [n|] eqn:En; [|done]. simpl in Hlast. injection Hlast as Hn.
    econstructor; [done|]. rewrite Hn. constructor.
  - replace (S k - a)%nat with (S (S k - S a)) by lia. simpl.
    specialize (Hnext a ltac:(lia)).
    destruct (h !! a) as [n|] eqn:En; [|done]. simpl in Hnext. injection Hnext as Hn.
    econstructor; [done|]. rewrite Hn. apply IH; lia.
Qed.

Lemma line_insert h k n m :
  line h k -> h !! k = Some n -> next m = next n -> line (<[k := m]> h) k.
Proof.
  intros (Hlen & Hnext & Hlast) Hn Hm. split; [by rewrite length_insert|]. split.
  - intros a Ha. rewrite list_lookup_insert_ne by lia. by apply Hnext.
  - rewrite list_lookup_insert_eq by lia. simpl. rewrite Hm. by rewrite Hn in Hlast.
Qed.

Lemma line_grow h k n :
  line h k -> h !! k = Some n ->
  line (<[k := mkNode (point n) (properties n) (variations n) (Some (length h))]>
          (h ++ [zeroNode])) (S k).
Proof.
  intros (Hlen & Hnext & Hlast) Hn. split; [rewrite length_insert, length_app; simpl; lia|].
  split.
  - intros a Ha. destruct (decide (a = k)) as [->|Hne].
    + rewrite list_lookup_insert_eq by (rewrite length_app; simpl; lia). simpl.
      by rewrite Hlen.
    + rewrite list_lookup_insert_ne by done. rewrite lookup_app_l by lia.
      apply Hnext. lia.
  - rewrite list_lookup_insert_ne by lia. rewrite lookup_app_r by lia.
    replace (S k - length h)%nat with 0%nat by lia. done.
Qed.

Section Facts.
Context {G : GoLib}.

Lemma on_line_step s k i :
  on_line s k -> no_paren_item i ->
  match on_item s i with
  | Continue s' => on_line s' (if bool_decide (typ i = itemSemiColon) then S k else k)
  | Break s' => heap s' = heap s /\ gameTree (sgf s') = gameTree (sgf s)
  | NilDereference => False
  end.
Proof.
  intros (Hg & Hs & Hst & Ht & Hc & Hl) Hp. unfold on_item, no_paren_item in *.
  destruct (Hl) as (Hlen & Hnext & Hlast).
  destruct (heap s !! k) as [n|] eqn:En; [|done].
  rewrite Hg, Hs, Hst, Hc. destruct (typ i) eqn:Ety; simpl; try done.
  - unfold NewNode, new. simpl. rewrite En. simpl. unfold on_line. simpl.
    split_and!; try done; [by rewrite Hlen|by apply line_grow].
  - unfold Node_AddProperty. simpl. rewrite En. simpl.
    destruct (_ || _); simpl; unfold on_line; simpl;
      (split_and!; try done; by eapply line_insert).
Qed.

Lemma on_line_Loop its s k s' :
  on_line s k -> Forall no_paren_item its -> Loop s its = Waiting s' ->
  on_line s' (k + semicolons its).
Proof.
  revert s k. induction its as [|i its IH]; intros s k Hs Hp.
  { intros [= <-]. by rewrite Nat.add_0_r. }
  inversion Hp as [|? ? Hi Hits]; subst. cbn [Loop].
  pose proof (on_line_step s k i Hs Hi) as Hstep.
  destruct (on_item s i) as [s1|s1|]; [|done..].
  intros HL. apply (IH _ _ Hstep Hits) in HL. rewrite semicolons_cons.
  case_bool_decide; [|done]. by replace (k + (1 + semicolons its))%nat
                                  with (S k + semicolons its)%nat by lia.
Qed.

Lemma header_then_line its s s' :
  parsingGame s = false -> currentNode s = None -> nodeStack s = [] -> heap s = [] ->
  Forall no_paren_item its -> Loop s its = Waiting s' ->
  let m := (semicolons its + if parsingSetup s then 1 else 0)%nat in
  if (m <? 2)%nat then heap s' = [] /\ gameTree (sgf s') = gameTree (sgf s)
  else gameTree (sgf s') = Some 0%nat /\ line (heap s') (m - 2).
Proof.
  revert s. induction its as [|i its IH]; intros s Hg Hc Hst Hh Hp.
  { intros [= <-]. simpl. by destruct (parsingSetup s). }
  inversion Hp as [|? ? Hi Hits]; subst. cbn [Loop]. rewrite semicolons_cons.
  unfold on_item, no_paren_item in *. rewrite Hg, Hc, Hst.
  destruct (typ i) eqn:Ety; simpl; try done;
    rewrite ?(bool_decide_eq_false_2 (_ = itemSemiColon)) by done;
    rewrite ?(bool_decide_eq_true_2 (itemSemiColon = itemSemiColon)) by done;
    try (intros HL; by apply (IH s) in HL).
  - destruct (parsingSetup s) eqn:Es; cbn [negb andb].
    + intros HL. apply (on_line_Loop its _ 0%nat) in HL; [..|done].
      * destruct HL as (_ & _ & _ & Ht & _ & Hl). cbn [sgf heap Nat.add] in *.
        match goal with |- context [(?a <? ?b)%nat] => destruct (Nat.ltb_spec a b) end;
          [lia|].
        split; [done|].
        match goal with |- line _ ?x => by replace x with (semicolons its) by lia end.
      * unfold on_line, new, line. simpl. rewrite Hh. simpl.
        split_and!; try done; intros; lia.
    + intros HL. apply IH in HL; [|done..]. cbn [parsingSetup sgf] in HL.
      match goal with |- context [(?a <? ?b)%nat] =>
        replace a with (semicolons its + 1)%nat by lia end.
      destruct (_ <? _)%nat; [done|].
      match goal with |- _ /\ line _ ?x =>
        by replace x with (semicolons its + 1 - 2)%nat by lia end.
  - intros HL. apply IH in HL; [|done..]. by simpl in HL.
  - destruct (parsingSetup s) eqn:Es; simpl; [|done].
    intros HL. apply IH in HL; [|done..]. cbn [parsingSetup sgf gameTree] in HL.
    by rewrite ?Es in HL.
Qed.


Context {L : GoLibLaws G}.

(** The items of a finished scan: a terminal item last, none before it,
    and an [itemLeftParen] first, unless the terminal item is all. *)
Lemma sent_shape doc l :
  Lexer.lex doc = Lexer.Ok tt l ->
  exists body t,
    items l = body ++ [t] /\ terminal (typ t) = true /\
    forallb (fun t => negb (terminal t)) (map typ body) = true /\
    match body with [] => True | i :: _ => typ i = itemLeftParen end.
Proof.
  intros Hlex. pose proof (lex_spec doc) as Hs. rewrite Hlex in Hs. destruct Hs as [Htr _].
  pose proof (trace_finished _ _ Htr) as (tb & tt' & Hts & Hterm & Hbody).
  destruct (LexerClaims.map_snoc_inv _ _ _ _ Hts) as (body & t & Hit & Hb & Ht).
  exists body, t. subst tb tt'. split; [done|]. split; [done|]. split; [done|].
  destruct body as [|i body]; [done|]. rewrite Hit in Htr. simpl in Htr.
  inversion Htr as [f Hf| |b f f' ts Hsucc Htr' Hf Hf']; subst.
  - by destruct body.
  - destruct f'; try discriminate. apply trace_head in Htr' as [r ->].
    match goal with H : head _ ++ _ = _ |- _ => simpl in H; by injection H as <- _ end.
Qed.

(** X18: in a document with one opening parenthesis every node but the
    first is a node of the main line.  Parsed into a fresh record,
    [NodeCount] is the number of semicolons less one (0 when there is
    none), and [NthNode n], for [n] from 1 to that count, answers the node
    made by the semicolon number [n + 1]: the cell number [n - 1] of the
    heap, with no error. *)
Theorem X18_node_count_is_semicolons_less_one
    (doc : string) (h : list Node) (g : SGFGame) :
  Parse [] emptyGame doc = Returns h g ->
  (length (filter (fun i => typ i = itemLeftParen) (sent (Lexer.lex doc))) <= 1)%nat ->
  let count := Z.of_nat (semicolons (sent (Lexer.lex doc)) - 1) in
  NodeCount h g = Some count /\
  forall n, 1 <= n <= count -> NthNode h g n = Some (Some (Z.to_nat (n - 1)), None).
Proof.
  unfold Parse. pose proof (sent_guarded doc) as Hgd.
  destruct (Lexer.lex doc) as [[] l|l|l] eqn:Hlex; [|done..].
  destruct (sent_shape doc l Hlex) as (body & t & Hit & Hterm & Hbody & Hfirst).
  cbn [sent] in *. rewrite Hit in *. rewrite Loop_app.
  destruct (start_inv [] emptyGame) as [Hinv Hidle].
  destruct (Loop_nonterminal (start [] emptyGame) body Hinv) as (s1 & HL & Hinv1 & _);
    [|done|].
  { intros _. rewrite map_app in Hgd. clear -Hgd. induction body as [|i body IH]; simpl in *;
      [done|]. destruct (typ i); auto. }
  rewrite HL. cbn [Loop].
  pose proof (on_item_inv s1 t Hinv1) as Hstep.
  destruct (on_item s1 t) as [s2|s2|] eqn:Et; [| |done].
  { destruct Hstep as (_ & _ & _ & _ & Hnt).
    { intros Hid. intros Hv. by rewrite Hv in Hterm. }
    by rewrite Hterm in Hnt. }
  destruct Hstep as (Hh & _ & Htree & _).
  { intros Hid Hv. by rewrite Hv in Hterm. }
  intros [= <- <-] Hcount.
  assert (HNC : NodeCount (heap s2) (sgf s2) = NodeCount (heap s1) (sgf s1))
    by (unfold NodeCount; by rewrite Hh, Htree).
  assert (HNN : forall n, NthNode (heap s2) (sgf s2) n = NthNode (heap s1) (sgf s1) n)
    by (intros n; unfold NthNode, NodeCount; by rewrite Hh, Htree).
  rewrite HNC. setoid_rewrite HNN. clear HNC HNN.
  assert (Hsemi : semicolons (body ++ [t]) = semicolons body).
  { unfold semicolons. rewrite filter_app, length_app, filter_cons, filter_nil.
    case_decide as Hs; [by rewrite Hs in Hterm|simpl; lia]. }
  rewrite Hsemi.
  assert (Hshape : if (semicolons body <? 2)%nat
                   then heap s1 = [] /\ gameTree (sgf s1) = None
                   else gameTree (sgf s1) = Some 0%nat /\
                        line (heap s1) (semicolons body - 2)).
  { destruct body as [|i body]; [by injection HL as <-|].
    cbn [Loop] in HL. unfold on_item in HL. rewrite Hfirst in HL. simpl in HL.
    rewrite semicolons_cons, (bool_decide_eq_false_2 (typ i = itemSemiColon))
      by (by rewrite Hfirst).
    rewrite filter_app, filter_cons, length_app in Hcount.
    rewrite decide_True in Hcount by done. simpl in Hcount.
    assert (Hnone : Forall no_paren_item body).
    { apply Forall_forall. intros j Hj Hp.
      assert (j ∈ filter (fun i => typ i = itemLeftParen) body) as Hin
        by (by apply list_elem_of_filter).
      destruct (filter _ body); [by apply elem_of_nil in Hin|simpl in Hcount; lia]. }
    apply header_then_line in HL; try done. simpl in HL.
    by rewrite Nat.add_0_r in HL. }
  cbv zeta.
  destruct (Nat.ltb_spec (semicolons body) 2) as [Hlt|Hge].
  - destruct Hshape as [Hh1 Ht1].
    replace (semicolons body - 1)%nat with 0%nat by lia.
    split; [unfold NodeCount; by rewrite Hh1, Ht1|]. intros n Hn. lia.
  - destruct Hshape as [Ht1 Hl]. set (k := (semicolons body - 2)%nat) in *.
    pose proof (line_chain _ _ 0%nat Hl ltac:(lia)) as Hch.
    destruct Hl as (Hlen & _).
    assert (Hc : NodeCount (heap s1) (sgf s1) = Some (Z.of_nat (semicolons body - 1))).
    { unfold NodeCount. rewrite Ht1, Hlen.
      rewrite (NodeCount_loop_chain _ _ _ _ _ Hch) by (rewrite length_seq; lia).
      rewrite length_seq. f_equal. lia. }
    split; [done|]. intros n Hn. unfold NthNode.
    destruct (Z.ltb_spec n 1); [lia|]. rewrite Hc. simpl.
    destruct (Z.ltb_spec (Z.of_nat (semicolons body - 1)) n); [lia|].
    rewrite Ht1, (advance_chain _ _ _ _ Hch) by (rewrite length_seq; lia).
    rewrite lookup_seq_lt by lia. done.
Qed.

End Facts.
End MainLine.

(** ** No node is lost *)

Module Reachability.
Import Lexer(item, itemType, typ, val, ipos, items, mkItem).
Import Lexer(itemEOF, itemError, itemLeftParen, itemRightParen, itemSemiColon,
             itemLeftBracket, itemRightBracket, itemPropertyName, itemPropertyValue).
Import Parser LexerFacts TraceFacts ParserFacts ViewFacts ParseClaims.

(** [reach h a c]: from the node at [a], links [next] and [variations]
    lead to the node at [c]. *)
Inductive reach (h : list Node) : nat -> nat -> Prop :=
| reach_here a : reach h a a
| reach_next a n b c :
    h !! a = Some n -> next n = Some b -> reach h b c -> reach h a c
| reach_variation a n b c :
    h !! a = Some n -> b ∈ variations n -> reach h b c -> reach h a c.

(** Every link of [h] is a link of [h']. *)
Definition grows (h h' : list Node) : Prop :=
  forall a n, h !! a = Some n ->
    exists n', h' !! a = Some n' /\
      (forall b, next n = Some b -> next n' = Some b) /\
      (forall b, b ∈ variations n -> b ∈ variations n').

(** A node that has no next node yet. *)
Definition open_end (h : list Node) (a : nat) : Prop :=
  exists n, h !! a = Some n /\ next n = None.

Lemma reach_grows h h' a c : grows h h' -> reach h a c -> reach h' a c.
Proof.
  intros Hg H. induction H as [a|a n b c Hn Hb _ IH|a n b c Hn Hb _ IH].
  - constructor.
  - destruct (Hg a n Hn) as (n' & Hn' & Hnx & _). eapply reach_next; eauto.
  - destruct (Hg a n Hn) as (n' & Hn' & _ & Hv). eapply reach_variation; eauto.
Qed.

Lemma reach_trans h a b c : reach h a b -> reach h b c -> reach h a c.
Proof.
  intros H. induction H; intros Hc; [done|..].
  - eapply reach_next; eauto.
  - eapply reach_variation; eauto.
Qed.

Lemma grows_new h : grows h (h ++ [zeroNode]).
Proof.
  intros a n Hn. exists n. split; [|done]. rewrite lookup_app_l; [done|].
  by eapply lookup_lt_Some.
Qed.

Lemma grows_insert h a n m :
  h !! a = Some n ->
  (forall b, next n = Some b -> next m = Some b) ->
  (forall b, b ∈ variations n -> b ∈ variations m) ->
  grows h (<[a := m]> h).
Proof.
  intros Hn Hnx Hv b k Hk. destruct (decide (a = b)) as [->|Hne].
  - exists m. rewrite list_lookup_insert_eq by (by eapply lookup_lt_Some).
    rewrite Hn in Hk. injection Hk as <-. done.
  - exists k. by rewrite list_lookup_insert_ne.
Qed.

Lemma grows_trans h1 h2 h3 : grows h1 h2 -> grows h2 h3 -> grows h1 h3.
Proof.
  intros H12 H23 a n Hn. destruct (H12 a n Hn) as (n2 & Hn2 & Hx2 & Hv2).
  destruct (H23 a n2 Hn2) as (n3 & Hn3 & Hx3 & Hv3). exists n3. split; [done|].
  split; auto.
Qed.

(** The invariant of the loop of [Parse], on a heap that was [h0]: before
    the tree phase nothing is allocated; in the tree phase the root is the
    first new node, every new node is reached from it, and the current
    node and the nodes of the stack are distinct new nodes without a next
    node. *)
Definition tree_inv (h0 : list Node) (g0 : SGFGame) (s : state) : Prop :=
  if parsingGame s then
    exists c st,
      gameTree (sgf s) = Some (length h0) /\
      currentNode s = Some c /\ nodeStack s = Some <$> st /\
      NoDup (c :: st) /\
      Forall (fun a => (length h0 <= a)%nat /\ open_end (heap s) a) (c :: st) /\
      forall a, (length h0 <= a < length (heap s))%nat -> reach (heap s) (length h0) a
  else heap s = h0 /\ nodeStack s = [] /\ gameTree (sgf s) = gameTree g0 /\
       currentNode s = None.

Lemma open_end_lt h a : open_end h a -> (a < length h)%nat.
Proof. intros (n & Hn & _). by eapply lookup_lt_Some. Qed.

Lemma open_end_keep h h' a :
  h' !! a = h !! a -> open_end h a -> open_end h' a.
Proof. intros He (n & Hn & Hx). exists n. by rewrite He. Qed.

Section Facts.
Context {G : GoLib}.

Lemma on_item_tree_inv h0 g0 s i s' :
  tree_inv h0 g0 s -> on_item s i = Continue s' \/ on_item s i = Break s' ->
  tree_inv h0 g0 s'.
Proof.
  unfold tree_inv, on_item. destruct (parsingGame s) eqn:Eg.
  - intros (c & st & Ht & Hc & Hst & Hnd & Hopen & Hreach).
    inversion Hopen as [|? ? [Hc0 Hco] Hsto]; subst.
    pose proof Hco as (n & Hn & Hnx). pose proof (open_end_lt _ _ Hco) as Hclt.
    assert (Hstlt : Forall (fun a => (a < length (heap s))%nat) st).
    { eapply Forall_impl; [exact Hsto|]. intros a [_ Ha]. by apply open_end_lt. }
    inversion Hnd as [|? ? Hcst Hnst]; subst.
    destruct (typ i) eqn:Ety; simpl.
    + intros [H|H]; [done|]. injection H as <-. simpl. rewrite ?Eg. eauto 10.
    + intros [H|H]; [done|]. injection H as <-. simpl. rewrite ?Eg. eauto 10.
    + (* a variation *)
      rewrite Hc. unfold NewVariation, new. simpl. rewrite Hn. simpl.
      intros [H|H]; [|done]. injection H as <-. simpl. rewrite ?Eg.
      set (b := length (heap s)).
      set (m := mkNode (point n) (properties n) (variations n ++ [b]) (next n)).
      assert (Hg : grows (heap s) (<[c := m]> (heap s ++ [zeroNode]))).
      { eapply grows_trans; [apply grows_new|]. apply grows_insert with n.
        - rewrite lookup_app_l by done. done.
        - done.
        - intros x Hx. apply elem_of_app. by left. }
      assert (Hb : (<[c := m]> (heap s ++ [zeroNode])) !! b = Some zeroNode).
      { rewrite list_lookup_insert_ne by (unfold b; lia).
        rewrite lookup_app_r by (unfold b; lia).
        by replace (b - length (heap s))%nat with 0%nat by (unfold b; lia). }
      assert (Hcm : (<[c := m]> (heap s ++ [zeroNode])) !! c = Some m).
      { apply list_lookup_insert_eq. rewrite length_app. simpl. lia. }
      exists b, (c :: st). split; [done|]. split; [done|]. split; [by rewrite Hst|].
      split.
      { constructor; [|done]. intros Hin. apply elem_of_cons in Hin as [Hin|Hin].
        - unfold b in Hin. lia.
        - rewrite Forall_forall in Hstlt. specialize (Hstlt _ Hin). unfold b in *. lia. }
      split.
      { constructor; [split; [unfold b; lia|by exists zeroNode]|].
        constructor; [split; [done|by exists m]|].
        rewrite Forall_forall in Hsto |- *. intros x Hx. destruct (Hsto x Hx) as [Hx0 Hxo].
        split; [done|]. eapply open_end_keep; [|exact Hxo].
        rewrite list_lookup_insert_ne by (intros ->; done).
        apply lookup_app_l. by apply open_end_lt. }
      intros a Ha. rewrite length_insert, length_app in Ha. simpl in Ha.
      destruct (decide (a = b)) as [->|Hne].
      * apply reach_trans with c; [eapply reach_grows; [exact Hg|apply Hreach; lia]|].
        eapply reach_variation; [exact Hcm| |constructor].
        simpl. apply elem_of_app. right. by apply list_elem_of_singleton.
      * eapply reach_grows; [exact Hg|]. apply Hreach. unfold b in *. lia.
    + (* the end of a variation *)
      rewrite Hst. destruct st as [|x st']; simpl.
      * intros [H|H]; [|done]. injection H as <-. simpl. rewrite ?Eg. exists c, []. eauto 10.
      * intros [H|H]; [|done]. injection H as <-. simpl. rewrite ?Eg.
        exists x, st'. split; [done|]. split; [done|]. split; [done|].
        split; [done|]. split; [done|]. done.
    + (* a new node *)
      rewrite andb_false_r. simpl.
      rewrite Hc. unfold NewNode, new. simpl. rewrite Hn. simpl.
      intros [H|H]; [|done]. injection H as <-. simpl. rewrite ?Eg.
      set (b := length (heap s)).
      set (m := mkNode (point n) (properties n) (variations n) (Some b)).
      assert (Hg : grows (heap s) (<[c := m]> (heap s ++ [zeroNode]))).
      { eapply grows_trans; [apply grows_new|]. apply grows_insert with n.
        - rewrite lookup_app_l by done. done.
        - intros x Hx. congruence.
        - done. }
      assert (Hb : (<[c := m]> (heap s ++ [zeroNode])) !! b = Some zeroNode).
      { rewrite list_lookup_insert_ne by (unfold b; lia).
        rewrite lookup_app_r by (unfold b; lia).
        by replace (b - length (heap s))%nat with 0%nat by (unfold b; lia). }
      assert (Hcm : (<[c := m]> (heap s ++ [zeroNode])) !! c = Some m).
      { apply list_lookup_insert_eq. rewrite length_app. simpl. lia. }
      exists b, st. split; [done|]. split; [done|]. split; [done|].
      split.
      { constructor; [|done]. intros Hin.
        rewrite Forall_forall in Hstlt. specialize (Hstlt _ Hin). unfold b in *. lia. }
      split.
      { constructor; [split; [unfold b; lia|by exists zeroNode]|].
        rewrite Forall_forall in Hsto |- *. intros x Hx. destruct (Hsto x Hx) as [Hx0 Hxo].
        split; [done|]. eapply open_end_keep; [|exact Hxo].
        rewrite list_lookup_insert_ne by (intros ->; done).
        apply lookup_app_l. by apply open_end_lt. }
      intros a Ha. rewrite length_insert, length_app in Ha. simpl in Ha.
      destruct (decide (a = b)) as [->|Hne].
      * apply reach_trans with c; [eapply reach_grows; [exact Hg|apply Hreach; lia]|].
        eapply reach_next; [exact Hcm|done|constructor].
      * eapply reach_grows; [exact Hg|]. apply Hreach. unfold b in *. lia.
    + intros [H|H]; [|done]. injection H as <-. simpl. rewrite ?Eg. eauto 10.
    + intros [H|H]; [|done]. injection H as <-. simpl. rewrite ?Eg. eauto 10.
    + intros [H|H]; [|done]. injection H as <-. simpl. rewrite ?Eg. eauto 10.
    + (* a property *)
      destruct (parsingSetup s).
      { intros [H|H]; [|done]. injection H as <-. simpl. rewrite ?Eg. eauto 10. }
      rewrite Hc. unfold Node_AddProperty. simpl. rewrite Hn. simpl.
      set (m := if bool_decide (name (prop s) = "B") || bool_decide (name (prop s) = "W")
                then mkNode (mkProperty (name (prop s)) (val i)) (properties n)
                            (variations n) (next n)
                else mkNode (point n)
                            (properties n ++ [mkProperty (name (prop s)) (val i)])
                            (variations n) (next n)).
      assert (Hm : next m = next n /\ variations m = variations n)
        by (unfold m; by destruct (_ || _)).
      destruct Hm as [Hmx Hmv].
      assert (Hh : (if bool_decide (name (prop s) = "B") || bool_decide (name (prop s) = "W")
                    then Some (<[c := mkNode (mkProperty (name (prop s)) (val i))
                                          (properties n) (variations n) (next n)]> (heap s))
                    else Some (<[c := mkNode (point n)
                                          (properties n ++ [mkProperty (name (prop s)) (val i)])
                                          (variations n) (next n)]> (heap s)))
                   = Some (<[c := m]> (heap s))) by (unfold m; by destruct (_ || _)).
      rewrite Hh. simpl.
      intros [H|H]; [|done]. injection H as <-. simpl. rewrite ?Eg.
      assert (Hg : grows (heap s) (<[c := m]> (heap s))).
      { apply grows_insert with n; [done|..]; by rewrite ?Hmx, ?Hmv. }
      exists c, st. split; [done|]. split; [done|]. split; [done|]. split; [done|].
      split.
      { constructor.
        - split; [done|]. exists m. rewrite list_lookup_insert_eq by done. by rewrite Hmx.
        - rewrite Forall_forall in Hsto |- *. intros x Hx.
          destruct (Hsto x Hx) as [Hx0 Hxo]. split; [done|].
          eapply open_end_keep; [|exact Hxo].
          apply list_lookup_insert_ne. intros ->. done. }
      intros a Ha. rewrite length_insert in Ha. eapply reach_grows; [exact Hg|]. by apply Hreach.
  - intros (Hh & Hst & Ht & Hcn). destruct (typ i) eqn:Ety; simpl.
    + intros [H|H]; [done|]. injection H as <-. simpl. by rewrite ?Eg.
    + intros [H|H]; [done|]. injection H as <-. simpl. by rewrite ?Eg.
    + intros [H|H]; [|done]. injection H as <-. by rewrite ?Eg.
    + intros [H|H]; [|done]. injection H as <-. by rewrite ?Eg.
    + destruct (parsingSetup s); simpl.
      * intros [H|H]; [|done]. injection H as <-. simpl.
        exists (length (heap s)), []. rewrite Hh. split; [done|]. split; [done|].
        split; [done|]. split; [apply NoDup_singleton|].
        assert (Hz : (h0 ++ [zeroNode]) !! length h0 = Some zeroNode).
        { rewrite lookup_app_r by lia. by rewrite Nat.sub_diag. }
        split; [constructor; [|constructor]; split; [lia|by exists zeroNode]|].
        intros a Ha. rewrite length_app in Ha. simpl in Ha.
        assert (a = length h0) as -> by lia. constructor.
      * intros [H|H]; [|done]. injection H as <-. simpl. by rewrite ?Eg.
    + intros [H|H]; [|done]. injection H as <-. by rewrite ?Eg.
    + intros [H|H]; [|done]. injection H as <-. by rewrite ?Eg.
    + intros [H|H]; [|done]. injection H as <-. simpl. by rewrite ?Eg.
    + destruct (parsingSetup s); simpl.
      * intros [H|H]; [|done]. injection H as <-. simpl. by rewrite ?Eg.
      * rewrite Hcn. simpl. by intros [H|H].
Qed.


Lemma Loop_tree_inv h0 g0 its s s' :
  tree_inv h0 g0 s -> Loop s its = Broke s' -> tree_inv h0 g0 s'.
Proof.
  revert s. induction its as [|i its IH]; intros s Hs; [done|]. cbn [Loop].
  destruct (on_item s i) as [s1|s1|] eqn:E; [| |done].
  - apply IH. eapply on_item_tree_inv; eauto.
  - intros [= <-]. eapply on_item_tree_inv; eauto.
Qed.

(** X16: [Parse] loses no node.  Either it allocates nothing and leaves
    the game tree of the receiver as it was, or the root is the first node
    it allocates and every node it allocates is reached from the root by
    [next] and [variations] links: [NewNode] never overwrites a [next]
    link, and no node is left dangling. *)
Theorem X16_no_node_is_lost
    (h0 : list Node) (g0 : SGFGame) (doc : string) (h : list Node) (g : SGFGame) :
  Parse h0 g0 doc = Returns h g ->
  (h = h0 /\ gameTree g = gameTree g0) \/
  (gameTree g = Some (length h0) /\ (length h0 < length h)%nat /\
   forall a, (length h0 <= a < length h)%nat -> reach h (length h0) a).
Proof.
  unfold Parse. destruct (Lexer.lex doc) as [[] l|l|l]; [|done..].
  destruct (Loop _ _) as [s| |s] eqn:E; [|done..]. intros [= <- <-].
  apply (Loop_tree_inv h0 g0) in E; [|by unfold tree_inv].
  unfold tree_inv in E. destruct (parsingGame s).
  - right. destruct E as (c & st & Ht & _ & _ & _ & Hopen & Hreach).
    split; [done|]. split; [|done].
    inversion Hopen as [|? ? [Hc Hco] _]; subst. apply open_end_lt in Hco. lia.
  - left. by destruct E as (? & _ & ? & _).
Qed.

End Facts.
End Reachability.

(** ** The items are pieces of the input *)

Module TokenFacts.
Import Lexer LexerFacts ViewFacts.

Section Tokens.
Context {G : GoLib}.

(** [tokens s lo its hi]: the items [its] lie in the text [s], in order
    and without overlap, between the offsets [lo] and [hi].  The value of
    an item is the text at its offset (in upper case for a property name);
    an [Error] item takes no text. *)
Inductive tokens (s : string) : Z -> list item -> Z -> Prop :=
| tokens_nil lo hi : lo <= hi -> tokens s lo [] hi
| tokens_error lo i r hi :
    typ i = itemError -> lo <= ipos i -> tokens s (ipos i) r hi ->
    tokens s lo (i :: r) hi
| tokens_text lo i v r hi :
    typ i <> itemError -> lo <= ipos i ->
    slice s (ipos i) (ipos i + len v) = Some v ->
    val i = (if bool_decide (typ i = itemPropertyName) then ToUpper v else v) ->
    tokens s (ipos i + len v) r hi ->
    tokens s lo (i :: r) hi.

Lemma tokens_le s lo its hi : tokens s lo its hi -> lo <= hi.
Proof.
  induction 1 as [| |lo i v r hi _ ? _ _ _ IH]; try lia. pose proof (len_nonneg v). lia.
Qed.

Lemma tokens_app s lo a mid b hi :
  tokens s lo a mid -> tokens s mid b hi -> tokens s lo (a ++ b) hi.
Proof.
  induction 1 as [lo mid Hle| |]; intros Hb; simpl.
  - destruct Hb as [lo' hi Hle'|lo' i r hi Ht Hp Hr|lo' i v r hi Ht Hp Hs Hv Hr].
    + constructor. lia.
    + apply tokens_error; [done|lia|done].
    + eapply tokens_text; [done|lia|done..].
  - apply tokens_error; auto.
  - eapply tokens_text; eauto.
Qed.

Lemma tokens_weaken s lo its hi hi' :
  tokens s lo its hi -> hi <= hi' -> tokens s lo its hi'.
Proof.
  intros H Hle. rewrite <- (app_nil_r its). eapply tokens_app; [exact H|]. by constructor.
Qed.

(** What the scanner keeps true of its state. *)
Definition sent_ok (s : string) (l : lexer) : Prop :=
  input l = s /\ tokens s 0 (items l) (start l).

Definition steady (s : string) (l : lexer) : Prop :=
  sent_ok s l /\ start l <= pos l.

Definition stepped (s : string) (l : lexer) : Prop :=
  steady s l /\ start l <= pos l - width l.

(** [holds m Q E l]: from [l], [m] ends in a state of [Q], or stops, by a
    panic or at its bound, in a state of [E]. *)
Definition holds {A} (m : M A) (Q : A -> lexer -> Prop) (E : lexer -> Prop) (l : lexer)
  : Prop :=
  match m l with Ok a l' => Q a l' | Panic l' | Fuel l' => E l' end.

Lemma holds_ret {A} (a : A) (Q : A -> lexer -> Prop) E l : Q a l -> holds (ret a) Q E l.
Proof. done. Qed.

Lemma holds_bind {A B} (m : M A) (f : A -> M B) Q E l :
  holds m (fun a l' => holds (f a) Q E l') E l -> holds (bind m f) Q E l.
Proof. unfold holds, bind. destruct (m l); auto. Qed.

Lemma holds_get Q E l : Q l l -> holds get Q E l.
Proof. done. Qed.

Lemma holds_modify f Q E l : Q tt (f l) -> holds (modify f) Q E l.
Proof. done. Qed.

Lemma holds_mono {A} (m : M A) (Q Q' : A -> lexer -> Prop) (E : lexer -> Prop) l :
  holds m Q E l -> (forall a l', Q a l' -> Q' a l') -> holds m Q' E l.
Proof. unfold holds. destruct (m l); auto. Qed.

Lemma holds_slice (o : option string) (Q : string -> lexer -> Prop) (E : lexer -> Prop) l :
  E l -> (forall v, o = Some v -> Q v l) -> holds (lift_slice o) Q E l.
Proof. intros HE HQ. destruct o; simpl; [by apply HQ|done]. Qed.

Lemma steady_sent s l : steady s l -> sent_ok s l.
Proof. by intros [? _]. Qed.

Lemma next_steps s l :
  steady s l -> holds next (fun _ l' => stepped s l') (sent_ok s) l.
Proof.
  intros [[Hi Ht] Hp]. pose proof (tokens_le _ _ _ _ Ht) as H0.
  unfold next. apply holds_bind, holds_get.
  destruct (Z.leb_spec (len (input l)) (pos l)) as [Hle|Hlt].
  - apply holds_bind, holds_modify, holds_ret.
    unfold stepped, steady, sent_ok. simpl. repeat split; try done; lia.
  - apply holds_bind, holds_slice; [done|]. intros v Hv.
    rewrite slice_from_ok in Hv by lia. injection Hv as <-.
    destruct (utf8.DecodeRuneInString _) as [r w] eqn:Ed.
    apply decode_width in Ed.
    2:{ intros Hd. apply (f_equal String.length) in Hd. rewrite length_drop in Hd.
        simpl in Hd. unfold len in *. lia. }
    apply holds_bind, holds_modify, holds_bind, holds_modify, holds_ret.
    unfold stepped, steady, sent_ok. simpl. rewrite len_drop in Ed by (unfold len in *; lia).
    repeat split; try done; lia.
Qed.

Lemma backup_steady s l :
  stepped s l -> holds backup (fun _ l' => steady s l') (sent_ok s) l.
Proof.
  intros [[[Hi Ht] Hp] Hw]. unfold backup. apply holds_modify.
  unfold steady, sent_ok. simpl. repeat split; try done; lia.
Qed.

Lemma peek_steady s l :
  steady s l -> holds peek (fun _ l' => steady s l') (sent_ok s) l.
Proof.
  intros H. unfold peek. apply holds_bind.
  eapply holds_mono; [by apply next_steps|]. intros r l1 H1. simpl.
  apply holds_bind. eapply holds_mono; [by apply backup_steady|]. intros ? l2 Hl2.
  by apply holds_ret.
Qed.

Lemma slice_len s lo hi v : slice s lo hi = Some v -> len v = hi - lo /\ 0 <= lo <= hi.
Proof.
  unfold slice.
  destruct (Z.leb_spec 0 lo), (Z.leb_spec lo hi), (Z.leb_spec hi (len s)); simpl; try done.
  intros [= <-]. unfold len in *. rewrite length_take, length_drop. lia.
Qed.

Lemma emit_steady t s l :
  t <> itemError ->
  steady s l -> holds (emit t) (fun _ l' => steady s l') (sent_ok s) l.
Proof.
  intros Hne [[Hi Ht] Hp]. unfold emit. apply holds_bind, holds_get.
  apply holds_bind, holds_slice; [done|]. intros v Hv.
  destruct (slice_len _ _ _ _ Hv) as [Hlen _].
  apply holds_bind, holds_modify, holds_modify.
  unfold steady, sent_ok. simpl. split; [|lia]. split; [done|].
  eapply tokens_app; [exact Ht|].
  eapply (tokens_text s _ _ v); simpl.
  - by destruct (bool_decide (t = itemPropertyName)).
  - destruct (bool_decide (t = itemPropertyName)); simpl; lia.
  - replace (ipos _) with (start l) by (by destruct (bool_decide (t = itemPropertyName))).
    rewrite <- Hi. by replace (start l + len v) with (pos l) by lia.
  - by destruct (bool_decide (t = itemPropertyName)) eqn:E; simpl; rewrite E.
  - replace (ipos _) with (start l) by (by destruct (bool_decide (t = itemPropertyName))).
    constructor. lia.
Qed.

Lemma ignore_steady s l :
  steady s l -> holds ignore (fun _ l' => steady s l') (sent_ok s) l.
Proof.
  intros [[Hi Ht] Hp]. unfold ignore. apply holds_modify.
  unfold steady, sent_ok. simpl. split; [|lia]. split; [done|]. by eapply tokens_weaken.
Qed.

Lemma advance_steady s l :
  steady s l -> holds advance (fun _ l' => steady s l') (sent_ok s) l.
Proof.
  intros H. unfold advance. apply holds_bind.
  eapply holds_mono; [by apply next_steps|]. intros r l1 [H1 _]. by apply ignore_steady.
Qed.

Lemma errorf_steady msg s l :
  steady s l -> holds (errorf msg) (fun _ l' => steady s l') (sent_ok s) l.
Proof.
  intros [[Hi Ht] Hp]. unfold errorf. apply holds_bind, holds_get.
  apply holds_bind, holds_modify, holds_ret.
  unfold steady, sent_ok. simpl. split; [|done]. split; [done|].
  eapply tokens_app; [exact Ht|]. apply tokens_error; simpl; [done|lia|]. constructor. lia.
Qed.

Lemma quoteContext_same l :
  holds quoteContext (fun _ l' => l' = l) (fun l' => l' = l) l.
Proof.
  unfold quoteContext. apply holds_bind, holds_get.
  apply holds_bind, holds_slice; [done|]. intros v _.
  apply holds_bind, holds_slice; [done|]. intros v' _. by apply holds_ret.
Qed.

Lemma context_error_steady m s l :
  steady s l ->
  holds (do m' <- QuoteErrorContext m; errorf (Sprintf0 m'))
        (fun _ l' => steady s l') (sent_ok s) l.
Proof.
  intros H. apply holds_bind. unfold QuoteErrorContext.
  apply holds_bind, holds_get. apply holds_bind.
  pose proof (quoteContext_same l) as Hq. unfold holds in *.
  destruct (quoteContext l) as [ctx l'|l'|l']; subst; try by apply steady_sent.
  simpl. by apply errorf_steady.
Qed.

Lemma accept_loop_steps P n s l :
  steady s l -> holds (accept_loop P n) (fun _ l' => stepped s l') (sent_ok s) l.
Proof.
  revert l. induction n as [|n IH]; intros l H; [by apply steady_sent|].
  cbn [accept_loop]. apply holds_bind.
  eapply holds_mono; [by apply next_steps|]. intros r l1 H1. simpl.
  destruct (P r); [apply IH; by destruct H1|by apply holds_ret].
Qed.

Lemma accept_run_steady P s l :
  steady s l ->
  holds (do l0 <- get; accept_loop P (bound l0);; backup)
        (fun _ l' => steady s l') (sent_ok s) l.
Proof.
  intros H. apply holds_bind, holds_get. apply holds_bind.
  eapply holds_mono; [by apply accept_loop_steps|]. intros ? l1 Hl1. by apply backup_steady.
Qed.

Lemma skip_whitespace_steady n s l :
  steady s l -> holds (skip_whitespace n) (fun _ l' => steady s l') (sent_ok s) l.
Proof.
  revert l. induction n as [|n IH]; intros l H; [by apply steady_sent|].
  cbn [skip_whitespace]. apply holds_bind.
  eapply holds_mono; [by apply peek_steady|]. intros r l1 H1. simpl.
  destruct (isWhiteSpace r); [|by apply holds_ret].
  apply holds_bind. eapply holds_mono; [by apply next_steps|]. intros r' l2 [H2 _].
  by apply IH.
Qed.

Lemma bump_steady s l : steady s l -> steady s (set_pos l (pos l + 1)).
Proof. intros [[Hi Ht] Hp]. unfold steady, sent_ok. simpl. split; [done|lia]. Qed.

Ltac solve_steady :=
  first [ done
        | match goal with H : stepped _ ?l |- steady _ ?l => exact (proj1 H) end ].

Ltac step_with lem :=
  apply holds_bind; eapply holds_mono; [apply lem; solve_steady|]; cbv beta; intros.

Lemma lexBegin_loop_steady n s l :
  steady s l -> holds (lexBegin_loop n) (fun _ l' => steady s l') (sent_ok s) l.
Proof.
  revert l. induction n as [|n IH]; intros l H; [by apply steady_sent|].
  cbn [lexBegin_loop]. apply holds_bind, holds_get.
  apply holds_bind, holds_slice; [by apply steady_sent|]. intros v _.
  destruct (HasPrefix1 v _); [by apply holds_ret|].
  step_with next_steps. destruct (_ =? eof).
  - step_with emit_steady. by apply holds_ret.
  - apply IH. by destruct H0.
Qed.

Lemma call_steady f s l :
  steady s l -> holds (call f) (fun _ l' => steady s l') (sent_ok s) l.
Proof.
  intros H. destruct f; simpl.
  - unfold lexBegin. apply holds_bind, holds_get. by apply lexBegin_loop_steady.
  - unfold lexLeftParen. apply holds_bind, holds_modify. apply bump_steady in H.
    step_with emit_steady. step_with peek_steady.
    destruct (negb _); [by apply context_error_steady|by apply holds_ret].
  - unfold lexRightParen. apply holds_bind, holds_modify. apply bump_steady in H.
    step_with emit_steady. step_with peek_steady.
    destruct (_ =? 40); [by apply holds_ret|]. step_with peek_steady.
    destruct (isAlpha _); [by apply holds_ret|]. step_with peek_steady.
    destruct (_ =? 41); [by apply holds_ret|]. step_with peek_steady.
    destruct (_ =? 59); [by apply holds_ret|]. step_with emit_steady. by apply holds_ret.
  - unfold lexSemiColon. apply holds_bind, holds_modify. apply bump_steady in H.
    step_with emit_steady. step_with peek_steady.
    assert (Hrest : forall lx, steady s lx ->
              holds (do r' <- peek;
                     if negb (isAlpha r') then
                       do m <- QuoteErrorContext "property expected here";
                       errorf (Sprintf0 m)
                     else ret (Some fnPropertyName))
                    (fun _ l' => steady s l') (sent_ok s) lx).
    { intros lx Hx. step_with peek_steady.
      destruct (negb _); [by apply context_error_steady|by apply holds_ret]. }
    apply holds_bind. destruct (_ =? 59).
    + eapply holds_mono; [by apply advance_steady|]. intros ? lx Hx. by apply Hrest.
    + apply holds_ret. by apply Hrest.
  - unfold lexPropertyName, acceptAlphaRun. step_with accept_run_steady.
    step_with emit_steady. step_with peek_steady.
    destruct (negb _); [by apply context_error_steady|by apply holds_ret].
  - unfold lexLeftBracket, acceptPropertyValueRun. step_with advance_steady.
    step_with accept_run_steady. step_with emit_steady. step_with peek_steady.
    destruct (negb _).
    { apply holds_bind, holds_get. by apply errorf_steady. }
    step_with advance_steady.
    apply holds_bind. apply holds_bind, holds_get.
    eapply holds_mono; [by apply skip_whitespace_steady|]. cbv beta. intros.
    step_with peek_steady.
    destruct (_ =? 91); [by apply holds_ret|].
    destruct (_ =? 59); [by apply holds_ret|].
    destruct (_ =? 40); [by apply holds_ret|].
    destruct (_ =? 41); [by apply holds_ret|].
    step_with peek_steady. destruct (isAlpha _); [by apply holds_ret|].
    apply holds_bind, holds_get. step_with peek_steady. by apply errorf_steady.
Qed.

Lemma run_from_steady fuel st s l :
  steady s l -> holds (run_from fuel st) (fun _ l' => sent_ok s l') (sent_ok s) l.
Proof.
  revert st l. induction fuel as [|fuel IH]; intros [f|] l H; simpl;
    try by apply steady_sent.
  apply holds_bind. eapply holds_mono; [by apply call_steady|]. cbv beta. intros st' l' H'.
  by apply IH.
Qed.

(** X19: the items are pieces of the document, in order.  Whatever the
    scanner sends, to the end or until it panics, each item that is no
    [Error] carries the text of the document (line breaks removed) that
    starts at its offset, a property name in upper case; the items come in
    the order of the text and do not overlap, and an [Error] item stands
    at the end of the last item's text or behind it. *)
Theorem X19_items_are_pieces_of_the_document (doc : string) :
  exists hi, tokens (strip_newlines doc) 0 (ParseClaims.sent (lex doc)) hi.
Proof.
  pose proof (run_from_steady (S (bound (new_lexer doc))) (Some fnBegin)
                (strip_newlines doc) (new_lexer doc)) as H.
  unfold holds in H. unfold lex, run.
  assert (H0 : steady (strip_newlines doc) (new_lexer doc)).
  { unfold steady, sent_ok, new_lexer. simpl. split; [|done]. split; [done|].
    by constructor. }
  specialize (H H0).
  destruct (run_from _ _ _) as [u l|l|l]; destruct H as [_ Ht]; by exists (start l).
Qed.

End Tokens.
End TokenFacts.

(** ** The nodes of a document without variations *)

Module LineContents.
Import Lexer(item, itemType, typ, val, ipos, items, mkItem).
Import Lexer(itemEOF, itemError, itemLeftParen, itemRightParen, itemSemiColon,
             itemLeftBracket, itemRightBracket, itemPropertyName, itemPropertyValue).
Import Parser LexerFacts TraceFacts ParserFacts ViewFacts ParseClaims RecordFacts MainLine.

(** The move among the properties [ps] of a node, and the other properties. *)
Definition move_of (ps : list Property) : Property :=
  default zeroProperty (last (filter is_move ps)).

Definition others_of (ps : list Property) : list Property :=
  filter (fun p => ~ is_move p) ps.

(** The nodes of a line, one for each group of properties, the first at
    the address [k]: each points to the next. *)
Fixpoint build (k : nat) (gs : list (list Property)) : list Node :=
  match gs with
  | [] => []
  | ps :: r =>
    mkNode (move_of ps) (others_of ps) []
           (match r with [] => None | _ :: _ => Some (S k) end)
    :: build (S k) r
  end.

(** The groups of properties that the items complete: a semicolon closes
    the group [cur] and opens the next, a terminal item ends the list. *)
Fixpoint split_nodes (pending : string) (done : list (list Property))
    (cur : list Property) (its : list item) : list (list Property) :=
  match its with
  | [] => done ++ [cur]
  | i :: r =>
    match typ i with
    | itemSemiColon => split_nodes pending (done ++ [cur]) [] r
    | itemPropertyName => split_nodes (val i) done cur r
    | itemPropertyValue => split_nodes pending done (cur ++ [mkProperty pending (val i)]) r
    | itemEOF | itemError => done ++ [cur]
    | _ => split_nodes pending done cur r
    end
  end.

(** The items after the semicolon number [k + 1], with the property name
    that is pending there; [None] when the items end before. *)
Fixpoint tree_items (k : nat) (pending : string) (its : list item)
  : option (string * list item) :=
  match its with
  | [] => None
  | i :: r =>
    match typ i with
    | itemSemiColon =>
      match k with O => Some (pending, r) | S k' => tree_items k' pending r end
    | itemPropertyName => tree_items k (val i) r
    | itemEOF | itemError => None
    | _ => tree_items k pending r
    end
  end.

Lemma move_of_snoc ps p :
  move_of (ps ++ [p]) = if decide (is_move p) then p else move_of ps.
Proof.
  unfold move_of. rewrite filter_app, filter_cons, filter_nil.
  case_decide; [by rewrite last_snoc|by rewrite app_nil_r].
Qed.

Lemma others_of_snoc ps p :
  others_of (ps ++ [p]) = if decide (is_move p) then others_of ps else others_of ps ++ [p].
Proof.
  unfold others_of. rewrite filter_app, filter_cons, filter_nil.
  repeat case_decide; try tauto; by rewrite ?app_nil_r.
Qed.

Lemma build_length k gs : length (build k gs) = length gs.
Proof. revert k. induction gs as [|ps r IH]; intros k; simpl; [done|]. by rewrite IH. Qed.

Lemma build_last k d c :
  build k (d ++ [c]) !! length d = Some (mkNode (move_of c) (others_of c) [] None).
Proof.
  revert k. induction d as [|x d IH]; intros k; simpl; [done|]. apply IH.
Qed.

Lemma build_replace k d c c' :
  <[length d := mkNode (move_of c') (others_of c') [] None]> (build k (d ++ [c]))
  = build k (d ++ [c']).
Proof.
  revert k. induction d as [|x d IH]; intros k; simpl; [done|].
  rewrite IH. by destruct d.
Qed.

Lemma build_grow k d c :
  <[length d := mkNode (move_of c) (others_of c) [] (Some (S (k + length d)))]>
    (build k (d ++ [c]) ++ [zeroNode])
  = build k ((d ++ [c]) ++ [[]]).
Proof.
  revert k. induction d as [|x d IH]; intros k; simpl.
  - by rewrite Nat.add_0_r.
  - specialize (IH (S k)). replace (S (S k + length d)) with (S (k + S (length d))) in IH by lia.
    rewrite IH. by destruct d.
Qed.

(** The state in the tree phase of a document without variations. *)
Definition in_line (s : state) (pending : string) (done : list (list Property))
    (cur : list Property) : Prop :=
  parsingGame s = true /\ parsingSetup s = false /\ nodeStack s = [] /\
  gameTree (sgf s) = Some 0%nat /\ currentNode s = Some (length done) /\
  name (prop s) = pending /\ heap s = build 0 (done ++ [cur]).

Section Facts.
Context {G : GoLib}.

Lemma in_line_Loop its s pending done cur s' :
  in_line s pending done cur -> Forall no_paren_item its -> Loop s its = Waiting s' ->
  gameTree (sgf s') = Some 0%nat /\ heap s' = build 0 (split_nodes pending done cur its).
Proof.
  revert s pending done cur. induction its as [|i its IH]; intros s pending done cur Hs Hp.
  { intros [= <-]. by destruct Hs as (_ & _ & _ & ? & _ & _ & ?). }
  inversion Hp as [|? ? Hi Hits]; subst. cbn [Loop split_nodes].
  destruct Hs as (Hg & Hs & Hst & Ht & Hc & Hn & Hh).
  unfold on_item, no_paren_item in *. rewrite Hg, Hs, Hst, Hc.
  pose proof (build_last 0 done cur) as Hlast. rewrite <- Hh in Hlast.
  destruct (typ i) eqn:Ety; simpl; try done.
  - (* [)] *) apply IH; [|done]. by repeat split.
  - (* [;] *)
    unfold NewNode, new. simpl. rewrite Hlast. simpl. apply IH; [|done].
    unfold in_line. simpl. split_and!; try done.
    + rewrite Hh, build_length, !length_app. simpl. f_equal; lia.
    + rewrite Hh, build_length, length_app. simpl.
      replace (length done + 1)%nat with (S (0 + length done)) by lia.
      apply build_grow.
  - apply IH; [|done]. by repeat split.
  - apply IH; [|done]. by repeat split.
  - apply IH; [|done]. by repeat split.
  - (* a property *)
    unfold Node_AddProperty. simpl. rewrite Hlast. simpl. rewrite Hn.
    set (p := mkProperty pending (val i)).
    assert (Hnew : (if bool_decide (pending = "B") || bool_decide (pending = "W")
                    then Some (<[length done := mkNode p (others_of cur) [] None]> (heap s))
                    else Some (<[length done := mkNode (move_of cur) (others_of cur ++ [p])
                                                       [] None]> (heap s)))
                   = Some (build 0 (done ++ [cur ++ [p]]))).
    { rewrite <- (build_replace 0 done cur (cur ++ [p])), <- Hh.
      rewrite move_of_snoc, others_of_snoc.
      destruct (bool_decide (pending = "B") || bool_decide (pending = "W")) eqn:E.
      - rewrite !decide_True; [done|..];
          unfold is_move; simpl; apply orb_prop in E as [E|E];
          apply bool_decide_eq_true in E; auto.
      - apply orb_false_elim in E as [E1 E2]. apply bool_decide_eq_false in E1, E2.
        rewrite !decide_False; [done|..]; unfold is_move; simpl; tauto. }
    rewrite Hnew. simpl. apply IH; [|done]. by repeat split.
Qed.

Lemma header_then_contents its s s' :
  parsingGame s = false -> currentNode s = None -> nodeStack s = [] -> heap s = [] ->
  gameTree (sgf s) = None ->
  Forall no_paren_item its -> Loop s its = Waiting s' ->
  match tree_items (if parsingSetup s then 0 else 1) (name (prop s)) its with
  | Some (pending, r) =>
    gameTree (sgf s') = Some 0%nat /\ heap s' = build 0 (split_nodes pending [] [] r)
  | None => gameTree (sgf s') = None /\ heap s' = []
  end.
Proof.
  revert s. induction its as [|i its IH]; intros s Hg Hc Hst Hh Ht Hp.
  { by intros [= <-]. }
  inversion Hp as [|? ? Hi Hits]; subst. cbn [Loop tree_items].
  unfold on_item, no_paren_item in *. rewrite Hg, Hc, Hst.
  destruct (typ i) eqn:Ety; simpl; try done;
    try (intros HL; by apply (IH s) in HL).
  - destruct (parsingSetup s) eqn:Es; simpl.
    + intros HL. apply (in_line_Loop its _ (name (prop s)) [] []) in HL; [done| |done].
      unfold in_line, new. simpl. rewrite Hh. by repeat split.
    + intros HL. apply IH in HL; [|done..]. by simpl in HL.
  - intros HL. apply IH in HL; [|done..]. by simpl in HL.
  - destruct (parsingSetup s) eqn:Es; simpl; [|done].
    intros HL. apply IH in HL; [|done..]. simpl in HL. by rewrite ?Es in HL.
Qed.

Lemma split_nodes_terminal pending done cur body t :
  forallb (fun t => negb (terminal t)) (map typ body) = true -> terminal (typ t) = true ->
  split_nodes pending done cur (body ++ [t]) = split_nodes pending done cur body.
Proof.
  revert pending done cur. induction body as [|i body IH]; intros pending done cur Hb Ht.
  { simpl. by destruct (typ t). }
  simpl in Hb. apply andb_prop in Hb as [Hi Hb]. simpl.
  destruct (typ i); try done; by apply IH.
Qed.

Lemma tree_items_terminal k pending body t :
  forallb (fun t => negb (terminal t)) (map typ body) = true -> terminal (typ t) = true ->
  tree_items k pending (body ++ [t])
  = (fun '(p, r) => (p, r ++ [t])) <$> tree_items k pending body.
Proof.
  revert k pending. induction body as [|i body IH]; intros k pending Hb Ht.
  { simpl. by destruct (typ t). }
  simpl in Hb. apply andb_prop in Hb as [Hi Hb]. simpl.
  destruct (typ i); try done; try by apply IH.
  destruct k; [done|by apply IH].
Qed.

Lemma tree_items_nonterminal k pending body p r :
  forallb (fun t => negb (terminal t)) (map typ body) = true ->
  tree_items k pending body = Some (p, r) ->
  forallb (fun t => negb (terminal t)) (map typ r) = true.
Proof.
  revert k pending. induction body as [|i body IH]; intros k pending Hb; [done|].
  simpl in Hb. apply andb_prop in Hb as [Hi Hb]. simpl.
  destruct (typ i); try done; try by apply IH.
  destruct k; [by intros [= <- <-]|by apply IH].
Qed.


Context {L : GoLibLaws G}.

(** X20: the nodes of a document with one opening parenthesis, parsed
    into a fresh record.  The heap holds exactly one node for each
    semicolon from the second on, in the order of the document, each
    pointing to the next; a node holds the properties completed between
    its semicolon and the next, the last one named [B] or [W] as its move
    and the others, in order, as its properties; the root is the first of
    these nodes.  With fewer than two semicolons there is no node. *)
Theorem X20_nodes_of_a_line (doc : string) (h : list Node) (g : SGFGame) :
  Parse [] emptyGame doc = Returns h g ->
  (length (filter (fun i => typ i = itemLeftParen) (sent (Lexer.lex doc))) <= 1)%nat ->
  match tree_items 1 "" (sent (Lexer.lex doc)) with
  | Some (pending, r) =>
    gameTree g = Some 0%nat /\ h = build 0 (split_nodes pending [] [] r)
  | None => gameTree g = None /\ h = []
  end.
Proof.
  unfold Parse. pose proof (sent_guarded doc) as Hgd.
  destruct (Lexer.lex doc) as [[] l|l|l] eqn:Hlex; [|done..].
  destruct (sent_shape doc l Hlex) as (body & t & Hit & Hterm & Hbody & Hfirst).
  cbn [sent] in *. rewrite Hit in *. rewrite Loop_app.
  destruct (start_inv [] emptyGame) as [Hinv Hidle].
  destruct (Loop_nonterminal (start [] emptyGame) body Hinv) as (s1 & HL & Hinv1 & _);
    [|done|].
  { intros _. rewrite map_app in Hgd. clear -Hgd. induction body as [|i body IH]; simpl in *;
      [done|]. destruct (typ i); auto. }
  rewrite HL. cbn [Loop].
  pose proof (on_item_inv s1 t Hinv1) as Hstep.
  destruct (on_item s1 t) as [s2|s2|] eqn:Et; [| |done].
  { destruct Hstep as (_ & _ & _ & _ & Hnt).
    { intros Hid. intros Hv. by rewrite Hv in Hterm. }
    by rewrite Hterm in Hnt. }
  destruct Hstep as (Hh & _ & Htree & _).
  { intros Hid Hv. by rewrite Hv in Hterm. }
  intros [= <- <-] Hcount. rewrite Hh, Htree.
  rewrite (tree_items_terminal _ _ _ _ Hbody Hterm).
  destruct body as [|i body].
  { injection HL as <-. done. }
  cbn [Loop] in HL. unfold on_item in HL. rewrite Hfirst in HL. simpl in HL.
  cbn [tree_items]. rewrite Hfirst.
  rewrite filter_app, filter_cons, length_app in Hcount.
  rewrite decide_True in Hcount by done. simpl in Hcount.
  assert (Hnone : Forall no_paren_item body).
  { apply Forall_forall. intros j Hj Hp.
    assert (j ∈ filter (fun i => typ i = itemLeftParen) body) as Hin
      by (by apply list_elem_of_filter).
    destruct (filter _ body); [by apply elem_of_nil in Hin|simpl in Hcount; lia]. }
  simpl in Hbody. rewrite Hfirst in Hbody. simpl in Hbody.
  apply header_then_contents in HL; try done. simpl in HL.
  destruct (tree_items 1 "" body) as [[pending r]|] eqn:Etree; simpl; [|done].
  destruct HL as [Ht1 Hh1]. split; [done|]. rewrite Hh1. f_equal.
  symmetry. apply split_nodes_terminal; [|done].
  by eapply tree_items_nonterminal.
Qed.

End Facts.
End LineContents.

(** ** Printed properties, read back *)

Module RoundTrip.
Import Lexer(item, itemType, typ, val, ipos, items, mkItem).
Import Lexer(itemEOF, itemError, itemLeftParen, itemRightParen, itemSemiColon,
             itemLeftBracket, itemRightBracket, itemPropertyName, itemPropertyValue).
Import Lexer(fnBegin, fnLeftParen, fnRightParen, fnSemiColon, fnPropertyName, fnLeftBracket).
Import Parser LexerFacts TraceFacts ParserFacts ViewFacts ParseClaims Printing.
Import PhaseFacts MainLine LineContents.



Section Facts.
Context {G : GoLib}.









Context {L : GoLibLaws G}.






















End Facts.
End RoundTrip.

(** ** The theorems at documents of the ASCII library *)

Module Instances.
Import Lexer LexerFacts ViewFacts ScannerCases Parser ParserFacts ParseClaims.
Import RecordFacts PhaseFacts MainLine Reachability Printing LineContents RoundTrip.

Lemma X7_witness :
  exists rest,
    sent (lex (G := AsciiLib.lib) "xy(;A[b])")
    = mkItem itemLeftParen 0 ("xy" +:+ "(") :: rest.
Proof. exact (X7_text_before_the_first_paren (L := AsciiLaws.laws) "xy(;A[b])"). Defined.

Lemma X8_witness :
  view (mkLexer "(;A" 0 0 0 []) "" "" "(;A" /\
  exists l',
    lexLeftParen (G := AsciiLib.lib) (mkLexer "(;A" 0 0 0 []) = Ok (Some fnSemiColon) l' /\
    items l' = [] ++ [mkItem itemLeftParen 0 "("] /\ view l' "(" "" ";A".
Proof.
  assert (V : view (mkLexer "(;A" 0 0 0 []) "" "" "(;A") by (by split).
  split; [exact V|].
  exact (X8_lexLeftParen_cases (G := AsciiLib.lib) _ "" "" ";A" V).
Defined.

Lemma X9_witness :
  view (mkLexer "()!" 1 1 0 [mkItem itemLeftParen 0 "("]) "(" "" ")!" /\
  exists l',
    lexRightParen (G := AsciiLib.lib) (mkLexer "()!" 1 1 0 [mkItem itemLeftParen 0 "("])
    = Ok None l' /\
    view l' "()" "" "!" /\
    items l' = [mkItem itemLeftParen 0 "("] ++
               [mkItem itemRightParen 1 ")"; mkItem itemEOF 2 ""].
Proof.
  assert (V : view (mkLexer "()!" 1 1 0 [mkItem itemLeftParen 0 "("]) "(" "" ")!")
    by (by split).
  split; [exact V|].
  exact (X9_lexRightParen_cases (G := AsciiLib.lib) _ "(" "" "!" V).
Defined.

Lemma X10_witness :
  view (mkLexer "(;ab[c]" 2 2 0 []) "(;" "" "ab[c]" /\
  exists l',
    lexPropertyName (G := AsciiLib.lib) (mkLexer "(;ab[c]" 2 2 0 [])
    = Ok (Some fnLeftBracket) l' /\
    items l' = [] ++ [mkItem itemPropertyName 2 "AB"] /\ view l' "(;ab" "" "[c]".
Proof.
  assert (V : view (mkLexer "(;ab[c]" 2 2 0 []) "(;" "" "ab[c]") by (by split).
  split; [exact V|].
  exact (X10_lexPropertyName_cases (L := AsciiLaws.laws) _ "(;" "" "ab[c]" V).
Defined.

Lemma X11_witness :
  view (mkLexer "(;AB[c] ;" 4 4 0 []) "(;AB" "" "[c] ;" /\
  exists l',
    lexLeftBracket (G := AsciiLib.lib) (mkLexer "(;AB[c] ;" 4 4 0 [])
    = Ok (Some fnSemiColon) l' /\
    items l' = [] ++ [mkItem itemPropertyValue 5 "c"] /\ view l' "(;AB[c]" " " ";".
Proof.
  assert (V : view (mkLexer "(;AB[c] ;" 4 4 0 []) "(;AB" "" "[c] ;") by (by split).
  split; [exact V|].
  exact (X11_lexLeftBracket_cases (L := AsciiLaws.laws) _ "(;AB" "" "c] ;" V).
Defined.

Lemma X14_witness :
  add_all [zeroNode] 0
    [mkProperty "B" "aa"; mkProperty "C" "x"; mkProperty "W" "bb"]
  = Some [mkNode (mkProperty "W" "bb") [mkProperty "C" "x"] [] None] /\
  Node_String (mkNode (mkProperty "W" "bb") [mkProperty "C" "x"] [] None) = "W[bb]C[x]".
Proof.
  exact (X14_node_keeps_one_move_and_the_rest [zeroNode] 0 zeroNode
           [mkProperty "B" "aa"; mkProperty "C" "x"; mkProperty "W" "bb"] eq_refl).
Defined.

#[local] Existing Instance AsciiLib.lib.

Lemma X16_witness :
  exists h g,
    Parse [] emptyGame "(;GM[1];B[aa](;W[bb])(;W[cc]))" = Returns h g /\
    ((h = [] /\ gameTree g = gameTree emptyGame) \/
     (gameTree g = Some (length (@nil Node)) /\ (length (@nil Node) < length h)%nat /\
      forall a, (length (@nil Node) <= a < length h)%nat ->
                reach h (length (@nil Node)) a)).
Proof.
  eexists _, _. split; [vm_compute; reflexivity|].
  refine (X16_no_node_is_lost [] emptyGame "(;GM[1];B[aa](;W[bb])(;W[cc]))" _ _ _).
  vm_compute. reflexivity.
Defined.


Lemma X18_witness :
  exists h g,
    Parse [] emptyGame "(;GM[1];B[aa];W[bb])" = Returns h g /\
    NodeCount h g = Some 2 /\
    forall n, 1 <= n <= 2 -> NthNode h g n = Some (Some (Z.to_nat (n - 1)), None).
Proof.
  eexists _, _. split; [vm_compute; reflexivity|].
  refine (X18_node_count_is_semicolons_less_one (L := AsciiLaws.laws)
            "(;GM[1];B[aa];W[bb])" _ _ _ _).
  - vm_compute. reflexivity.
  - vm_compute. lia.
Defined.

Lemma X20_witness :
  match tree_items 1 "" (sent (Lexer.lex "(;GM[1];B[aa]C[hi];W[bb])")) with
  | Some (pending, r) =>
    gameTree (mkSGFGame {["GM" := "1"]} (Some 0%nat) []) = Some 0%nat /\
    [mkNode (mkProperty "B" "aa") [mkProperty "C" "hi"] [] (Some 1%nat);
     mkNode (mkProperty "W" "bb") [] [] None]
    = build 0 (split_nodes pending [] [] r)
  | None =>
    gameTree (mkSGFGame {["GM" := "1"]} (Some 0%nat) []) = None /\
    [mkNode (mkProperty "B" "aa") [mkProperty "C" "hi"] [] (Some 1%nat);
     mkNode (mkProperty "W" "bb") [] [] None] = []
  end.
Proof.
  assert (H1 : Parse [] emptyGame "(;GM[1];B[aa]C[hi];W[bb])"
               = Returns [mkNode (mkProperty "B" "aa") [mkProperty "C" "hi"] [] (Some 1%nat);
                          mkNode (mkProperty "W" "bb") [] [] None]
                         (mkSGFGame {["GM" := "1"]} (Some 0%nat) []))
    by (vm_compute; reflexivity).
  assert (H2 : (length (filter (fun i => typ i = itemLeftParen)
                          (sent (Lexer.lex "(;GM[1];B[aa]C[hi];W[bb])"))) <= 1)%nat)
    by (vm_compute; lia).
  pose proof (X20_nodes_of_a_line (L := AsciiLaws.laws) _ _ _ H1 H2) as H.
  exact H.
Defined.


End Instances.
